(** * go-lrutree: a hierarchical LRU cache (cache.go)

    Shallow embedding of [Cache[K, V]] and of its public methods, followed by
    the invariants of the states the methods can reach and by the properties
    of the specification that are settled against them.

    Go pointers to [treeNode] are addresses into an explicit heap; the
    [container/list] recency list is the list of the nodes it holds, front
    first; the calls on the [StatsCollector], on the [onEvict] callback and on
    a traversal callback are recorded, in order, in the trace a method
    returns.  Callbacks return: their panics are not modelled.  The mutex is
    not modelled either: every method runs alone.  Go's [int] is [Z]: the
    integers of cache.go count nodes in memory and stay far from the bounds
    of [int]. *)

From stdpp Require Import gmap strings list.
From Stdlib Require Import ZArith.

Local Open Scope Z_scope.
Set Warnings "-clear-no-such-hyp".

(** The four error values of cache.go. *)
Inductive error : Type :=
  | ErrRootAlreadyExists
  | ErrParentNotExist
  | ErrAlreadyExists
  | ErrCycleDetected.

(** A [*treeNode]: the address of a node in the heap. *)
Definition ptr : Type := nat.

(** ** container/list, restricted to what cache.go calls

    An element belongs to the list exactly when its node occurs in it; an
    element that was removed has lost its list, so [MoveToFront] and [Remove]
    leave the list alone for it, as [container/list] does. *)
Module lru.

Definition PushFront (p : ptr) (l : list ptr) : list ptr := p :: l.

Definition Remove (p : ptr) (l : list ptr) : list ptr :=
  filter (λ q, q ≠ p) l.

Definition MoveToFront (p : ptr) (l : list ptr) : list ptr :=
  if decide (p ∈ l) then p :: Remove p l else l.

Definition Back (l : list ptr) : option ptr := last l.

Definition Len (l : list ptr) : Z := Z.of_nat (length l).

End lru.

(** Every Go type has a zero value ([var zeroKey K]). *)
Class Zero (A : Type) : Type := zero : A.

Section lrutree.

Context {K : Type} `{Countable K} `{Zero K} {V : Type} `{Zero V}.

Definition zeroKey : K := zero.
Definition zeroVal : V := zero.

(** [CacheNode[K, V]] *)
Record CacheNode : Type := mkCacheNode {
  Key : K;
  Value : V;
  ParentKey : K
}.

Definition zeroCacheNode : CacheNode := mkCacheNode zeroKey zeroVal zeroKey.

(** [treeNode[K, V]].  [children] is [None] for Go's nil map.  The field
    [lruElem] is the node's place in the recency list and needs no field of
    its own. *)
Record treeNode : Type := mkTreeNode {
  key : K;
  val : V;
  parent : option ptr;
  children : option (gmap K ptr)
}.

Definition newTreeNode (k : K) (v : V) (par : option ptr) : treeNode :=
  mkTreeNode k v par (Some ∅).

Definition zeroTreeNode : treeNode := mkTreeNode zeroKey zeroVal None None.

(** What the collaborators of the cache are told, in order. *)
Inductive event : Type :=
  | SetAmount (n : Z)
  | IncHits
  | IncMisses
  | AddEvictions (n : Z)
  | OnEvict (node : CacheNode)
  | Visit (k : K) (v : V) (parentKey : K).

(** [Cache[K, V]]: [onEvict] records whether a callback is configured, the
    calls on [stats] go to the trace.  [heap] gives the node at every
    address and [next] is the first address not yet handed out by [new];
    an address that was never handed out holds the zero node. *)
Record Cache : Type := mkCache {
  maxEntries : Z;
  onEvict : bool;
  keysMap : gmap K ptr;
  lruList : list ptr;
  root : option ptr;
  heap : ptr → treeNode;
  next : ptr
}.

Definition NewCache (maxEntries : Z) (onEvict : bool) : Cache :=
  mkCache maxEntries onEvict ∅ [] None (λ _, zeroTreeNode) 0%nat.

Definition setKeysMap (m : gmap K ptr) (c : Cache) : Cache :=
  mkCache (maxEntries c) (onEvict c) m (lruList c) (root c) (heap c) (next c).
Definition setLruList (l : list ptr) (c : Cache) : Cache :=
  mkCache (maxEntries c) (onEvict c) (keysMap c) l (root c) (heap c) (next c).
Definition setRoot (r : option ptr) (c : Cache) : Cache :=
  mkCache (maxEntries c) (onEvict c) (keysMap c) (lruList c) r (heap c) (next c).
Definition setHeap (h : ptr → treeNode) (c : Cache) : Cache :=
  mkCache (maxEntries c) (onEvict c) (keysMap c) (lruList c) (root c) h (next c).

(** Dereference. *)
Definition node (c : Cache) (p : ptr) : treeNode := heap c p.

Definition store (p : ptr) (n : treeNode) (h : ptr → treeNode) : ptr → treeNode :=
  λ q, if decide (q = p) then n else h q.

(** Assignments to the fields of the node at [p]. *)
Definition setParent (par : option ptr) (n : treeNode) : treeNode :=
  mkTreeNode (key n) (val n) par (children n).
Definition setVal (v : V) (n : treeNode) : treeNode :=
  mkTreeNode (key n) v (parent n) (children n).
Definition setChildren (m : option (gmap K ptr)) (n : treeNode) : treeNode :=
  mkTreeNode (key n) (val n) (parent n) m.

Definition update (p : ptr) (f : treeNode → treeNode) (c : Cache) : Cache :=
  setHeap (store p (f (heap c p)) (heap c)) c.

(** [&treeNode{...}]: the fresh address and the cache whose heap holds
    the node there. *)
Definition alloc (n : treeNode) (c : Cache) : ptr * Cache :=
  (next c,
   mkCache (maxEntries c) (onEvict c) (keysMap c) (lruList c) (root c)
           (store (next c) n (heap c)) (S (next c))).

(** [delete(n.children, k)]: nothing happens on a nil map. *)
Definition deleteChild (k : K) (n : treeNode) : treeNode :=
  setChildren (delete k <$> children n) n.

(** [p.children[k] = child]: an assignment to an entry of a nil map
    panics. *)
Definition insertChild (p : ptr) (k : K) (child : ptr) (c : Cache) : option Cache :=
  match children (node c p) with
  | None => None
  | Some m => Some (update p (setChildren (Some (<[k := child]> m))) c)
  end.

(** [range n.children]: the entries of a nil map are none. *)
Definition childrenOf (n : treeNode) : gmap K ptr := default ∅ (children n).

(** [(n *treeNode) removeFromParent()] *)
Definition removeFromParent (n : ptr) (c : Cache) : Cache :=
  match parent (node c n) with
  | None => c
  | Some par =>
      update n (setParent None) (update par (deleteChild (key (node c n))) c)
  end.

(** [(n *treeNode) parentKey()] *)
Definition parentKey (c : Cache) (n : ptr) : K :=
  match parent (node c n) with
  | Some par => key (node c par)
  | None => zeroKey
  end.

Definition cacheNodeOf (c : Cache) (n : ptr) : CacheNode :=
  mkCacheNode (key (node c n)) (val (node c n)) (parentKey c n).

(** How a call ends: it returns [r], having told its collaborators [tr] and
    left the cache in [c]; or it panics (an assignment to an entry of a nil
    map); or it never returns (a walk along parent links that has no
    end). *)
Inductive exec (A : Type) : Type :=
  | Done (r : A) (tr : list event) (c : Cache)
  | Panic
  | Diverge.
Global Arguments Done {A} r tr c.
Global Arguments Panic {A}.
Global Arguments Diverge {A}.

(** [for n := start; n != nil; n = n.parent]: the nodes the loop runs its
    body on, in order.  No body in cache.go assigns a parent link, so the
    nodes do not depend on the body.  [None] when [fuel] nodes do not
    reach the end. *)
Fixpoint ancestors (fuel : nat) (h : ptr → treeNode) (start : option ptr)
  : option (list ptr) :=
  match start with
  | None => Some []
  | Some n =>
      match fuel with
      | O => None
      | S fuel' => (n ::.) <$> ancestors fuel' h (parent (h n))
      end
  end.

(** No chain of distinct nodes is longer than the number of nodes that
    were ever made. *)
Definition chainFuel (c : Cache) : nat := S (next c).

Definition chain (c : Cache) (start : option ptr) : option (list ptr) :=
  ancestors (chainFuel c) (heap c) start.

Definition moveToFront (n : ptr) (c : Cache) : Cache :=
  setLruList (lru.MoveToFront n (lruList c)) c.

(** [for ...  { c.lruList.MoveToFront(n.lruElem) }] over the nodes [ns]. *)
Definition promote (ns : list ptr) (c : Cache) : Cache :=
  foldl (λ c' n, moveToFront n c') c ns.

(** [Peek] *)
Definition Peek (k : K) (c : Cache) : exec (CacheNode * bool) :=
  match keysMap c !! k with
  | None => Done (zeroCacheNode, false) [IncMisses] c
  | Some n =>
      Done (mkCacheNode k (val (node c n)) (parentKey c n), true) [IncHits] c
  end.

(** [Get] *)
Definition Get (k : K) (c : Cache) : exec (CacheNode * bool) :=
  match keysMap c !! k with
  | None => Done (zeroCacheNode, false) [IncMisses] c
  | Some n =>
      match chain c (Some n) with
      | None => Diverge
      | Some ns =>
          let c1 := promote ns c in
          Done (mkCacheNode k (val (node c1 n)) (parentKey c1 n), true)
               [IncHits] c1
      end
  end.

(** [Len] *)
Definition Len (c : Cache) : Z := Z.of_nat (size (keysMap c)).

(** [AddRoot] *)
Definition AddRoot (k : K) (v : V) (c : Cache) : exec (option error) :=
  match root c with
  | Some _ => Done (Some ErrRootAlreadyExists) [] c
  | None =>
      let '(r, c1) := alloc (newTreeNode k v None) c in
      let c2 := setRoot (Some r) c1 in
      let c3 := setLruList (lru.PushFront r (lruList c2)) c2 in
      let c4 := setKeysMap (<[k := r]> (keysMap c3)) c3 in
      Done None [SetAmount (Len c4)] c4
  end.

(** [evict] *)
Definition evict (c : Cache) : Cache * (CacheNode * bool) :=
  match lru.Back (lruList c) with
  | None => (c, (zeroCacheNode, false))
  | Some tail =>
      let c1 := setLruList (lru.Remove tail (lruList c)) c in
      let pk := parentKey c1 tail in
      let c2 := setKeysMap (delete (key (node c1 tail)) (keysMap c1)) c1 in
      let c3 := removeFromParent tail c2 in
      (c3, (mkCacheNode (key (node c3 tail)) (val (node c3 tail)) pk, true))
  end.

(** [c.maxEntries > 0 && c.lruList.Len() > c.maxEntries] *)
Definition overCapacity (c : Cache) : Prop :=
  0 < maxEntries c ∧ maxEntries c < lru.Len (lruList c).

(** [for n := node.parent; n != nil; n = n.parent { MoveToFront }] *)
Definition promoteAncestors (n : ptr) (c : Cache) : option Cache :=
  (λ ns, promote ns c) <$> chain c (parent (node c n)).

(** The end of [Add] and of [AddOrUpdate]: the eviction when the list is
    over capacity, the report of the size, and last (deferred, outside the
    lock) the callback. *)
Definition settle (c : Cache) : exec (option error) :=
  let '(c1, (evictedNode, evicted)) :=
    if decide (overCapacity c) then evict c
    else (c, (zeroCacheNode, false)) in
  Done None
       (SetAmount (Len c1) ::
        if evicted && onEvict c1 then [OnEvict evictedNode] else [])
       c1.

Definition finishAdd (n : ptr) (c : Cache) : exec (option error) :=
  match promoteAncestors n c with
  | None => Diverge
  | Some c1 => settle c1
  end.

(** The insertion of a new node, shared by [Add] and by the second branch
    of [AddOrUpdate]. *)
Definition linkNew (k : K) (v : V) (par : ptr) (c : Cache) : option (ptr * Cache) :=
  let '(n, c1) := alloc (newTreeNode k v (Some par)) c in
  let c2 := setKeysMap (<[k := n]> (keysMap c1)) c1 in
  let c3 := setLruList (lru.PushFront n (lruList c2)) c2 in
  (n ,.) <$> insertChild par k n c3.

Definition addNew (k : K) (v : V) (par : ptr) (c : Cache) : exec (option error) :=
  match linkNew k v par c with
  | None => Panic
  | Some (n, c4) => finishAdd n c4
  end.

(** [Add] *)
Definition Add (k : K) (v : V) (pk : K) (c : Cache) : exec (option error) :=
  match keysMap c !! pk with
  | None => Done (Some ErrParentNotExist) [] c
  | Some par =>
      match keysMap c !! k with
      | Some _ => Done (Some ErrAlreadyExists) [] c
      | None => addNew k v par c
      end
  end.

(** [for par := parent; par != nil; par = par.parent { if par == node ... }]:
    whether the loop meets [n]; [None] when it runs out of fuel first. *)
Fixpoint meets (fuel : nat) (h : ptr → treeNode) (par : option ptr) (n : ptr)
  : option bool :=
  match par with
  | None => Some false
  | Some p =>
      if decide (p = n) then Some true
      else match fuel with
           | O => None
           | S fuel' => meets fuel' h (parent (h p)) n
           end
  end.

(** [AddOrUpdate] *)
Definition AddOrUpdate (k : K) (v : V) (pk : K) (c : Cache) : exec (option error) :=
  match keysMap c !! pk with
  | None => Done (Some ErrParentNotExist) [] c
  | Some par =>
      match keysMap c !! k with
      | Some n =>
          let moved :=
            if decide (parent (node c n) = Some par) then Done None [] c
            else
              match meets (chainFuel c) (heap c) (Some par) n with
              | None => Diverge
              | Some true => Done (Some ErrCycleDetected) [] c
              | Some false =>
                  let c1 := removeFromParent n c in
                  let c2 := update n (setParent (Some par)) c1 in
                  match insertChild par k n c2 with
                  | None => Panic
                  | Some c3 => Done None [] c3
                  end
              end in
          match moved with
          | Done None _ c3 =>
              let c4 := update n (setVal v) c3 in
              finishAdd n (moveToFront n c4)
          | other => other
          end
      | None => addNew k v par c
      end
  end.

(** The loop of [PeekBranch] and of [GetBranch] that fills [branch] from
    its last index down; [touch] tells [GetBranch] from [PeekBranch]. *)
Definition fillBranch (touch : bool) (ns : list ptr) (c : Cache)
  : list CacheNode * Cache :=
  foldl (λ '(branch, c') n,
           (cacheNodeOf c' n :: branch,
            if touch then moveToFront n c' else c'))
        ([], c) ns.

(** [PeekBranch] *)
Definition PeekBranch (k : K) (c : Cache) : exec (list CacheNode) :=
  match keysMap c !! k with
  | None => Done [] [IncMisses] c
  | Some n =>
      match chain c (Some n) with
      | None => Diverge
      | Some ns =>
          let '(branch, c1) := fillBranch false ns c in
          Done branch [IncHits] c1
      end
  end.

(** [GetBranch] *)
Definition GetBranch (k : K) (c : Cache) : exec (list CacheNode) :=
  match keysMap c !! k with
  | None => Done [] [IncMisses] c
  | Some n =>
      match chain c (Some n) with
      | None => Diverge
      | Some ns =>
          let '(branch, c1) := fillBranch true ns c in
          Done branch [IncHits] c1
      end
  end.

Definition visitOf (c : Cache) (n : ptr) : event :=
  Visit (key (node c n)) (val (node c n)) (parentKey c n).

(** [TraverseToRoot], for a callback that returns: the calls of [f], then
    [IncHits], then the deferred promotion of the chain. *)
Definition TraverseToRoot (k : K) (c : Cache) : exec unit :=
  match keysMap c !! k with
  | None => Done () [IncMisses] c
  | Some n =>
      match chain c (Some n) with
      | None => Diverge
      | Some ns => Done () (map (visitOf c) ns ++ [IncHits]) (promote ns c)
      end
  end.

(** An order in which [range] may hand out the entries of a map: Go fixes
    none. *)
Record rangeOrder : Type := mkRangeOrder {
  entries : gmap K ptr → list (K * ptr);
  entries_perm : ∀ m, entries m ≡ₚ map_to_list m
}.

Definition anyOrder : rangeOrder := mkRangeOrder map_to_list (λ m, reflexivity _).

(** A loop whose body may fail to return. *)
Fixpoint forEach {A S : Type} (body : A → S → option S) (l : list A) (s : S)
  : option S :=
  match l with
  | [] => Some s
  | x :: l' =>
      match body x s with
      | None => None
      | Some s' => forEach body l' s'
      end
  end.

(** The closure [traverse] of [TraverseSubtree], for a callback that
    returns.  The state is the trace so far and the cache; the promotion of
    [n] is deferred to the return of the call on [n].  [None] when the
    recursion is deeper than [fuel]. *)
Fixpoint traverse (ro : rangeOrder) (maxDepth : Z) (fuel : nat)
    (n : ptr) (currentDepth : Z) (s : list event * Cache)
  : option (list event * Cache) :=
  match fuel with
  | O => None
  | S fuel' =>
      let s1 := (s.1 ++ [visitOf s.2 n], s.2) in
      let after :=
        if decide (0 ≤ maxDepth ∧ maxDepth ≤ currentDepth) then Some s1
        else forEach (λ child, traverse ro maxDepth fuel' child.2 (currentDepth + 1))
                     (entries ro (childrenOf (node s1.2 n))) s1 in
      (λ s2, (s2.1, moveToFront n s2.2)) <$> after
  end.

(** [TraverseSubtree]; [maxDepth] is [-1] when no option is given. *)
Definition TraverseSubtree (ro : rangeOrder) (k : K) (maxDepth : Z) (c : Cache)
  : exec unit :=
  match keysMap c !! k with
  | None => Done () [IncMisses] c
  | Some n =>
      match traverse ro maxDepth (chainFuel c) n 0 ([], c) with
      | None => Diverge
      | Some (tr, c1) =>
          match chain c1 (parent (node c1 n)) with
          | None => Diverge
          | Some ns => Done () (tr ++ [IncHits]) (promote ns c1)
          end
      end
  end.

(** The closure [removeRecursively] of [Remove]; the state is
    [removedCount] and the cache. *)
Fixpoint removeRecursively (ro : rangeOrder) (fuel : nat) (n : ptr)
    (s : Z * Cache) : option (Z * Cache) :=
  match fuel with
  | O => None
  | S fuel' =>
      let c1 := setKeysMap (delete (key (node s.2 n)) (keysMap s.2)) s.2 in
      let c2 := update n (setParent None) c1 in
      let c3 := setLruList (lru.Remove n (lruList c2)) c2 in
      (λ s4, (s4.1, update n (setChildren None) s4.2)) <$>
        forEach (λ child, removeRecursively ro fuel' child.2)
                (entries ro (childrenOf (node c3 n))) (s.1 + 1, c3)
  end.

(** [Remove] *)
Definition Remove (ro : rangeOrder) (k : K) (c : Cache) : exec Z :=
  match keysMap c !! k with
  | None => Done 0 [] c
  | Some n =>
      match removeRecursively ro (chainFuel c) n (0, c) with
      | None => Diverge
      | Some (removedCount, c1) =>
          let c2 := removeFromParent n c1 in
          Done removedCount [SetAmount (Len c2)] c2
      end
  end.

(** ** The states a cache can be in

    The calls a client can make, and the caches that calls that return
    lead to from a new cache. *)
Inductive call : Type :=
  | CallPeek (k : K)
  | CallGet (k : K)
  | CallAddRoot (k : K) (v : V)
  | CallAdd (k : K) (v : V) (parentKey : K)
  | CallAddOrUpdate (k : K) (v : V) (parentKey : K)
  | CallPeekBranch (k : K)
  | CallGetBranch (k : K)
  | CallTraverseToRoot (k : K)
  | CallTraverseSubtree (ro : rangeOrder) (k : K) (maxDepth : Z)
  | CallRemove (ro : rangeOrder) (k : K).

Definition after {A : Type} (e : exec A) : option Cache :=
  match e with
  | Done _ _ c => Some c
  | _ => None
  end.

Definition perform (o : call) (c : Cache) : option Cache :=
  match o with
  | CallPeek k => after (Peek k c)
  | CallGet k => after (Get k c)
  | CallAddRoot k v => after (AddRoot k v c)
  | CallAdd k v pk => after (Add k v pk c)
  | CallAddOrUpdate k v pk => after (AddOrUpdate k v pk c)
  | CallPeekBranch k => after (PeekBranch k c)
  | CallGetBranch k => after (GetBranch k c)
  | CallTraverseToRoot k => after (TraverseToRoot k c)
  | CallTraverseSubtree ro k d => after (TraverseSubtree ro k d c)
  | CallRemove ro k => after (Remove ro k c)
  end.

Inductive reachable : Cache → Prop :=
  | reachable_new (maxEntries : Z) (onEvict : bool) :
      reachable (NewCache maxEntries onEvict)
  | reachable_call (c : Cache) (o : call) (c' : Cache) :
      reachable c → perform o c = Some c' → reachable c'.

(** ** Order in the recency list *)

(** The place of [x] in [l], from the front; the length of [l] when [x] is
    not in it. *)
Fixpoint pos (l : list ptr) (x : ptr) : nat :=
  match l with
  | [] => O
  | y :: l' => if decide (y = x) then O else S (pos l' x)
  end.

(** [q] is nearer to the front of [l] than [p]: more recently used. *)
Definition before (l : list ptr) (q p : ptr) : Prop :=
  q ∈ l ∧ p ∈ l ∧ (pos l q < pos l p)%nat.

(** Every node of the list is behind its parent, when the parent is in the
    list too and is not one of the nodes [X] whose promotion is pending. *)
Definition ordered (X : ptr → Prop) (h : ptr → treeNode) (l : list ptr) : Prop :=
  ∀ p q, p ∈ l → parent (h p) = Some q → q ∈ l → ¬ X q → before l q p.

(** What holds of the heap, the key table and the recency list between the
    statements of a method; [X] as in [ordered]. *)
Record wf (X : ptr → Prop) (c : Cache) : Prop := mkWf {
  wf_nodup : NoDup (lruList c);
  wf_alloc : ∀ p, p ∈ lruList c → (p < next c)%nat;
  wf_parent_alloc : ∀ p q, parent (heap c p) = Some q → (q < next c)%nat;
  wf_out : ∀ p, p ∉ lruList c → parent (heap c p) = None;
  wf_ordered : ordered X (heap c) (lruList c);
  wf_keys : ∀ k p, keysMap c !! k = Some p → p ∈ lruList c ∧ key (heap c p) = k;
  wf_maps : ∀ p, p ∈ lruList c → is_Some (children (heap c p));
  wf_children : ∀ p m k ch,
    children (heap c p) = Some m → m !! k = Some ch →
    (ch < next c)%nat ∧ key (heap c ch) = k ∧
    (ch ∈ lruList c → parent (heap c ch) = Some p) ∧
    (ch ∉ lruList c → children (heap c ch) = None);
  wf_root : root c = None → lruList c = []
}.

Definition none : ptr → Prop := λ _, False.

(** The invariant of the cache between calls. *)
Definition Inv (c : Cache) : Prop :=
  wf none c ∧ (0 < maxEntries c → lru.Len (lruList c) ≤ maxEntries c).

(** [a] is on the chain of parents of [d]: [d] is a strict descendant of
    [a]. *)
Definition strictDescendant (c : Cache) (d a : ptr) : Prop :=
  ∃ ns, chain c (parent (node c d)) = Some ns ∧ a ∈ ns.

(** The rank of a node: its place in the list, counted from one, and zero
    for a node that is not in the list.  It falls along parent links. *)
Definition rank (c : Cache) (p : ptr) : nat :=
  if decide (p ∈ lruList c) then S (pos (lruList c) p) else O.

(** The cache [c4] is [c] with a new node for [k] and [v] under [par], at
    the front of the list. *)
Record linked (k : K) (v : V) (par : ptr) (c c4 : Cache) : Prop := mkLinked {
  linked_maxEntries : maxEntries c4 = maxEntries c;
  linked_onEvict : onEvict c4 = onEvict c;
  linked_keysMap : keysMap c4 = <[k := next c]> (keysMap c);
  linked_lruList : lruList c4 = next c :: lruList c;
  linked_root : root c4 = root c;
  linked_next : next c4 = S (next c);
  linked_key : ∀ x, key (heap c4 x) = if decide (x = next c) then k else key (heap c x);
  linked_val : ∀ x, val (heap c4 x) = if decide (x = next c) then v else val (heap c x);
  linked_parent : ∀ x,
    parent (heap c4 x) = if decide (x = next c) then Some par else parent (heap c x)
}.

(** The node [n] of key [k] moves under [par]: the three assignments of
    [AddOrUpdate]. *)
Definition reparent (k : K) (n par : ptr) (m : gmap K ptr) (c : Cache) : Cache :=
  update par (setChildren (Some (<[k := n]> m)))
    (update n (setParent (Some par)) (removeFromParent n c)).

(** [c] is [c0] with its recency list in another order. *)
Definition reordered (c0 c : Cache) : Prop :=
  maxEntries c = maxEntries c0 ∧ onEvict c = onEvict c0 ∧
  keysMap c = keysMap c0 ∧ root c = root c0 ∧ heap c = heap c0 ∧
  next c = next c0 ∧ lruList c ≡ₚ lruList c0.

(** The distance of a node of the list from its end. *)
Definition fromBack (l : list ptr) (n : ptr) : nat := (length l - pos l n)%nat.

(** The cache in which the nodes [S], whose removal is under way, have
    already lost their children. *)
Definition hide (S : list ptr) (c : Cache) : Cache :=
  setHeap (λ x, if decide (x ∈ S) then setChildren None (heap c x) else heap c x) c.

(** The children of a node are those it had in [c0], until it loses them. *)
Definition childrenFrom (c0 c : Cache) : Prop :=
  ∀ x, children (heap c x) = None ∨ children (heap c x) = children (heap c0 x).

(** What a call returned and what it told its collaborators. *)
Definition returned {A : Type} (e : exec A) : option A :=
  match e with
  | Done r _ _ => Some r
  | _ => None
  end.

Definition told {A : Type} (e : exec A) : option (list event) :=
  match e with
  | Done _ tr _ => Some tr
  | _ => None
  end.

(** The cache after the calls [os]; a call that does not return leaves the
    cache as it was. *)
Definition runAll (os : list call) (c : Cache) : Cache :=
  foldl (λ c' o, default c' (perform o c')) c os.

(** The cache on which [Add] reaches its capacity check, when it gets that
    far. *)
Definition AddUpToSettle (k : K) (v : V) (pk : K) (c : Cache) : option Cache :=
  match keysMap c !! pk, keysMap c !! k with
  | Some par, None => linkNew k v par c ≫= λ '(n, c4), promoteAncestors n c4
  | _, _ => None
  end.

End lrutree.

(** * Views of the cache

    What the statements on lookups, walks and removals below are about. *)

Section views.

Context {K : Type} `{Countable K} `{Zero K} {V : Type} `{Zero V}.

(** What a traversal callback is told of the entry [cn]. *)
Definition visitNode (cn : CacheNode (K:=K) (V:=V)) : event :=
  Visit (Key cn) (Value cn) (ParentKey cn).

(** The calls that look entries up or walk over them. *)
Definition isRead (o : call (K:=K) (V:=V)) : bool :=
  match o with
  | CallPeek _ | CallGet _ | CallPeekBranch _ | CallGetBranch _
  | CallTraverseToRoot _ | CallTraverseSubtree _ _ _ => true
  | _ => false
  end.

(** [branch] is a path downwards from an entry whose parent key is [pk]:
    the parent key of every entry is the key of the entry before it. *)
Fixpoint pathFrom (pk : K) (branch : list (CacheNode (K:=K) (V:=V))) : Prop :=
  match branch with
  | [] => True
  | cn :: rest => ParentKey cn = pk ∧ pathFrom (Key cn) rest
  end.

(** What a removal that is under way has made of the count and the cache
    [s]: keys leave the key table and none comes in, the nodes keep their
    keys and values, a node whose parent link changed has left the key
    table, and the count rose by at least the number of keys that left. *)
Definition shrunk (s s' : Z * Cache (K:=K) (V:=V)) : Prop :=
  keysMap s'.2 ⊆ keysMap s.2 ∧
  (∀ x, key (heap s'.2 x) = key (heap s.2 x)) ∧
  (∀ x, val (heap s'.2 x) = val (heap s.2 x)) ∧
  (∀ x, parent (heap s'.2 x) = parent (heap s.2 x) ∨
        keysMap s'.2 !! key (heap s.2 x) ≠ Some x) ∧
  s.1 ≤ s'.1 ∧
  Z.of_nat (size (keysMap s.2)) - Z.of_nat (size (keysMap s'.2)) ≤ s'.1 - s.1.

(** [getLRUOrder] of the tests: the keys of the nodes of the recency list,
    front first. *)
Definition getLRUOrder (c : Cache (K:=K) (V:=V)) : list K :=
  map (λ p, key (node c p)) (lruList c).

(** The calls of [Remove]. *)
Definition isRemove (o : call (K:=K) (V:=V)) : bool :=
  match o with
  | CallRemove _ _ => true
  | _ => false
  end.

(** The caches that calls other than [Remove] lead to from a new cache. *)
Inductive intact : Cache (K:=K) (V:=V) → Prop :=
  | intact_new (maxEntries : Z) (onEvict : bool) :
      intact (NewCache maxEntries onEvict)
  | intact_call (c : Cache) (o : call) (c' : Cache) :
      intact c → isRemove o = false → perform o c = Some c' → intact c'.

(** The nodes of the recency list form a tree under the root: each is the
    node of its key in the key table; its parent is in the list and holds
    it among its children, under its key; the children of a node of the
    list are in the list; the only node of the list without parent is the
    root, and the root is in the list. *)
Record tree (c : Cache (K:=K) (V:=V)) : Prop := mkTree {
  tree_keys : ∀ p, p ∈ lruList c → keysMap c !! key (heap c p) = Some p;
  tree_parent : ∀ p q,
    p ∈ lruList c → parent (heap c p) = Some q →
    q ∈ lruList c ∧
    ∃ m, children (heap c q) = Some m ∧ m !! key (heap c p) = Some p;
  tree_children : ∀ p m k ch,
    p ∈ lruList c → children (heap c p) = Some m → m !! k = Some ch →
    ch ∈ lruList c;
  tree_top : ∀ p, p ∈ lruList c → parent (heap c p) = None → root c = Some p;
  tree_root : ∀ r, root c = Some r → r ∈ lruList c
}.

(** What holds of the cache [c] while [Remove] of the node [n0] is under
    way on the cache [c0]: the nodes keep their keys; the nodes still in
    the list were in the list of [c0], have the children they had and are
    the nodes of their keys in the key table; a node that left the list is
    [n0] or has a parent that left it. *)
Record removing (c0 : Cache (K:=K) (V:=V)) (n0 : ptr) (c : Cache (K:=K) (V:=V))
  : Prop := mkRemoving {
  rm_key : ∀ x, key (heap c x) = key (heap c0 x);
  rm_sub : ∀ x, x ∈ lruList c → x ∈ lruList c0;
  rm_nodup : NoDup (lruList c);
  rm_children : ∀ x, x ∈ lruList c → children (heap c x) = children (heap c0 x);
  rm_keys : ∀ x, x ∈ lruList c → keysMap c !! key (heap c0 x) = Some x;
  rm_gone : ∀ x, x ∈ lruList c0 → x ∉ lruList c →
            x = n0 ∨ ∃ q, parent (heap c0 x) = Some q ∧ q ∉ lruList c
}.

(** What the removal of the nodes [tops] and of what is below them has
    made of the count and the cache [s]: the nodes that left the list are
    the nodes [tops] and the nodes whose parent in [c0] left it, and the
    count rose by their number, which is the number of keys that left the
    key table. *)
Definition removedBy (c0 : Cache (K:=K) (V:=V)) (tops : list ptr)
    (s s' : Z * Cache (K:=K) (V:=V)) : Prop :=
  (∀ x, x ∈ lruList s'.2 → x ∈ lruList s.2) ∧
  (∀ x, x ∈ tops → x ∉ lruList s'.2) ∧
  (∀ x, x ∈ lruList s.2 → x ∉ lruList s'.2 →
        x ∈ tops ∨
        ∃ q, parent (heap c0 x) = Some q ∧ q ∈ lruList s.2 ∧ q ∉ lruList s'.2) ∧
  (∀ x q, x ∈ lruList s.2 → parent (heap c0 x) = Some q →
          q ∈ lruList s.2 → q ∉ lruList s'.2 → x ∉ lruList s'.2) ∧
  s'.1 - s.1 = Z.of_nat (length (lruList s.2)) - Z.of_nat (length (lruList s'.2)) ∧
  s'.1 - s.1 = Z.of_nat (size (keysMap s.2)) - Z.of_nat (size (keysMap s'.2)).

(** The nodes [ws] are the nodes [tops] of the tree [c0] with what is
    below them, each once: every node of [ws] is a node of the list of
    [c0], no nearer to the front than one of [tops], and is one of [tops]
    or has its parent in [ws]; and a node of the list whose parent is in
    [ws] is in [ws]. *)
Definition walked (c0 : Cache (K:=K) (V:=V)) (tops ws : list ptr) : Prop :=
  (∀ x, x ∈ tops → x ∈ ws) ∧ NoDup ws ∧
  (∀ x, x ∈ ws →
        x ∈ lruList c0 ∧ ∃ t, t ∈ tops ∧ (rank c0 t ≤ rank c0 x)%nat) ∧
  (∀ x, x ∈ ws → x ∈ tops ∨ ∃ q, parent (heap c0 x) = Some q ∧ q ∈ ws) ∧
  (∀ x q, x ∈ lruList c0 → parent (heap c0 x) = Some q → q ∈ ws → x ∈ ws).

End views.

(** * Caches with keys that are strings and values that are integers

    The caches the examples below are about, each given by the calls that
    lead to it from a new cache. *)

#[global] Instance zero_string : Zero string := ""%string.
#[global] Instance zero_Z : Zero Z := 0.

Module example.

Local Open Scope string_scope.

(** The root "A" and "B" under it. *)
Definition two (maxEntries : Z) : Cache (K:=string) (V:=Z) :=
  runAll [CallAddRoot "A" 1; CallAdd "B" 2 "A"] (NewCache maxEntries true).

(** The chain "A", "B", "C". *)
Definition three : Cache (K:=string) (V:=Z) :=
  runAll [CallAddRoot "A" 1; CallAdd "B" 2 "A"; CallAdd "C" 3 "B"]
         (NewCache 10 true).

(** The scenario of the specification: capacity 4, the root "A", "B" under
    it, "C" and "D" under "B". *)
Definition full : Cache (K:=string) (V:=Z) :=
  runAll [CallAddRoot "A" 1; CallAdd "B" 2 "A"; CallAdd "C" 3 "B";
          CallAdd "D" 4 "B"]
         (NewCache 4 true).

(** "C" was added under "B" and removed again. *)
Definition afterRemoveChild (maxEntries : Z) : Cache (K:=string) (V:=Z) :=
  runAll [CallAddRoot "A" 1; CallAdd "B" 2 "A"; CallAdd "C" 3 "B";
          CallRemove anyOrder "C"]
         (NewCache maxEntries true).

(** Capacity 3; after the removal of "C", "D" is added under "A". *)
Definition staleChild : Cache (K:=string) (V:=Z) :=
  runAll [CallAdd "D" 4 "A"] (afterRemoveChild 3).

(** After the removal of "C", "C" is added again, under "A", with "D"
    under it; then "B" is removed. *)
Definition orphan : Cache (K:=string) (V:=Z) :=
  runAll [CallAdd "C" 4 "A"; CallAdd "D" 5 "C"; CallRemove anyOrder "B"]
         (afterRemoveChild 10).

(** The calls that leave a node for "C" under the node of [top] that the
    key table and the children of [top] no longer know, with "E" and "F"
    below it. *)
Definition unlink (top : string) : list (call (K:=string) (V:=Z)) :=
  [CallAdd "Q" 2 "R"; CallAdd "C" 3 "Q"; CallRemove anyOrder "C";
   CallAdd "C" 4 top; CallRemove anyOrder "Q"; CallAdd "C" 5 top;
   CallAdd "E" 6 "C"; CallAdd "F" 7 "E"].

(** Capacity 5; [unlink] under "P", a child of the root "R", and then the
    removal of "P". *)
Definition detached : Cache (K:=string) (V:=Z) :=
  runAll ([CallAddRoot "R" 1; CallAdd "P" 8 "R"] ++ unlink "P" ++
          [CallRemove anyOrder "P"])
         (NewCache 5 true).

(** Capacity 4; [unlink] under the root "R", and then the removal of
    "R". *)
Definition rootRemoved : Cache (K:=string) (V:=Z) :=
  runAll ([CallAddRoot "R" 1] ++ unlink "R" ++ [CallRemove anyOrder "R"])
         (NewCache 4 true).

(** The root "A" alone. *)
Definition rootOnly : Cache (K:=string) (V:=Z) :=
  runAll [CallAddRoot "A" 1] (NewCache 10 true).

(** The cache on which [Add] of "E" under "B" in [full] reaches its
    capacity check. *)
Definition atCheck : Cache (K:=string) (V:=Z) :=
  default full (AddUpToSettle "E" 5 "B" full).

End example.

(** * Proofs *)

(** ** The recency list *)
Section recency.

Implicit Types (l : list ptr) (p q x n : ptr).

Lemma elem_of_Remove l n x : x ∈ lru.Remove n l ↔ x ∈ l ∧ x ≠ n.
Proof. unfold lru.Remove. rewrite list_elem_of_filter. tauto. Qed.

Lemma NoDup_Remove l n : NoDup l → NoDup (lru.Remove n l).
Proof. apply NoDup_filter. Qed.

Lemma Remove_notin l n : n ∉ l → lru.Remove n l = l.
Proof.
  unfold lru.Remove. induction l as [|y l IH]; [done|].
  rewrite not_elem_of_cons. intros [Hne Hnot].
  rewrite filter_cons_True by congruence. by rewrite IH.
Qed.

Lemma length_Remove l n :
  NoDup l → n ∈ l → S (length (lru.Remove n l)) = length l.
Proof.
  unfold lru.Remove. induction 1 as [|y l Hy Hnd IH]; [by rewrite elem_of_nil|].
  rewrite elem_of_cons. intros Hin. destruct (decide (y = n)) as [->|Hne].
  - rewrite filter_cons_False by (intros ?; congruence).
    fold (lru.Remove n l). by rewrite Remove_notin.
  - rewrite filter_cons_True by done. simpl. f_equal. apply IH.
    destruct Hin; congruence.
Qed.

Lemma elem_of_MoveToFront l n x : x ∈ lru.MoveToFront n l ↔ x ∈ l.
Proof.
  unfold lru.MoveToFront. case_decide as Hn; [|done].
  rewrite elem_of_cons, elem_of_Remove.
  destruct (decide (x = n)) as [->|]; naive_solver.
Qed.

Lemma NoDup_MoveToFront l n : NoDup l → NoDup (lru.MoveToFront n l).
Proof.
  intros Hnd. unfold lru.MoveToFront. case_decide; [|done].
  apply NoDup_cons. split; [|by apply NoDup_Remove].
  rewrite elem_of_Remove. naive_solver.
Qed.

Lemma length_MoveToFront l n :
  NoDup l → length (lru.MoveToFront n l) = length l.
Proof.
  intros Hnd. unfold lru.MoveToFront. case_decide; [|done].
  simpl. by apply length_Remove.
Qed.

Lemma pos_le l x : (pos l x ≤ length l)%nat.
Proof. induction l as [|y l IH]; simpl; [lia|]. case_decide; lia. Qed.

Lemma pos_elem_of l x : x ∈ l ↔ (pos l x < length l)%nat.
Proof.
  induction l as [|y l IH]; simpl.
  - rewrite elem_of_nil. lia.
  - rewrite elem_of_cons. case_decide; [naive_solver lia|].
    rewrite IH. split; [intros [?|?]; [congruence|lia]|]. right. lia.
Qed.

Lemma pos_filter (P : ptr → Prop) `{∀ x, Decision (P x)} l x y :
  P x → P y →
  (pos (filter P l) x < pos (filter P l) y)%nat ↔ (pos l x < pos l y)%nat.
Proof.
  intros Hx Hy. induction l as [|a l IH]; [done|].
  destruct (decide (P a)) as [Ha|Ha].
  - rewrite filter_cons_True by done. simpl. repeat case_decide; lia.
  - rewrite filter_cons_False by done. simpl.
    rewrite !decide_False by congruence. lia.
Qed.

Lemma before_irrefl l x : ¬ before l x x.
Proof. intros (_ & _ & ?). lia. Qed.

Lemma before_trans l x y z : before l x y → before l y z → before l x z.
Proof. intros (? & ? & ?) (? & ? & ?). repeat split; [done..|lia]. Qed.

Lemma before_cons_front l n x : x ∈ l → x ≠ n → before (n :: l) n x.
Proof.
  intros Hx Hne. repeat split; [set_solver..|]. simpl.
  rewrite decide_True by done. rewrite decide_False by done. lia.
Qed.

Lemma before_cons l n x y : x ≠ n → y ≠ n → before l x y → before (n :: l) x y.
Proof.
  intros ? ? (? & ? & ?). repeat split; [set_solver..|]. simpl.
  rewrite !decide_False by done. lia.
Qed.

Lemma before_Remove l n x y :
  x ≠ n → y ≠ n → before l x y → before (lru.Remove n l) x y.
Proof.
  intros ? ? (? & ? & ?). repeat split; [by apply elem_of_Remove..|].
  unfold lru.Remove. by apply (pos_filter (λ q, q ≠ n)).
Qed.

Lemma before_MoveToFront l n x y :
  x ≠ n → y ≠ n → before l x y → before (lru.MoveToFront n l) x y.
Proof.
  intros ? ? Hb. unfold lru.MoveToFront. case_decide; [|done].
  by apply before_cons, before_Remove.
Qed.

Lemma before_MoveToFront_front l n x :
  n ∈ l → x ∈ l → x ≠ n → before (lru.MoveToFront n l) n x.
Proof.
  intros ? ? ?. unfold lru.MoveToFront. rewrite decide_True by done.
  apply before_cons_front; [|done]. by apply elem_of_Remove.
Qed.

Lemma not_before_last l t x : NoDup (l ++ [t]) → ¬ before (l ++ [t]) t x.
Proof.
  intros Hnd (_ & Hx & Hlt).
  assert (pos (l ++ [t]) t = length l) as Ht.
  { apply NoDup_app in Hnd as (_ & Hnot & _). clear Hx Hlt.
    induction l as [|y l IH]; simpl.
    - by rewrite decide_True.
    - rewrite decide_False; [f_equal; apply IH|]; set_solver. }
  apply pos_elem_of in Hx. rewrite length_app in Hx. simpl in Hx. lia.
Qed.

(** A list without repetition of addresses below [n] has at most [n]
    entries. *)
Lemma length_bounded l (n : nat) :
  NoDup l → (∀ x, x ∈ l → (x < n)%nat) → (length l ≤ n)%nat.
Proof.
  intros Hnd Hlt.
  assert (length l ≤ length (seq 0 n))%nat as Hle; [|by rewrite length_seq in Hle].
  apply submseteq_length, NoDup_submseteq; [done|].
  intros x Hx. apply elem_of_seq. specialize (Hlt x Hx). lia.
Qed.

End recency.

Section facts.

Context {K : Type} `{Countable K} `{Zero K} {V : Type} `{Zero V}.

Implicit Types (c : Cache (K:=K) (V:=V)) (h : ptr → treeNode (K:=K) (V:=V)).
Implicit Types (p q x n : ptr) (ns : list ptr) (X : ptr → Prop).

(** ** Walks along parent links *)

Lemma ancestors_mono fuel fuel' h start ns :
  ancestors fuel h start = Some ns → (fuel ≤ fuel')%nat →
  ancestors fuel' h start = Some ns.
Proof.
  revert fuel' start ns. induction fuel as [|fuel IH]; intros fuel' start ns.
  - destruct start; simpl; [done|]. intros [= <-] _. by destruct fuel'.
  - destruct start as [n|]; simpl; [|intros [= <-] _; by destruct fuel'].
    destruct (ancestors fuel h (parent (h n))) as [ns'|] eqn:E; [|done].
    simpl. intros [= <-] Hle. destruct fuel' as [|fuel']; [lia|]. simpl.
    rewrite (IH fuel' _ ns') by (done || lia). done.
Qed.

Lemma ancestors_ext fuel h h' start ns :
  ancestors fuel h start = Some ns →
  (∀ p, p ∈ ns → parent (h' p) = parent (h p)) →
  ancestors fuel h' start = Some ns.
Proof.
  revert start ns. induction fuel as [|fuel IH]; intros start ns.
  - by destruct start.
  - destruct start as [n|]; simpl; [|done].
    destruct (ancestors fuel h (parent (h n))) as [ns'|] eqn:E; [|done].
    simpl. intros [= <-] Hext. rewrite (Hext n) by set_solver.
    rewrite (IH _ ns') by (done || set_solver). done.
Qed.

(** A walk ends when a rank falls along parent links, and it meets no node
    twice. *)
Lemma ancestors_rank h (rk : ptr → nat) :
  (∀ p q, parent (h p) = Some q → (rk q < rk p)%nat) →
  ∀ fuel start,
    (∀ p, start = Some p → (rk p < fuel)%nat) →
    ∃ ns, ancestors fuel h start = Some ns ∧ NoDup ns ∧
          ∀ x p, x ∈ ns → start = Some p → (rk x ≤ rk p)%nat.
Proof.
  intros Hrk. induction fuel as [|fuel IH]; intros start Hfuel.
  - destruct start as [n|]; [specialize (Hfuel n eq_refl); lia|].
    exists []. split; [done|]. split; [constructor|set_solver].
  - destruct start as [n|]; simpl.
    2:{ exists []. split; [done|]. split; [constructor|set_solver]. }
    destruct (IH (parent (h n))) as (ns' & E & Hnd & Hle).
    { intros p Hp. specialize (Hrk n p Hp). specialize (Hfuel n eq_refl). lia. }
    rewrite E. simpl. exists (n :: ns'). split; [done|].
    assert (∀ x, x ∈ ns' → (rk x < rk n)%nat) as Hlt.
    { intros x Hx. destruct (parent (h n)) as [p|] eqn:Ep.
      - specialize (Hle x p Hx eq_refl). specialize (Hrk n p Ep). lia.
      - destruct fuel; simpl in E; injection E as <-; set_solver. }
    split.
    + apply NoDup_cons. split; [|done]. intros Hn. specialize (Hlt n Hn). lia.
    + intros x p Hx [= <-]. apply elem_of_cons in Hx as [->|Hx]; [lia|].
      specialize (Hlt x Hx). lia.
Qed.

(** The nodes of a walk are its start and parents of its nodes. *)
Lemma ancestors_elem fuel h start ns x :
  ancestors fuel h start = Some ns → x ∈ ns →
  start = Some x ∨ ∃ y, y ∈ ns ∧ parent (h y) = Some x.
Proof.
  revert start ns. induction fuel as [|fuel IH]; intros start ns.
  - destruct start; simpl; [done|]. intros [= <-]. set_solver.
  - destruct start as [n|]; simpl; [|intros [= <-]; set_solver].
    destruct (ancestors fuel h (parent (h n))) as [ns'|] eqn:E; [|done].
    simpl. intros [= <-] Hx. apply elem_of_cons in Hx as [->|Hx]; [by left|].
    right. destruct (IH _ _ E Hx) as [Hp|(y & Hy & Hp)].
    + exists n. split; [set_solver|done].
    + exists y. split; [set_solver|done].
Qed.

Lemma ancestors_head fuel h n ns :
  ancestors fuel h (Some n) = Some ns → ∃ ns', ns = n :: ns'.
Proof.
  destruct fuel; simpl; [done|].
  destruct (ancestors fuel h (parent (h n))) as [ns'|]; [|done].
  simpl. intros [= <-]. by eexists.
Qed.

Lemma meets_ancestors fuel h start ns n :
  ancestors fuel h start = Some ns →
  meets fuel h start n = Some (bool_decide (n ∈ ns)).
Proof.
  revert start ns. induction fuel as [|fuel IH]; intros start ns.
  - destruct start; simpl; [done|]. intros [= <-].
    by rewrite bool_decide_eq_false_2 by set_solver.
  - destruct start as [p|]; simpl.
    2:{ intros [= <-]. by rewrite bool_decide_eq_false_2 by set_solver. }
    destruct (ancestors fuel h (parent (h p))) as [ns'|] eqn:E; [|done].
    simpl. intros [= <-]. case_decide as Hp.
    + subst. by rewrite bool_decide_eq_true_2 by set_solver.
    + rewrite (IH _ _ E). f_equal. apply bool_decide_ext. set_solver.
Qed.

(** ** Promotion *)

Lemma promote_cons n ns c : promote (n :: ns) c = promote ns (moveToFront n c).
Proof. done. Qed.

Lemma promote_fields ns c :
  maxEntries (promote ns c) = maxEntries c ∧ onEvict (promote ns c) = onEvict c ∧
  keysMap (promote ns c) = keysMap c ∧ root (promote ns c) = root c ∧
  heap (promote ns c) = heap c ∧ next (promote ns c) = next c.
Proof.
  revert c. induction ns as [|n ns IH]; intros c; [done|].
  rewrite promote_cons. destruct (IH (moveToFront n c)) as (-> & -> & -> & -> & -> & ->).
  done.
Qed.

Lemma promote_elem_of ns c x : x ∈ lruList (promote ns c) ↔ x ∈ lruList c.
Proof.
  revert c. induction ns as [|n ns IH]; intros c; [done|].
  rewrite promote_cons, IH. simpl. apply elem_of_MoveToFront.
Qed.

Lemma promote_length ns c :
  NoDup (lruList c) → length (lruList (promote ns c)) = length (lruList c).
Proof.
  revert c. induction ns as [|n ns IH]; intros c Hnd; [done|].
  rewrite promote_cons, IH; simpl.
  - by apply length_MoveToFront.
  - by apply NoDup_MoveToFront.
Qed.

Lemma ordered_none h l p q :
  ordered none h l → p ∈ l → parent (h p) = Some q → q ∈ l → before l q p.
Proof. intros Ho ? ? ?. apply Ho; [done..|]. by intros []. Qed.

Lemma wf_weaken X X' c : wf X c → (∀ x, X x → X' x) → wf X' c.
Proof.
  intros [] HX. constructor; try done.
  intros p q Hp Hq Hq' HnX. apply wf_ordered0; naive_solver.
Qed.

Lemma wf_moveToFront X X' c n :
  wf X c →
  (∀ q, parent (heap c n) = Some q → q ∈ lruList c → X' q) →
  (∀ x, X x → x ≠ n → X' x) →
  wf X' (moveToFront n c).
Proof.
  intros [] Hpar HX. constructor; simpl.
  - by apply NoDup_MoveToFront.
  - intros p. rewrite elem_of_MoveToFront. auto.
  - done.
  - intros p. rewrite elem_of_MoveToFront. auto.
  - intros p q. rewrite !elem_of_MoveToFront. intros Hp Hq Hq' HnX.
    destruct (decide (p = n)) as [->|Hpn]; [naive_solver|].
    destruct (decide (q = n)) as [->|Hqn].
    + by apply before_MoveToFront_front.
    + apply before_MoveToFront; [done..|]. apply wf_ordered0; naive_solver.
  - intros k p. rewrite elem_of_MoveToFront. auto.
  - intros p. rewrite elem_of_MoveToFront. auto.
  - intros p m k ch. rewrite !elem_of_MoveToFront. eauto.
  - intros Hr. by rewrite (wf_root0 Hr).
Qed.

Lemma wf_promote fuel c start ns :
  ancestors fuel (heap c) start = Some ns →
  wf (λ x, start = Some x) c →
  wf none (promote ns c).
Proof.
  revert c start ns. induction fuel as [|fuel IH]; intros c start ns.
  - destruct start; simpl; [done|]. intros [= <-] Hwf.
    eapply wf_weaken; [done|]. by intros x [=].
  - destruct start as [n|]; simpl.
    2:{ intros [= <-] Hwf. eapply wf_weaken; [done|]. by intros x [=]. }
    destruct (ancestors fuel (heap c) (parent (heap c n))) as [ns'|] eqn:E; [|done].
    simpl. intros [= <-] Hwf. rewrite promote_cons.
    apply (IH _ (parent (heap c n))); [done|].
    eapply wf_moveToFront; [done|naive_solver|]. intros x [= ->]. done.
Qed.

(** ** Walks in a well-formed cache *)

Lemma rank_bound X c p : wf X c → (rank c p < chainFuel c)%nat.
Proof.
  intros Hwf. unfold rank, chainFuel. case_decide; [|lia].
  pose proof (length_bounded _ _ (wf_nodup _ _ Hwf) (wf_alloc _ _ Hwf)).
  assert (pos (lruList c) p < length (lruList c))%nat by by apply pos_elem_of.
  lia.
Qed.

Lemma rank_parent c p q :
  wf none c → parent (heap c p) = Some q → (rank c q < rank c p)%nat.
Proof.
  intros Hwf Hpar. unfold rank.
  destruct (decide (p ∈ lruList c)) as [Hp|Hp].
  2:{ rewrite (wf_out _ _ Hwf p Hp) in Hpar. done. }
  case_decide as Hq; [|lia].
  destruct (wf_ordered _ _ Hwf p q) as (_ & _ & ?); [done..| |lia]. by intros [].
Qed.

Lemma chain_total c start :
  wf none c →
  ∃ ns, chain c start = Some ns ∧ NoDup ns.
Proof.
  intros Hwf.
  destruct (ancestors_rank (heap c) (rank c)) with (fuel := chainFuel c) (start := start)
    as (ns & E & Hnd & _).
  - intros p q. by apply rank_parent.
  - intros p _. by eapply rank_bound.
  - by exists ns.
Qed.

Lemma chain_alloc X c start ns x :
  wf X c → chain c start = Some ns →
  (∀ p, start = Some p → (p < next c)%nat) →
  x ∈ ns → (x < next c)%nat.
Proof.
  intros Hwf E Hstart Hx.
  destruct (ancestors_elem _ _ _ _ _ E Hx) as [->|(y & _ & Hp)]; [auto|].
  by eapply wf_parent_alloc.
Qed.

Lemma wf_promote_chain c start ns :
  wf none c → chain c start = Some ns → wf none (promote ns c).
Proof.
  intros Hwf E. eapply wf_promote; [done|]. eapply wf_weaken; [done|]. by intros x [].
Qed.

Lemma Inv_promote_chain c start ns :
  Inv c → chain c start = Some ns → Inv (promote ns c).
Proof.
  intros [Hwf Hcap] E. split; [by eapply wf_promote_chain|].
  destruct (promote_fields ns c) as (-> & _). unfold lru.Len.
  rewrite promote_length; [done|]. by destruct Hwf.
Qed.

(** ** Assignments to nodes *)

Lemma removeFromParent_fields n c :
  maxEntries (removeFromParent n c) = maxEntries c ∧
  onEvict (removeFromParent n c) = onEvict c ∧
  keysMap (removeFromParent n c) = keysMap c ∧
  lruList (removeFromParent n c) = lruList c ∧
  root (removeFromParent n c) = root c ∧
  next (removeFromParent n c) = next c.
Proof. unfold removeFromParent, node. by destruct (parent (heap c n)). Qed.

Lemma removeFromParent_key n c x :
  key (heap (removeFromParent n c) x) = key (heap c x).
Proof.
  unfold removeFromParent, node. destruct (parent (heap c n)); [|done].
  simpl. unfold store. by repeat (case_decide; subst; simpl).
Qed.

Lemma removeFromParent_val n c x :
  val (heap (removeFromParent n c) x) = val (heap c x).
Proof.
  unfold removeFromParent, node. destruct (parent (heap c n)); [|done].
  simpl. unfold store. by repeat (case_decide; subst; simpl).
Qed.

Lemma removeFromParent_parent n c x :
  parent (heap (removeFromParent n c) x) =
  if decide (x = n) then None else parent (heap c x).
Proof.
  unfold removeFromParent, node. destruct (parent (heap c n)) eqn:E.
  - simpl. unfold store. by repeat (case_decide; subst; simpl).
  - case_decide; by subst.
Qed.

Lemma removeFromParent_children n c x :
  children (heap (removeFromParent n c) x) =
  if decide (parent (heap c n) = Some x)
  then delete (key (heap c n)) <$> children (heap c x)
  else children (heap c x).
Proof.
  unfold removeFromParent, node. destruct (parent (heap c n)) as [par|] eqn:E.
  - simpl. unfold store.
    repeat (case_decide; simplify_eq; simpl); try done.
  - by rewrite decide_False.
Qed.

(** ** Eviction *)

Lemma evict_fields c :
  maxEntries (evict c).1 = maxEntries c ∧ onEvict (evict c).1 = onEvict c ∧
  root (evict c).1 = root c ∧ next (evict c).1 = next c.
Proof.
  unfold evict. destruct (lru.Back (lruList c)) as [t|]; [|done]. simpl.
  by destruct (removeFromParent_fields t
    (setKeysMap (delete (key (heap c t)) (keysMap c))
       (setLruList (lru.Remove t (lruList c)) c))) as (-> & -> & _ & _ & -> & ->).
Qed.

Lemma evict_lruList c :
  lruList (evict c).1 =
  match lru.Back (lruList c) with
  | Some t => lru.Remove t (lruList c)
  | None => lruList c
  end.
Proof.
  unfold evict. destruct (lru.Back (lruList c)) as [t|]; [|done]. simpl.
  by destruct (removeFromParent_fields t
    (setKeysMap (delete (key (heap c t)) (keysMap c))
       (setLruList (lru.Remove t (lruList c)) c))) as (_ & _ & _ & -> & _).
Qed.

Lemma wf_evict c : wf none c → wf none (evict c).1.
Proof.
  intros Hwf. unfold evict.
  destruct (lru.Back (lruList c)) as [t|] eqn:Et; [|done]. simpl.
  set (c2 := setKeysMap _ _).
  destruct (removeFromParent_fields t c2) as (_ & _ & Ekm & El & Er & En).
  subst c2. simpl in *.
  assert (t ∈ lruList c) as Ht.
  { apply last_Some in Et as [l ->]. set_solver. }
  destruct Hwf. constructor; rewrite ?Ekm, ?El, ?Er, ?En; simpl.
  - by apply NoDup_Remove.
  - intros p. rewrite elem_of_Remove. naive_solver.
  - intros p q. rewrite removeFromParent_parent. case_decide; [done|]. apply wf_parent_alloc0.
  - intros p. rewrite elem_of_Remove, removeFromParent_parent.
    case_decide; [done|]. intros Hp. apply wf_out0. naive_solver.
  - intros p q. rewrite !elem_of_Remove, removeFromParent_parent.
    intros [Hp Hpt] Hpar [Hq Hqt] _. rewrite decide_False in Hpar by done.
    simpl in Hpar. apply before_Remove; [done..|]. by eapply ordered_none.
  - intros k p Hk. rewrite removeFromParent_key. simpl.
    apply lookup_delete_Some in Hk as [Hne Hk].
    destruct (wf_keys0 k p Hk) as [Hp Hkey]. rewrite elem_of_Remove.
    split; [|done]. split; [done|]. intros ->. unfold node in Hne. simpl in Hne. done.
  - intros p. rewrite elem_of_Remove, removeFromParent_children. simpl.
    intros [Hp _]. destruct (wf_maps0 p Hp) as [m Hm]. rewrite Hm.
    case_decide; by eexists.
  - intros p m k ch. rewrite removeFromParent_children, removeFromParent_key,
      removeFromParent_parent, removeFromParent_children, elem_of_Remove. simpl.
    intros Hm Hk.
    assert (∃ m0, children (heap c p) = Some m0 ∧ m0 !! k = Some ch ∧
                  (parent (heap c t) = Some p → k ≠ key (heap c t)))
      as (m0 & Hm0 & Hk0 & Hne).
    { case_decide as Hpar.
      - destruct (children (heap c p)) as [m0|]; [|done]. simpl in Hm.
        injection Hm as <-. apply lookup_delete_Some in Hk as [? ?]. eauto.
      - exists m. by repeat split. }
    destruct (wf_children0 p m0 k ch Hm0 Hk0) as (Ha & Hkey & Hin & Hout).
    split; [done|]. split; [done|]. split.
    + intros [Hch Hne']. rewrite decide_False by done. auto.
    + intros Hch. destruct (decide (ch = t)) as [->|Hne'].
      * specialize (Hin Ht). specialize (Hne Hin). done.
      * assert (ch ∉ lruList c) as Hn by tauto. rewrite (Hout Hn).
        clear. by case_decide.
  - intros Hr. rewrite (wf_root0 Hr) in Et. done.
Qed.

Lemma settle_Inv c :
  wf none c →
  (0 < maxEntries c → lru.Len (lruList c) ≤ maxEntries c + 1) →
  ∃ tr c', settle c = Done None tr c' ∧ Inv c'.
Proof.
  intros Hwf Hcap. unfold settle. case_decide as Hover.
  - destruct (evict c) as [c1 [ev b]] eqn:E. do 2 eexists. split; [done|].
    replace c1 with (evict c).1 by by rewrite E. split; [by apply wf_evict|].
    destruct (evict_fields c) as (-> & _). rewrite evict_lruList.
    destruct Hover as [Hpos Hlen]. specialize (Hcap Hpos). intros _.
    unfold lru.Back, lru.Len in *.
    destruct (last (lruList c)) as [t|] eqn:Et.
    + assert (t ∈ lruList c) as Ht.
      { apply last_Some in Et as [l ->]. set_solver. }
      pose proof (length_Remove (lruList c) t (wf_nodup _ _ Hwf) Ht). lia.
    + apply last_None in Et. rewrite Et in Hlen. simpl in Hlen. lia.
  - do 2 eexists. split; [done|]. split; [done|].
    unfold overCapacity in Hover. lia.
Qed.

(** ** The methods keep the invariant *)

Lemma Inv_NewCache (m : Z) (e : bool) : Inv (NewCache (K:=K) (V:=V) m e).
Proof.
  split; [|simpl; unfold lru.Len; simpl; lia].
  constructor; simpl; try done.
  - apply NoDup_nil_2.
  - intros p. by rewrite elem_of_nil.
  - intros p. by rewrite elem_of_nil.
Qed.

Lemma Peek_Inv k c : Inv c → ∃ r tr, Peek k c = Done r tr c.
Proof. intros _. unfold Peek. destruct (keysMap c !! k); eauto. Qed.

Lemma Get_Inv k c : Inv c → ∃ r tr c', Get k c = Done r tr c' ∧ Inv c'.
Proof.
  intros Hinv. unfold Get. destruct (keysMap c !! k) as [n|]; [|eauto].
  destruct (chain_total c (Some n)) as (ns & E & _); [apply Hinv|]. rewrite E.
  do 3 eexists. split; [done|]. by eapply Inv_promote_chain.
Qed.

Lemma AddRoot_Inv k v c :
  Inv c → ∃ r tr c', AddRoot k v c = Done r tr c' ∧ Inv c'.
Proof.
  intros Hinv. unfold AddRoot. destruct (root c) eqn:Hr; [by eauto|].
  destruct Hinv as [Hwf Hcap]. simpl. do 3 eexists. split; [done|].
  pose proof (wf_root _ _ Hwf Hr) as Hl. destruct Hwf.
  rewrite Hl in *. split; [|simpl; unfold lru.Len; simpl; lia].
  constructor; simpl; unfold lru.PushFront, store.
  - apply NoDup_singleton.
  - intros p ->%list_elem_of_singleton. lia.
  - intros p q. case_decide; [done|]. intros Hp.
    specialize (wf_parent_alloc0 p q Hp). lia.
  - intros p Hp. rewrite decide_False by set_solver. apply wf_out0. set_solver.
  - intros p q ->%list_elem_of_singleton. by rewrite decide_True.
  - intros k' p Hk. apply lookup_insert_Some in Hk as [[<- <-]|[_ Hk]].
    + rewrite decide_True by done. split; [set_solver|done].
    + apply wf_keys0 in Hk as [Hk _]. set_solver.
  - intros p ->%list_elem_of_singleton. rewrite decide_True by done. by eexists.
  - intros p m k' ch. case_decide as Hp; simpl.
    + intros [= <-]. by rewrite lookup_empty.
    + intros Hm Hk'. destruct (wf_children0 p m k' ch Hm Hk') as (Ha & Hkey & _ & Hout).
      rewrite decide_False by lia. split; [lia|]. split; [done|].
      split; [intros ->%list_elem_of_singleton; lia|]. intros _. apply Hout. set_solver.
  - done.
Qed.

Lemma cacheNodeOf_promote ns c n : cacheNodeOf (promote ns c) n = cacheNodeOf c n.
Proof.
  unfold cacheNodeOf, parentKey, node.
  by destruct (promote_fields ns c) as (_ & _ & _ & _ & -> & _).
Qed.

Lemma fillBranch_spec touch ns c :
  fillBranch touch ns c =
  (rev (map (cacheNodeOf c) ns), if touch then promote ns c else c).
Proof.
  unfold fillBranch.
  assert (∀ acc c0,
    foldl (λ '(branch, c') n,
             (cacheNodeOf c' n :: branch, if touch then moveToFront n c' else c'))
          (acc, c0) ns =
    (rev (map (cacheNodeOf c0) ns) ++ acc, if touch then promote ns c0 else c0)) as Hgen.
  { induction ns as [|n ns IH]; intros acc c0; simpl; [by destruct touch|].
    rewrite IH. rewrite <- app_assoc. simpl. by destruct touch. }
  by rewrite Hgen, app_nil_r.
Qed.

Lemma PeekBranch_Inv k c : Inv c → ∃ r tr, PeekBranch k c = Done r tr c.
Proof.
  intros Hinv. unfold PeekBranch. destruct (keysMap c !! k) as [n|]; [|eauto].
  destruct (chain_total c (Some n)) as (ns & -> & _); [apply Hinv|].
  rewrite fillBranch_spec. eauto.
Qed.

Lemma GetBranch_Inv k c : Inv c → ∃ r tr c', GetBranch k c = Done r tr c' ∧ Inv c'.
Proof.
  intros Hinv. unfold GetBranch. destruct (keysMap c !! k) as [n|]; [|eauto].
  destruct (chain_total c (Some n)) as (ns & E & _); [apply Hinv|]. rewrite E.
  rewrite fillBranch_spec. do 3 eexists. split; [done|]. by eapply Inv_promote_chain.
Qed.

Lemma TraverseToRoot_Inv k c :
  Inv c → ∃ r tr c', TraverseToRoot k c = Done r tr c' ∧ Inv c'.
Proof.
  intros Hinv. unfold TraverseToRoot. destruct (keysMap c !! k) as [n|]; [|eauto].
  destruct (chain_total c (Some n)) as (ns & E & _); [apply Hinv|]. rewrite E.
  do 3 eexists. split; [done|]. by eapply Inv_promote_chain.
Qed.

Lemma linkNew_spec k v par c :
  wf none c → par ∈ lruList c →
  ∃ c4, linkNew k v par c = Some (next c, c4) ∧
        linked k v par c c4 ∧ wf (λ x, x = par) c4.
Proof.
  intros Hwf Hpar. pose proof (wf_alloc _ _ Hwf par Hpar) as Hlt.
  destruct (wf_maps _ _ Hwf par Hpar) as [m Hm].
  unfold linkNew, insertChild, node. simpl. unfold store at 1.
  rewrite decide_False by lia. rewrite Hm. simpl. eexists. split; [done|].
  assert (∀ x, children (store par
            (setChildren (Some (<[k:=next c]> m))
               (store (next c) (newTreeNode k v (Some par)) (heap c) par))
            (store (next c) (newTreeNode k v (Some par)) (heap c)) x) =
          if decide (x = par) then Some (<[k:=next c]> m)
          else if decide (x = next c) then Some ∅ else children (heap c x)) as Hch.
  { intros x. unfold store. by repeat (case_decide; simplify_eq; simpl). }
  split.
  { constructor; simpl; try done; intros x; unfold store;
      repeat (case_decide; simplify_eq; simpl); try done; lia. }
  destruct Hwf. constructor; simpl; unfold lru.PushFront.
  - apply NoDup_cons. split; [|done]. intros Hn%wf_alloc0. lia.
  - intros p [->|Hp%wf_alloc0]%elem_of_cons; lia.
  - intros p q. unfold store.
    repeat (case_decide; simplify_eq; simpl); intros Hq;
      first [apply wf_parent_alloc0 in Hq; lia | simplify_eq; lia].
  - intros p [Hne Hp]%not_elem_of_cons. unfold store.
    repeat (case_decide; simplify_eq; simpl); auto.
  - intros p q Hp Hpq Hq Hne.
    assert (p ∈ lruList c ∧ parent (heap c p) = Some q) as [Hp' Hpq'].
    { revert Hpq. unfold store. apply elem_of_cons in Hp as [->|Hp];
        repeat (case_decide; simplify_eq; simpl); try done; naive_solver. }
    pose proof (wf_parent_alloc0 p q Hpq'). pose proof (wf_alloc0 p Hp').
    apply elem_of_cons in Hq as [->|Hq]; [lia|].
    apply before_cons; [lia..|]. by eapply ordered_none.
  - intros k' p Hk. apply lookup_insert_Some in Hk as [[<- <-]|[Hne Hk]].
    + split; [set_solver|]. unfold store. repeat (case_decide; simplify_eq; simpl); done || lia.
    + destruct (wf_keys0 k' p Hk) as [Hp Hkey]. pose proof (wf_alloc0 p Hp).
      split; [set_solver|]. unfold store. repeat (case_decide; simplify_eq; simpl); done || lia.
  - intros p Hp. rewrite Hch. repeat case_decide; try by eexists.
    apply wf_maps0. set_solver.
  - intros p m' k' ch. rewrite !Hch. intros Hm' Hk'.
    assert (ch = next c ∧ k' = k ∧ p = par ∨
            ∃ m0, children (heap c p) = Some m0 ∧ m0 !! k' = Some ch) as [(-> & -> & ->)|(m0 & Hm0 & Hk0)].
    { repeat case_decide; simplify_eq.
      - apply lookup_insert_Some in Hk' as [[<- <-]|[_ Hk']]; [by left|]. right. eauto.
      - right. eauto. }
    + split; [lia|]. split.
      { unfold store. repeat (case_decide; simplify_eq; simpl); done || lia. }
      split; [|set_solver]. intros _. unfold store.
      repeat (case_decide; simplify_eq; simpl); done || lia.
    + destruct (wf_children0 p m0 k' ch Hm0 Hk0) as (Ha & Hkey & Hin & Hout).
      split; [lia|]. split.
      { unfold store. repeat (case_decide; simplify_eq; simpl); done || lia. }
      split.
      * intros [->|Hc]%elem_of_cons; [lia|]. specialize (Hin Hc). unfold store.
        repeat (case_decide; simplify_eq; simpl); done || lia.
      * intros [Hne Hc]%not_elem_of_cons. specialize (Hout Hc).
        repeat case_decide; simplify_eq; done.
  - intros Hr. rewrite (wf_root0 Hr) in Hpar. set_solver.
Qed.

Lemma linked_chain k v par c c4 start ns :
  wf none c → linked k v par c c4 →
  (∀ p, start = Some p → (p < next c)%nat) →
  chain c start = Some ns → chain c4 start = Some ns.
Proof.
  intros Hwf Hl Hstart E. unfold chain, chainFuel. rewrite (linked_next _ _ _ _ _ Hl).
  eapply ancestors_ext; [eapply ancestors_mono; [exact E|unfold chainFuel; lia]|].
  intros p Hp. rewrite (linked_parent _ _ _ _ _ Hl).
  pose proof (chain_alloc _ _ _ _ _ Hwf E Hstart Hp). rewrite decide_False; [done|lia].
Qed.

(** A new node under [par]: the insertion comes down to [settle] on a
    cache in which the chain of [par] was promoted. *)
Lemma addNew_spec k v par c :
  Inv c → par ∈ lruList c →
  ∃ ns c4, chain c (Some par) = Some ns ∧ NoDup ns ∧ linked k v par c c4 ∧
           addNew k v par c = settle (promote ns c4) ∧
           wf none (promote ns c4) ∧
           (0 < maxEntries c →
            lru.Len (lruList (promote ns c4)) ≤ maxEntries c + 1).
Proof.
  intros [Hwf Hcap] Hpar.
  destruct (chain_total c (Some par) Hwf) as (ns & E & Hnd).
  destruct (linkNew_spec k v par c Hwf Hpar) as (c4 & Hlink & Hl & Hwf4).
  exists ns, c4. split; [done|]. split; [done|]. split; [done|].
  assert (chain c4 (Some par) = Some ns) as E4.
  { eapply linked_chain; [done..| |done]. intros p [= <-]. by eapply wf_alloc. }
  unfold addNew, finishAdd, promoteAncestors, node. rewrite Hlink.
  rewrite (linked_parent _ _ _ _ _ Hl), decide_True by done. rewrite E4. simpl.
  split; [done|]. split.
  - eapply wf_promote; [exact E4|]. eapply wf_weaken; [done|]. by intros x ->.
  - intros Hpos. unfold lru.Len in *. rewrite promote_length by by destruct Hwf4.
    rewrite (linked_lruList _ _ _ _ _ Hl). simpl. specialize (Hcap Hpos). lia.
Qed.

Lemma addNew_Inv k v par c :
  Inv c → par ∈ lruList c →
  ∃ tr c', addNew k v par c = Done None tr c' ∧ Inv c'.
Proof.
  intros Hinv Hpar.
  destruct (addNew_spec k v par c Hinv Hpar) as (ns & c4 & _ & _ & Hl & -> & Hwf & Hcap).
  apply settle_Inv; [done|]. destruct (promote_fields ns c4) as (-> & _).
  by rewrite (linked_maxEntries _ _ _ _ _ Hl).
Qed.

Lemma Add_Inv k v pk c :
  Inv c → ∃ r tr c', Add k v pk c = Done r tr c' ∧ Inv c'.
Proof.
  intros Hinv. unfold Add. destruct (keysMap c !! pk) as [par|] eqn:Epar; [|by eauto].
  destruct (keysMap c !! k); [by eauto|].
  destruct (addNew_Inv k v par c Hinv) as (tr & c' & -> & Hinv'); [|by eauto].
  by eapply wf_keys; [apply Hinv|].
Qed.

(** A change of the heap that keeps keys, parents and children keeps the
    cache well-formed. *)
Lemma wf_setHeap X c h' :
  wf X c →
  (∀ x, key (h' x) = key (heap c x) ∧ parent (h' x) = parent (heap c x) ∧
        children (h' x) = children (heap c x)) →
  wf X (setHeap h' c).
Proof.
  intros [] Hh.
  assert (∀ x, key (h' x) = key (heap c x)) as Hk by (intros x; apply Hh).
  assert (∀ x, parent (h' x) = parent (heap c x)) as Hp by (intros x; apply Hh).
  assert (∀ x, children (h' x) = children (heap c x)) as Hc by (intros x; apply Hh).
  constructor; simpl; try done.
  - intros p q. rewrite Hp. eauto.
  - intros p. rewrite Hp. eauto.
  - intros p q. rewrite Hp. eauto.
  - intros k p. rewrite Hk. eauto.
  - intros p. rewrite Hc. eauto.
  - intros p m k ch. rewrite Hk, Hp, !Hc. eauto.
Qed.

Lemma wf_setVal X c n v : wf X c → wf X (update n (setVal v) c).
Proof.
  intros Hwf. apply wf_setHeap; [done|]. intros x. unfold store.
  by case_decide; subst.
Qed.

Lemma reparent_fields k n par m c :
  maxEntries (reparent k n par m c) = maxEntries c ∧
  onEvict (reparent k n par m c) = onEvict c ∧
  keysMap (reparent k n par m c) = keysMap c ∧
  lruList (reparent k n par m c) = lruList c ∧
  root (reparent k n par m c) = root c ∧
  next (reparent k n par m c) = next c.
Proof. unfold reparent. simpl. apply removeFromParent_fields. Qed.

Lemma reparent_key k n par m c x :
  key (heap (reparent k n par m c) x) = key (heap c x).
Proof.
  unfold reparent. simpl. unfold store.
  repeat (case_decide; simplify_eq; simpl); by rewrite removeFromParent_key.
Qed.

Lemma reparent_parent k n par m c x :
  par ≠ n →
  parent (heap (reparent k n par m c) x) =
  if decide (x = n) then Some par else parent (heap c x).
Proof.
  intros Hne. unfold reparent. simpl. unfold store.
  repeat (case_decide; simplify_eq; simpl); try done;
    rewrite removeFromParent_parent; by rewrite decide_False.
Qed.

Lemma reparent_children k n par m c x :
  par ≠ n →
  children (heap (reparent k n par m c) x) =
  if decide (x = par) then Some (<[k := n]> m)
  else if decide (parent (heap c n) = Some x)
       then delete (key (heap c n)) <$> children (heap c x)
       else children (heap c x).
Proof.
  intros Hne. unfold reparent. simpl. unfold store.
  repeat (case_decide; simplify_eq; simpl); try done;
    rewrite removeFromParent_children; by repeat (case_decide; simplify_eq).
Qed.

Lemma wf_reparent k n par m c :
  wf none c → keysMap c !! k = Some n → par ∈ lruList c → par ≠ n →
  parent (heap c n) ≠ Some par → children (heap c par) = Some m →
  wf (λ x, x = par) (reparent k n par m c).
Proof.
  intros Hwf Hk Hpar Hne Hnp Hm.
  destruct (wf_keys _ _ Hwf k n Hk) as [Hn Hkey].
  destruct (reparent_fields k n par m c) as (_ & _ & Ekm & El & Er & En).
  destruct Hwf. constructor; rewrite ?Ekm, ?El, ?Er, ?En; try done.
  - intros p q. rewrite reparent_parent by done. case_decide.
    + intros [= <-]. auto.
    + apply wf_parent_alloc0.
  - intros p Hp. rewrite reparent_parent by done.
    rewrite decide_False by (intros ->; done). auto.
  - intros p q Hp Hpq Hq Hqne. rewrite reparent_parent in Hpq by done.
    case_decide; [congruence|]. by eapply ordered_none.
  - intros k' p. rewrite reparent_key. auto.
  - intros p Hp. rewrite reparent_children by done.
    destruct (wf_maps0 p Hp) as [m0 ->]. repeat case_decide; by eexists.
  - intros p m' k' ch. rewrite reparent_key, reparent_parent, !reparent_children by done.
    intros Hm' Hk'.
    assert (ch = n ∧ k' = k ∧ p = par ∨
            ∃ m0, children (heap c p) = Some m0 ∧ m0 !! k' = Some ch ∧
                  (k' = k → parent (heap c n) ≠ Some p))
      as [(-> & -> & ->)|(m0 & Hm0 & Hk0 & Hkp)].
    { repeat case_decide; simplify_eq.
      - apply lookup_insert_Some in Hk' as [[<- <-]|[? Hk']]; [by left|]. right.
        exists m. by repeat split.
      - destruct (children (heap c p)) as [m0|]; [|done]. simpl in Hm'.
        injection Hm' as <-. apply lookup_delete_Some in Hk' as [? Hk'].
        right. exists m0. by repeat split.
      - right. exists m'. by repeat split. }
    + rewrite decide_True by done. split; [auto|]. split; [done|]. split; [done|].
      by rewrite decide_False.
    + destruct (wf_children0 p m0 k' ch Hm0 Hk0) as (Ha & Hkey' & Hin & Hout).
      split; [done|]. split; [done|]. split.
      * intros Hc. specialize (Hin Hc). rewrite decide_False; [done|].
        intros ->. apply Hkp; congruence.
      * intros Hc. rewrite (Hout Hc). rewrite decide_False by (intros ->; done).
        clear. by case_decide.
Qed.

Lemma AddOrUpdate_Inv k v pk c :
  Inv c → ∃ r tr c', AddOrUpdate k v pk c = Done r tr c' ∧ Inv c'.
Proof.
  intros Hinv. pose proof Hinv as [Hwf Hcap]. unfold AddOrUpdate.
  destruct (keysMap c !! pk) as [par|] eqn:Epar; [|by eauto].
  destruct (wf_keys _ _ Hwf pk par Epar) as [Hpar _].
  destruct (keysMap c !! k) as [n|] eqn:En.
  2:{ destruct (addNew_Inv k v par c Hinv Hpar) as (tr & c' & -> & Hinv'). by eauto. }
  destruct (wf_keys _ _ Hwf k n En) as [Hn Hkey].
  destruct (chain_total c (Some par) Hwf) as (ns & E & Hnd).
  (* the cache before the promotion of the ancestors, and what holds of it *)
  assert (∀ c3,
    wf (λ x, x = par) c3 → lruList c3 = lruList c → maxEntries c3 = maxEntries c →
    next c3 = next c → parent (heap c3 n) = Some par →
    (∀ x, x ∈ ns → parent (heap c3 x) = parent (heap c x)) →
    ∃ tr c', finishAdd n (moveToFront n (update n (setVal v) c3)) = Done None tr c'
             ∧ Inv c') as Hfinish.
  { intros c3 Hwf3 El Em Enx Hp Hns.
    set (c5 := moveToFront n (update n (setVal v) c3)).
    assert (∀ x, parent (heap c5 x) = parent (heap c3 x)) as Hp5.
    { intros x. simpl. unfold store. by case_decide; subst. }
    assert (ancestors (chainFuel c) (heap c5) (Some par) = Some ns) as E5.
    { eapply ancestors_ext; [exact E|]. intros p Hp'. rewrite Hp5. auto. }
    assert (promoteAncestors n c5 = Some (promote ns c5)) as Hprom.
    { unfold promoteAncestors, node, chain. rewrite Hp5, Hp.
      replace (chainFuel c5) with (chainFuel c) by (unfold chainFuel; simpl; by rewrite Enx).
      by rewrite E5. }
    unfold finishAdd. rewrite Hprom. apply settle_Inv.
    - eapply wf_promote; [exact E5|].
      eapply wf_moveToFront; [apply wf_setVal; exact Hwf3| |].
      + simpl. unfold store. rewrite decide_True by done. simpl. naive_solver.
      + by intros x ->.
    - destruct (promote_fields ns c5) as (-> & _).
      simpl. rewrite Em. intros Hpos. specialize (Hcap Hpos). unfold lru.Len in *.
      rewrite promote_length; simpl.
      + rewrite length_MoveToFront; rewrite El; [lia|by destruct Hwf].
      + apply NoDup_MoveToFront. rewrite El. by destruct Hwf. }
  case_decide as Hsame.
  - destruct (Hfinish c) as (tr & c' & -> & Hinv'); try done; [|by eauto].
    eapply wf_weaken; [done|]. by intros x [].
  - rewrite (meets_ancestors _ _ _ _ n E).
    case_bool_decide as Hmeet; [by eauto|].
    assert (par ≠ n) as Hne.
    { intros ->. apply Hmeet. apply ancestors_head in E as [ns' ->]. set_solver. }
    destruct (wf_maps _ _ Hwf par Hpar) as [m Hm].
    unfold insertChild, node. simpl. unfold store at 1.
    rewrite decide_False by done. rewrite removeFromParent_children.
    rewrite decide_False by done. rewrite Hm.
    fold (reparent k n par m c).
    destruct (reparent_fields k n par m c) as (Em & _ & _ & El & _ & Enx).
    destruct (Hfinish (reparent k n par m c)) as (tr & c' & -> & Hinv'); try done.
    + by apply wf_reparent.
    + rewrite reparent_parent by done. by rewrite decide_True.
    + intros x Hx. rewrite reparent_parent by done. rewrite decide_False; [done|].
      by intros ->.
    + by eauto.
Qed.

(** ** Loops over the entries of a map *)

Lemma forEach_inv {A S : Type} (body : A → S → option S) (P : S → Prop)
    (xs : list A) (s : S) :
  P s →
  (∀ (a : A) (s0 : S), a ∈ xs → P s0 → ∃ s', body a s0 = Some s' ∧ P s') →
  ∃ s', forEach body xs s = Some s' ∧ P s'.
Proof.
  revert s. induction xs as [|a xs IH]; intros s Hs Hbody; simpl; [by eauto|].
  destruct (Hbody a s) as (s1 & -> & Hs1); [set_solver|done|].
  apply IH; [done|]. intros b s0 Hb. apply Hbody. set_solver.
Qed.

Lemma entries_elem (ro : rangeOrder (K:=K)) (n : treeNode (K:=K) (V:=V)) k ch :
  (k, ch) ∈ entries ro (childrenOf n) ↔
  ∃ m, children n = Some m ∧ m !! k = Some ch.
Proof.
  rewrite (entries_perm ro), elem_of_map_to_list. unfold childrenOf.
  destruct (children n) as [m|]; simpl.
  - split; [by eauto|]. by intros (? & [= <-] & ?).
  - rewrite lookup_empty. split; [done|]. by intros (? & ? & ?).
Qed.

(** ** TraverseSubtree *)

Lemma MoveToFront_perm (l : list ptr) n : NoDup l → lru.MoveToFront n l ≡ₚ l.
Proof.
  intros Hnd. apply NoDup_Permutation; [by apply NoDup_MoveToFront|done|].
  intros x. apply elem_of_MoveToFront.
Qed.

Lemma reordered_moveToFront c0 c n :
  NoDup (lruList c) → reordered c0 c → reordered c0 (moveToFront n c).
Proof.
  intros Hnd (? & ? & ? & ? & ? & ? & Hp). repeat split; try done.
  simpl. by rewrite MoveToFront_perm.
Qed.

Lemma reordered_promote c0 c ns :
  NoDup (lruList c) → reordered c0 c → reordered c0 (promote ns c).
Proof.
  revert c. induction ns as [|n ns IH]; intros c Hnd Hr; [done|].
  rewrite promote_cons. apply IH; [by apply NoDup_MoveToFront|].
  by apply reordered_moveToFront.
Qed.

Lemma traverse_spec ro md c0 :
  wf none c0 →
  ∀ fuel n d tr c X,
    reordered c0 c →
    wf (λ x, X x ∨ x = n) c →
    (∀ q, parent (heap c0 n) = Some q → X q) →
    (n ∈ lruList c0 ∧ (fromBack (lruList c0) n < fuel)%nat ∨
     children (heap c0 n) = None ∧ (0 < fuel)%nat) →
    ∃ tr' c', traverse ro md fuel n d (tr, c) = Some (tr', c') ∧
              reordered c0 c' ∧ wf X c' ∧
              (n ∈ lruList c0 → ∃ rest, lruList c' = n :: rest) ∧
              ∃ vs, tr' = tr ++ visitOf c0 n :: vs.
Proof.
  intros Hwf0. induction fuel as [|fuel IH]; intros n d tr c X Hr Hwf HX Hn; [lia|].
  assert (heap c = heap c0) as Hh by apply Hr.
  assert (visitOf c n = visitOf c0 n) as Hv.
  { unfold visitOf, parentKey, node. by rewrite Hh. }
  assert (∀ s2 : list event * Cache,
            (∃ vs, s2.1 = tr ++ visitOf c0 n :: vs) ∧ reordered c0 s2.2 ∧
            wf (λ x, X x ∨ x = n) s2.2 →
            ∃ tr' c', Some (s2.1, moveToFront n s2.2) = Some (tr', c') ∧
              reordered c0 c' ∧ wf X c' ∧
              (n ∈ lruList c0 → ∃ rest, lruList c' = n :: rest) ∧
              ∃ vs, tr' = tr ++ visitOf c0 n :: vs) as Hend.
  { intros [tr2 c2] (Hvs & Hr2 & Hwf2). simpl in *. do 2 eexists. split; [done|].
    split; [apply reordered_moveToFront; [by destruct Hwf2|done]|]. split; [|split; [|done]].
    - eapply wf_moveToFront; [done| |naive_solver].
      intros q Hq _. apply HX. destruct Hr2 as (_ & _ & _ & _ & <- & _). done.
    - intros Hin. simpl. unfold lru.MoveToFront. rewrite decide_True; [by eexists|].
      destruct Hr2 as (_ & _ & _ & _ & _ & _ & Hp). by rewrite Hp. }
  simpl. rewrite Hv. case_decide as Hd.
  - simpl. apply (Hend (tr ++ [visitOf c0 n], c)). simpl. split; [by exists []|]. done.
  - unfold node. simpl. rewrite Hh.
    destruct (forEach_inv
      (λ child : K * ptr, traverse ro md fuel child.2 (d + 1))
      (λ s2, (∃ vs, s2.1 = tr ++ visitOf c0 n :: vs) ∧ reordered c0 s2.2 ∧
             wf (λ x, X x ∨ x = n) s2.2)
      (entries ro (childrenOf (heap c0 n))) (tr ++ [visitOf c0 n], c))
      as (s2 & -> & Hs2).
    + simpl. split; [by exists []|]. done.
    + intros [k ch] [tr1 c1] Hkid ([vs Hvs] & Hr1 & Hwf1). simpl in *. subst tr1.
      apply entries_elem in Hkid as (m & Hm & Hk).
      destruct Hn as [[Hn Hfuel]|[Hnone _]]; [|congruence].
      destruct (wf_children _ _ Hwf0 n m k ch Hm Hk) as (_ & _ & Hin & Hout).
      destruct (IH ch (d + 1) (tr ++ visitOf c0 n :: vs) c1 (λ x, X x ∨ x = n))
        as (tr' & c' & -> & Hr' & Hwf' & _ & vs' & ->); [done| | | |].
      * eapply wf_weaken; [done|]. tauto.
      * intros q Hq. destruct (decide (ch ∈ lruList c0)) as [Hc|Hc].
        -- rewrite (Hin Hc) in Hq. injection Hq as <-. by right.
        -- by rewrite (wf_out _ _ Hwf0 ch Hc) in Hq.
      * unfold fromBack in *. apply pos_elem_of in Hn as Hpn.
        destruct (decide (ch ∈ lruList c0)) as [Hc|Hc].
        -- left. split; [done|].
           destruct (ordered_none _ _ _ _ (wf_ordered _ _ Hwf0) Hc (Hin Hc) Hn)
             as (_ & Hpc%pos_elem_of & Hlt). lia.
        -- right. split; [auto|lia].
      * eexists. split; [done|]. split; [|done].
        exists (vs ++ visitOf c0 ch :: vs'). simpl. by rewrite <- app_assoc.
    + simpl. by apply (Hend s2).
Qed.

Lemma TraverseSubtree_Inv ro k md c :
  Inv c → ∃ r tr c', TraverseSubtree ro k md c = Done r tr c' ∧ Inv c'.
Proof.
  intros Hinv. pose proof Hinv as [Hwf Hcap]. unfold TraverseSubtree.
  destruct (keysMap c !! k) as [n|] eqn:En; [|by eauto].
  destruct (wf_keys _ _ Hwf k n En) as [Hn _].
  destruct (traverse_spec ro md c Hwf (chainFuel c) n 0 [] c
              (λ q, parent (heap c n) = Some q))
    as (tr & c1 & -> & Hr & Hwf1 & _ & _).
  - by repeat split.
  - eapply wf_weaken; [done|]. by intros x [].
  - done.
  - left. split; [done|]. unfold fromBack, chainFuel.
    pose proof (length_bounded _ _ (wf_nodup _ _ Hwf) (wf_alloc _ _ Hwf)).
    pose proof (pos_le (lruList c) n). lia.
  - destruct Hr as (Em & Ee & Ekm & Er & Eh & Enx & Ep).
    destruct (chain_total c (parent (heap c n)) Hwf) as (ns & E & _).
    unfold node, chain, chainFuel. rewrite Eh, Enx. unfold chain, chainFuel in E.
    rewrite E. do 3 eexists. split; [done|]. split.
    + eapply wf_promote; [rewrite Eh; exact E|]. eapply wf_weaken; [done|].
      intros x Hx. done.
    + destruct (promote_fields ns c1) as (-> & _). rewrite Em. unfold lru.Len in *.
      rewrite promote_length by by destruct Hwf1. by rewrite Ep.
Qed.

(** ** Remove *)

Lemma wf_ext X c c' :
  wf X c →
  keysMap c' = keysMap c → lruList c' = lruList c → root c' = root c →
  next c' = next c →
  (∀ x, key (heap c' x) = key (heap c x)) →
  (∀ x, parent (heap c' x) = parent (heap c x)) →
  (∀ x, children (heap c' x) = children (heap c x)) →
  wf X c'.
Proof.
  intros [] Ekm El Er En Hk Hp Hc.
  constructor; rewrite ?Ekm, ?El, ?Er, ?En; try done.
  - intros p q. rewrite Hp. eauto.
  - intros p. rewrite Hp. eauto.
  - intros p q. rewrite Hp. eauto.
  - intros k p. rewrite Hk. eauto.
  - intros p. rewrite Hc. eauto.
  - intros p m k ch. rewrite Hk, Hp, !Hc. eauto.
Qed.

(** The node [n] leaves the cache: it loses its place in the list, its key,
    its parent and its children. *)
Lemma wf_drop c c' n :
  wf none c →
  keysMap c' = delete (key (heap c n)) (keysMap c) →
  lruList c' = lru.Remove n (lruList c) → root c' = root c → next c' = next c →
  (∀ x, key (heap c' x) = key (heap c x)) →
  (∀ x, parent (heap c' x) = if decide (x = n) then None else parent (heap c x)) →
  (∀ x, children (heap c' x) = if decide (x = n) then None else children (heap c x)) →
  wf none c'.
Proof.
  intros Hwf Ekm El Er En Hk Hp Hc.
  destruct Hwf. constructor; rewrite ?Ekm, ?El, ?Er, ?En.
  - by apply NoDup_Remove.
  - intros p [Hin _]%elem_of_Remove. auto.
  - intros p q. rewrite Hp. case_decide; [done|]. eauto.
  - intros p. rewrite elem_of_Remove, Hp. case_decide; [done|].
    intros Hnot. apply wf_out0. tauto.
  - intros p q [Hin Hne]%elem_of_Remove Hpq [Hq Hqne]%elem_of_Remove _.
    rewrite Hp in Hpq. rewrite decide_False in Hpq by done.
    apply before_Remove; [done..|]. by eapply ordered_none.
  - intros k p [Hne Hkp]%lookup_delete_Some. rewrite Hk, elem_of_Remove.
    destruct (wf_keys0 k p Hkp) as [Hin Hkey]. split; [|done].
    split; [done|]. intros ->. done.
  - intros p [Hin Hne]%elem_of_Remove. rewrite Hc, decide_False by done. auto.
  - intros p m k ch. rewrite Hk, Hp, !Hc, elem_of_Remove.
    case_decide; [done|]. intros Hm Hkc.
    destruct (wf_children0 p m k ch Hm Hkc) as (Ha & Hkey & Hin & Hout).
    split; [done|]. split; [done|]. split.
    + intros [Hch Hne]. rewrite decide_False by done. auto.
    + intros Hnot. case_decide; [done|]. apply Hout. tauto.
  - intros Hr. by rewrite (wf_root0 Hr).
Qed.

Lemma wf_hide_nil c : wf none c ↔ wf none (hide [] c).
Proof.
  split; intros Hwf; eapply wf_ext; try exact Hwf; try done; intros x; simpl;
    by rewrite decide_False by set_solver.
Qed.

Lemma removeRecursively_spec ro c0 :
  wf none c0 →
  ∀ fuel n S cnt c,
    wf none (hide S c) →
    childrenFrom c0 c →
    (n ∈ lruList c0 ∧ (fromBack (lruList c0) n < fuel)%nat ∨
     children (heap c0 n) = None ∧ (0 < fuel)%nat) →
    ∃ cnt' c', removeRecursively ro fuel n (cnt, c) = Some (cnt', c') ∧
               wf none (hide S c') ∧ childrenFrom c0 c' ∧
               (∀ x, x ∈ lruList c' → x ∈ lruList c) ∧ (n ∉ lruList c') ∧
               maxEntries c' = maxEntries c ∧ onEvict c' = onEvict c ∧
               root c' = root c ∧ next c' = next c.
Proof.
  intros Hwf0. induction fuel as [|fuel IH]; intros n S cnt c Hwf Hfrom Hn; [lia|].
  simpl. unfold node.
  set (c3 := setLruList (lru.Remove n (lruList c)) _).
  replace (store n (setParent None (heap c n)) (heap c) n)
    with (setParent None (heap c n)) by (unfold store; by rewrite decide_True).
  assert (wf none (hide (n :: S) c3)) as Hwf3.
  { eapply (wf_drop (hide S c) _ n); try done; simpl.
    - by case_decide.
    - intros x. unfold store. by repeat (case_decide; simplify_eq; simpl).
    - intros x. unfold store.
      repeat (case_decide; simplify_eq; simpl); try done; set_solver.
    - intros x. unfold store.
      repeat (case_decide; simplify_eq; simpl); try done; set_solver. }
  destruct (forEach_inv
    (λ child : K * ptr, removeRecursively ro fuel child.2)
    (λ s : Z * Cache,
       wf none (hide (n :: S) s.2) ∧ childrenFrom c0 s.2 ∧
       (∀ x, x ∈ lruList s.2 → x ∈ lruList c3) ∧
       maxEntries s.2 = maxEntries c ∧ onEvict s.2 = onEvict c ∧
       root s.2 = root c ∧ next s.2 = next c)
    (entries ro (childrenOf (setParent None (heap c n)))) (cnt + 1, c3))
    as ([cnt2 c2] & -> & Hwf2 & Hfrom2 & Hsub2 & Em & Ee & Er & Enx).
  - simpl. split_and!; try done.
    intros x. simpl. unfold store. case_decide; subst; simpl; apply Hfrom.
  - intros [k ch] [cnt1 c1] Hkid (Hwf1 & Hfrom1 & Hsub1 & Em & Ee & Er & Enx).
    simpl in *. apply entries_elem in Hkid as (m & Hm & Hk). simpl in Hm.
    assert (children (heap c0 n) = Some m) as Hm0.
    { destruct (Hfrom n) as [Hx|Hx]; congruence. }
    destruct Hn as [[Hn Hfuel]|[Hnone _]]; [|congruence].
    destruct (wf_children _ _ Hwf0 n m k ch Hm0 Hk) as (_ & _ & Hin & Hout).
    destruct (IH ch (n :: S) cnt1 c1 Hwf1 Hfrom1)
      as (cnt' & c' & -> & Hwf' & Hfrom' & Hsub' & _ & Em' & Ee' & Er' & Enx').
    + unfold fromBack in *. apply pos_elem_of in Hn as Hpn.
      destruct (decide (ch ∈ lruList c0)) as [Hc|Hc].
      * left. split; [done|].
        destruct (ordered_none _ _ _ _ (wf_ordered _ _ Hwf0) Hc (Hin Hc) Hn)
          as (_ & Hpc%pos_elem_of & Hlt). lia.
      * right. split; [auto|lia].
    + eexists. split; [done|]. simpl. split_and!; try congruence; [done..|].
      intros x Hx. by apply Hsub1, Hsub'.
  - simpl in *. do 2 eexists. split; [done|]. simpl.
    assert (n ∉ lruList c2) as Hnot.
    { intros Hx%Hsub2. simpl in Hx. apply elem_of_Remove in Hx. tauto. }
    split_and!; try done.
    + eapply wf_ext; [exact Hwf2|done..| | |]; intros x; simpl; unfold store;
        repeat (case_decide; simplify_eq; simpl); try done; set_solver.
    + intros x. simpl. unfold store. case_decide; subst; simpl; [by left|apply Hfrom2].
    + intros x Hx%Hsub2. simpl in Hx. apply elem_of_Remove in Hx. tauto.
Qed.

Lemma Remove_Inv ro k c :
  Inv c → ∃ r tr c', Remove ro k c = Done r tr c' ∧ Inv c'.
Proof.
  intros Hinv. pose proof Hinv as [Hwf Hcap]. unfold Remove.
  destruct (keysMap c !! k) as [n|] eqn:En; [|by eauto].
  destruct (wf_keys _ _ Hwf k n En) as [Hn _].
  destruct (removeRecursively_spec ro c Hwf (chainFuel c) n [] 0 c)
    as (cnt & c1 & -> & Hwf1 & _ & Hsub & Hnot & Em & _ & _ & _).
  - by apply (proj1 (wf_hide_nil c)).
  - intros x. by right.
  - left. split; [done|]. unfold fromBack, chainFuel.
    pose proof (length_bounded _ _ (wf_nodup _ _ Hwf) (wf_alloc _ _ Hwf)).
    pose proof (pos_le (lruList c) n). lia.
  - apply (proj2 (wf_hide_nil c1)) in Hwf1.
    unfold removeFromParent, node. rewrite (wf_out _ _ Hwf1 n Hnot).
    do 3 eexists. split; [done|]. split; [done|]. rewrite Em. intros Hpos.
    specialize (Hcap Hpos). unfold lru.Len in *.
    assert (length (lruList c1) ≤ length (lruList c))%nat; [|lia].
    apply submseteq_length, NoDup_submseteq; [by destruct Hwf1|done].
Qed.

(** Every call on a cache that satisfies the invariant returns, and leaves
    a cache that satisfies it. *)
Lemma perform_Inv (o : call) c : Inv c → ∃ c', perform o c = Some c' ∧ Inv c'.
Proof.
  intros Hinv. destruct o as [k|k|k v|k v pk|k v pk|k|k|k|ro k d|ro k]; simpl.
  - destruct (Peek_Inv k c Hinv) as (r & tr & ->). by eauto.
  - destruct (Get_Inv k c Hinv) as (r & tr & c' & -> & ?). by eauto.
  - destruct (AddRoot_Inv k v c Hinv) as (r & tr & c' & -> & ?). by eauto.
  - destruct (Add_Inv k v pk c Hinv) as (r & tr & c' & -> & ?). by eauto.
  - destruct (AddOrUpdate_Inv k v pk c Hinv) as (r & tr & c' & -> & ?). by eauto.
  - destruct (PeekBranch_Inv k c Hinv) as (r & tr & ->). by eauto.
  - destruct (GetBranch_Inv k c Hinv) as (r & tr & c' & -> & ?). by eauto.
  - destruct (TraverseToRoot_Inv k c Hinv) as (r & tr & c' & -> & ?). by eauto.
  - destruct (TraverseSubtree_Inv ro k d c Hinv) as (r & tr & c' & -> & ?). by eauto.
  - destruct (Remove_Inv ro k c Hinv) as (r & tr & c' & -> & ?). by eauto.
Qed.

Lemma reachable_Inv c : reachable c → Inv c.
Proof.
  induction 1 as [m e|c o c' _ IH Hstep]; [apply Inv_NewCache|].
  destruct (perform_Inv o c IH) as (c'' & E & Hinv). congruence.
Qed.

Lemma runAll_reachable (os : list call) c : reachable c → reachable (runAll os c).
Proof.
  revert c. induction os as [|o os IH]; intros c Hr; [done|].
  simpl. apply IH.
  destruct (perform_Inv o c (reachable_Inv c Hr)) as (c' & E & _).
  rewrite E. simpl. by eapply reachable_call.
Qed.

(** ** The recency list after a promotion *)

Lemma filter_all (P : ptr → Prop) `{∀ x, Decision (P x)} (l : list ptr) :
  (∀ x, x ∈ l → P x) → filter P l = l.
Proof.
  induction l as [|y l IH]; intros HP; [done|].
  rewrite filter_cons_True by (apply HP; set_solver).
  rewrite IH; [done|]. intros x Hx. apply HP. set_solver.
Qed.

Lemma filter_none (P : ptr → Prop) `{∀ x, Decision (P x)} (l : list ptr) :
  (∀ x, x ∈ l → ¬ P x) → filter P l = [].
Proof.
  induction l as [|y l IH]; intros HP; [done|].
  rewrite filter_cons_False by (apply HP; set_solver).
  apply IH. intros x Hx. apply HP. set_solver.
Qed.

Lemma filter_ext_elem (P Q : ptr → Prop)
    `{∀ x, Decision (P x)} `{∀ x, Decision (Q x)} (l : list ptr) :
  (∀ x, x ∈ l → P x ↔ Q x) → filter P l = filter Q l.
Proof.
  induction l as [|y l IH]; intros HPQ; [done|].
  assert (filter P l = filter Q l) as E.
  { apply IH. intros x Hx. apply HPQ. set_solver. }
  destruct (decide (P y)) as [Hy|Hy].
  - rewrite !filter_cons_True; [by rewrite E|by apply HPQ; [set_solver|]|done].
  - rewrite !filter_cons_False; [done| |done]. intros HQ. apply Hy, HPQ; [set_solver|done].
Qed.

(** The nodes of [ns] that are in the list come to its front, the last
    promoted first; the other nodes of the list keep their order. *)
Lemma promote_lruList ns c :
  NoDup ns → NoDup (lruList c) →
  lruList (promote ns c) =
  rev (filter (.∈ lruList c) ns) ++ filter (.∉ ns) (lruList c).
Proof.
  revert c. induction ns as [|n ns IH]; intros c Hns Hl.
  - simpl. symmetry. apply filter_all. set_solver.
  - apply NoDup_cons in Hns as [Hn Hns]. rewrite promote_cons.
    rewrite IH by (done || by apply NoDup_MoveToFront). simpl.
    rewrite (list_filter_iff (.∈ lru.MoveToFront n (lruList c)) (.∈ lruList c))
      by (intros x; apply elem_of_MoveToFront).
    unfold lru.MoveToFront. destruct (decide (n ∈ lruList c)) as [Hin|Hin].
    + rewrite (filter_cons_True (.∈ lruList c)) by done.
      rewrite (filter_cons_True (.∉ ns)) by done. simpl.
      rewrite <- app_assoc. simpl. do 2 f_equal.
      unfold lru.Remove. rewrite list_filter_filter.
      apply list_filter_iff. intros x. rewrite not_elem_of_cons. tauto.
    + rewrite (filter_cons_False (.∈ lruList c)) by done. f_equal.
      apply filter_ext_elem. intros x Hx. rewrite not_elem_of_cons.
      split; [|tauto]. intros ?. split; [|done]. by intros ->.
Qed.

(** ** Ancestors *)

Lemma chain_rank c start ns x p :
  wf none c → chain c start = Some ns → x ∈ ns → start = Some p →
  (rank c x ≤ rank c p)%nat.
Proof.
  intros Hwf E Hx Hp.
  destruct (ancestors_rank (heap c) (rank c)) with (fuel := chainFuel c) (start := start)
    as (ns' & E' & _ & Hle).
  - intros p' q. by apply rank_parent.
  - intros p' _. by eapply rank_bound.
  - unfold chain in E. rewrite E in E'. injection E' as <-. by eapply Hle.
Qed.

Lemma chain_cons c n ns :
  wf none c → chain c (parent (heap c n)) = Some ns → chain c (Some n) = Some (n :: ns).
Proof.
  intros Hwf E. destruct (chain_total c (Some n) Hwf) as (ns' & E' & _).
  rewrite E'. unfold chain, chainFuel in *. simpl in E'.
  destruct (ancestors (next c) (heap c) (parent (heap c n))) as [ns''|] eqn:E''; [|done].
  simpl in E'. injection E' as <-.
  rewrite (ancestors_mono _ (S (next c)) _ _ _ E'') in E by lia. by injection E as <-.
Qed.

Lemma strictDescendant_rank c d a :
  wf none c → strictDescendant c d a → (rank c a < rank c d)%nat.
Proof.
  intros Hwf (ns & E & Ha). unfold node in E.
  destruct (parent (heap c d)) as [q|] eqn:Eq.
  - pose proof (chain_rank c _ ns a q Hwf E Ha eq_refl).
    pose proof (rank_parent c d q Hwf Eq). lia.
  - unfold chain, chainFuel in E. simpl in E. injection E as <-. set_solver.
Qed.

End facts.

(** * The properties of the specification *)

Section properties.

Context {K : Type} `{Countable K} `{Zero K} {V : Type} `{Zero V}.

Implicit Types (c : Cache (K:=K) (V:=V)) (k pk : K) (v : V).
Implicit Types (p q x n par : ptr) (ns : list ptr).

Lemma settle_nil c r tr c' : settle c = Done r tr c' → r = None.
Proof.
  unfold settle. destruct (if decide (overCapacity c) then _ else _) as [c1 [ev b]].
  by intros [= <- _ _].
Qed.

Lemma addNew_nil k v par c r tr c' : addNew k v par c = Done r tr c' → r = None.
Proof.
  unfold addNew, finishAdd. destruct (linkNew k v par c) as [[n c4]|]; [|done].
  destruct (promoteAncestors n c4); [|done]. apply settle_nil.
Qed.

(** C6.  When [AddRoot], [Add] or [AddOrUpdate] returns an error, it has
    told its collaborators nothing and the cache is the one it was called
    on, whatever that cache is; and in a cache that calls can lead to,
    [AddOrUpdate] of a present key under one of its strict descendants
    returns [ErrCycleDetected] (and so changes nothing). *)
Theorem C6_error_atomicity c k v pk :
  (∀ e tr c',
     AddRoot k v c = Done (Some e) tr c' ∨
     Add k v pk c = Done (Some e) tr c' ∨
     AddOrUpdate k v pk c = Done (Some e) tr c' →
     tr = [] ∧ c' = c) ∧
  (∀ n par,
     reachable c → keysMap c !! k = Some n → keysMap c !! pk = Some par →
     strictDescendant c par n →
     AddOrUpdate k v pk c = Done (Some ErrCycleDetected) [] c).
Proof.
  split.
  - intros e tr c' [Hr|[Ha|Hu]].
    + unfold AddRoot in Hr. destruct (root c); [|done]. by injection Hr as _ <- <-.
    + unfold Add in Ha. destruct (keysMap c !! pk) as [par|].
      2:{ by injection Ha as _ <- <-. }
      destruct (keysMap c !! k).
      * by injection Ha as _ <- <-.
      * by apply addNew_nil in Ha.
    + unfold AddOrUpdate in Hu. destruct (keysMap c !! pk) as [par|].
      2:{ by injection Hu as _ <- <-. }
      destruct (keysMap c !! k) as [n|]; [|by apply addNew_nil in Hu].
      case_decide.
      * unfold finishAdd in Hu. destruct (promoteAncestors _ _); [|done].
        by apply settle_nil in Hu.
      * destruct (meets _ _ _ _) as [[]|]; [by injection Hu as _ <- <-| |done].
        destruct (insertChild _ _ _ _); [|done].
        unfold finishAdd in Hu. destruct (promoteAncestors _ _); [|done].
        by apply settle_nil in Hu.
  - intros n par Hr Hn Hpar Hdesc.
    pose proof (reachable_Inv c Hr) as [Hwf _].
    pose proof (strictDescendant_rank c par n Hwf Hdesc) as Hlt.
    destruct Hdesc as (ns & E & Hin). unfold node in E.
    unfold AddOrUpdate. rewrite Hpar, Hn. rewrite decide_False.
    2:{ intros Hp. pose proof (rank_parent c n par Hwf Hp). lia. }
    rewrite (meets_ancestors _ _ _ (par :: ns) n (chain_cons c par ns Hwf E)).
    rewrite bool_decide_eq_true_2; [done|set_solver].
Qed.

Lemma evict_tail c t :
  lru.Back (lruList c) = Some t →
  evict c =
  (removeFromParent t
     (setKeysMap (delete (key (heap c t)) (keysMap c))
        (setLruList (lru.Remove t (lruList c)) c)),
   (mkCacheNode (key (heap c t)) (val (heap c t)) (parentKey c t), true)).
Proof.
  intros Ht. unfold evict. rewrite Ht. simpl. unfold node.
  by rewrite removeFromParent_key, removeFromParent_val.
Qed.

(** In a cache that is full, the nodes of the list are the nodes of the
    key table. *)
Lemma full_list_keys c q :
  Inv c → 0 < maxEntries c → Len c = maxEntries c → q ∈ lruList c →
  (∃ k, keysMap c !! k = Some q) ∧ length (lruList c) = size (keysMap c).
Proof.
  intros [Hwf Hcap] Hpos Hlen Hq. specialize (Hcap Hpos).
  unfold Len, lru.Len in *.
  assert ((map_to_list (keysMap c)).*2 ≡ₚ lruList c) as Hperm.
  { apply submseteq_length_Permutation.
    - apply NoDup_submseteq.
      + apply NoDup_fmap_2_strong; [|apply NoDup_map_to_list].
        intros [k1 q1] [k2 q2] Hk1%elem_of_map_to_list Hk2%elem_of_map_to_list.
        simpl. intros <-.
        destruct (wf_keys _ _ Hwf _ _ Hk1) as [_ <-].
        by destruct (wf_keys _ _ Hwf _ _ Hk2) as [_ <-].
      + intros x ([k' q'] & -> & Hk%elem_of_map_to_list)%list_elem_of_fmap.
        by apply (wf_keys _ _ Hwf k').
    - rewrite length_fmap, length_map_to_list. lia. }
  split.
  - rewrite <- Hperm in Hq.
    apply list_elem_of_fmap in Hq as ([k' q'] & -> & Hk%elem_of_map_to_list). eauto.
  - by rewrite <- Hperm, length_fmap, length_map_to_list.
Qed.

(** C10.  In a cache that calls can lead to, of positive capacity, that
    is full and holds only the parent of the new entry and ancestors of
    that parent, [Add] succeeds, the callback (when there is one) is told
    the new entry itself, and the new key is absent afterwards. *)
Theorem C10_add_evicts_new_entry c k v pk par :
  reachable c → 0 < maxEntries c → Len c = maxEntries c →
  keysMap c !! pk = Some par → keysMap c !! k = None →
  (∀ k' q, keysMap c !! k' = Some q → q = par ∨ strictDescendant c par q) →
  ∃ c',
    Add k v pk c =
      Done None
           (SetAmount (Len c') ::
            if onEvict c then [OnEvict (mkCacheNode k v pk)] else [])
           c' ∧
    Peek k c' = Done (zeroCacheNode, false) [IncMisses] c'.
Proof.
  intros Hr Hpos Hlen Hpar Hk Hanc.
  pose proof (reachable_Inv c Hr) as Hinv. pose proof Hinv as [Hwf Hcap].
  destruct (wf_keys _ _ Hwf pk par Hpar) as [HparL Hpkey].
  destruct (addNew_spec k v par c Hinv HparL)
    as (ns & c4 & E & Hnd & Hl & Hadd & Hwf5 & _).
  unfold Add. rewrite Hpar, Hk, Hadd. clear Hadd.
  set (n := next c) in *. set (c5 := promote ns c4) in *.
  destruct (promote_fields ns c4) as (Em & Ee & Ekm & _ & Eh & _). fold c5 in Em, Ee, Ekm, Eh.
  assert (∀ q, q ∈ lruList c → q ∈ ns) as Hns.
  { intros q Hq. destruct (full_list_keys c q Hinv Hpos Hlen Hq) as [[k' Hk'] _].
    destruct (Hanc k' q Hk') as [->|(ns0 & E0 & Hin)].
    - apply ancestors_head in E as [ns' ->]. set_solver.
    - rewrite (chain_cons c par ns0 Hwf E0) in E. injection E as <-. set_solver. }
  assert (n ∉ ns) as Hn.
  { intros Hin. apply (chain_alloc _ _ _ _ _ Hwf E) in Hin; [unfold n in Hin; lia|].
    intros p [= <-]. by eapply wf_alloc. }
  assert (NoDup (lruList c4)) as Hnd4.
  { rewrite (linked_lruList _ _ _ _ _ Hl). apply NoDup_cons. split; [|by destruct Hwf].
    intros Hin%(wf_alloc _ _ Hwf). lia. }
  assert (lru.Back (lruList c5) = Some n) as Hback.
  { unfold c5. rewrite promote_lruList by done.
    rewrite (linked_lruList _ _ _ _ _ Hl). fold n.
    rewrite (filter_cons_True (.∉ ns)) by done.
    rewrite (filter_none (.∉ ns)) by (intros q Hq%Hns; tauto).
    apply last_snoc. }
  assert (lru.Len (lruList c5) = maxEntries c + 1) as Hlen5.
  { unfold lru.Len, c5. rewrite promote_length by done.
    rewrite (linked_lruList _ _ _ _ _ Hl). simpl.
    destruct (full_list_keys c par Hinv Hpos Hlen HparL) as [_ ->].
    unfold Len in Hlen. lia. }
  assert (key (heap c5 n) = k ∧ val (heap c5 n) = v ∧ parentKey c5 n = pk) as (Hkey & Hval & Hpk).
  { unfold parentKey, node. rewrite Eh.
    rewrite (linked_key _ _ _ _ _ Hl), (linked_val _ _ _ _ _ Hl), (linked_parent _ _ _ _ _ Hl).
    rewrite !decide_True by done. split; [done|]. split; [done|].
    rewrite (linked_key _ _ _ _ _ Hl). rewrite decide_False; [done|].
    pose proof (wf_alloc _ _ Hwf par HparL). unfold n. lia. }
  unfold settle. rewrite decide_True.
  2:{ unfold overCapacity. rewrite Em, (linked_maxEntries _ _ _ _ _ Hl). lia. }
  rewrite (evict_tail c5 n Hback), Hkey, Hval, Hpk.
  set (c' := removeFromParent n _).
  assert (onEvict c' = onEvict c) as Ee'.
  { unfold c'. destruct (removeFromParent_fields n
      (setKeysMap (delete k (keysMap c5)) (setLruList (lru.Remove n (lruList c5)) c5)))
      as (_ & -> & _). simpl. by rewrite Ee, (linked_onEvict _ _ _ _ _ Hl). }
  exists c'. rewrite Ee'. split; [done|].
  unfold Peek. replace (keysMap c' !! k) with (@None ptr); [done|].
  unfold c'. destruct (removeFromParent_fields n
      (setKeysMap (delete k (keysMap c5)) (setLruList (lru.Remove n (lruList c5)) c5)))
      as (_ & _ & -> & _). simpl. by rewrite lookup_delete_eq.
Qed.

(** [Add] and [AddOrUpdate] never tell the collaborator [AddEvictions],
    whatever the cache. *)
Lemma settle_never_AddEvictions c r tr c' m :
  settle c = Done r tr c' → AddEvictions m ∉ tr.
Proof.
  unfold settle. destruct (if decide (overCapacity c) then _ else _) as [c1 [ev b]].
  intros [= _ <- _].
  destruct (b && onEvict c1); rewrite !not_elem_of_cons; split_and!; try done;
    apply not_elem_of_nil.
Qed.

Lemma addNew_never_AddEvictions k v par c r tr c' m :
  addNew k v par c = Done r tr c' → AddEvictions m ∉ tr.
Proof.
  unfold addNew, finishAdd. destruct (linkNew k v par c) as [[n c4]|]; [|done].
  destruct (promoteAncestors n c4); [|done]. apply settle_never_AddEvictions.
Qed.

Lemma Add_never_AddEvictions k v pk c r tr c' m :
  Add k v pk c = Done r tr c' → AddEvictions m ∉ tr.
Proof.
  unfold Add. destruct (keysMap c !! pk) as [par|].
  2:{ intros [= _ <- _]. apply not_elem_of_nil. }
  destruct (keysMap c !! k).
  - intros [= _ <- _]. apply not_elem_of_nil.
  - apply addNew_never_AddEvictions.
Qed.

Lemma AddOrUpdate_never_AddEvictions k v pk c r tr c' m :
  AddOrUpdate k v pk c = Done r tr c' → AddEvictions m ∉ tr.
Proof.
  unfold AddOrUpdate. destruct (keysMap c !! pk) as [par|].
  2:{ intros [= _ <- _]. apply not_elem_of_nil. }
  destruct (keysMap c !! k) as [n|]; [|apply addNew_never_AddEvictions].
  case_decide.
  - unfold finishAdd. destruct (promoteAncestors _ _); [|done].
    apply settle_never_AddEvictions.
  - destruct (meets _ _ _ _) as [[]|]; [| |done].
    + intros [= _ <- _]. apply not_elem_of_nil.
    + destruct (insertChild _ _ _ _); [|done].
      unfold finishAdd. destruct (promoteAncestors _ _); [|done].
      apply settle_never_AddEvictions.
Qed.

(** ** The root, once set, stays

    No statement of cache.go but the one of [AddRoot] assigns [c.root]: a
    call on a cache that has a root leaves that root in place, whatever the
    cache, and [AddRoot] fails on it. *)
Lemma forEach_keeps {A S B : Type} (body : A → S → option S) (f : S → B)
    (xs : list A) (s s' : S) :
  (∀ a s0 s1, body a s0 = Some s1 → f s1 = f s0) →
  forEach body xs s = Some s' → f s' = f s.
Proof.
  intros Hbody. revert s. induction xs as [|a xs IH]; intros s; simpl.
  - by intros [= <-].
  - destruct (body a s) as [s1|] eqn:E; [|done]. intros Hs'.
    rewrite (IH _ Hs'). by eapply Hbody.
Qed.

Lemma settle_root c r tr c' : settle c = Done r tr c' → root c' = root c.
Proof.
  unfold settle. case_decide.
  - destruct (evict c) as [c1 [ev b]] eqn:E. intros [= _ _ <-].
    replace c1 with (evict c).1 by by rewrite E. apply evict_fields.
  - by intros [= _ _ <-].
Qed.

Lemma finishAdd_root n c r tr c' : finishAdd n c = Done r tr c' → root c' = root c.
Proof.
  unfold finishAdd, promoteAncestors. destruct (chain c _) as [ns|]; [|done]. simpl.
  intros ->%settle_root. apply promote_fields.
Qed.

Lemma addNew_root k v par c r tr c' : addNew k v par c = Done r tr c' → root c' = root c.
Proof.
  unfold addNew, linkNew, insertChild. simpl.
  destruct (children _); [|done]. simpl. by intros ->%finishAdd_root.
Qed.

Lemma traverse_root ro md fuel n d (s s' : list event * Cache (K:=K) (V:=V)) :
  traverse ro md fuel n d s = Some s' → root s'.2 = root s.2.
Proof.
  revert n d s s'. induction fuel as [|fuel IH]; intros n d s s'; [done|]. simpl.
  case_decide.
  - by intros [= <-].
  - destruct (forEach _ _ _) as [s2|] eqn:E; [|done]. intros [= <-]. simpl.
    apply (forEach_keeps _ (λ s0, root s0.2)) in E; [done|].
    intros a s0 s1. apply IH.
Qed.

Lemma removeRecursively_root ro fuel n (s s' : Z * Cache (K:=K) (V:=V)) :
  removeRecursively ro fuel n s = Some s' → root s'.2 = root s.2.
Proof.
  revert n s s'. induction fuel as [|fuel IH]; intros n s s'; [done|]. simpl.
  destruct (forEach _ _ _) as [s2|] eqn:E; [|done]. intros [= <-]. simpl.
  apply (forEach_keeps _ (λ s0, root s0.2)) in E; [done|].
  intros a s0 s1. apply IH.
Qed.

Lemma perform_root (o : call) c c' :
  perform o c = Some c' → is_Some (root c) → root c' = root c.
Proof.
  intros Hstep [r Hr].
  destruct o as [k|k|k v|k v pk|k v pk|k|k|k|ro k d|ro k]; simpl in Hstep.
  - unfold Peek in Hstep. destruct (keysMap c !! k); by injection Hstep as <-.
  - unfold Get in Hstep. destruct (keysMap c !! k); [|by injection Hstep as <-].
    destruct (chain c _) as [ns|]; [|done]. injection Hstep as <-. apply promote_fields.
  - unfold AddRoot in Hstep. rewrite Hr in Hstep. by injection Hstep as <-.
  - unfold Add in Hstep. destruct (keysMap c !! pk); [|by injection Hstep as <-].
    destruct (keysMap c !! k); [by injection Hstep as <-|].
    destruct (addNew _ _ _ _) as [r0 tr c0| |] eqn:E; [|done..].
    injection Hstep as <-. by eapply addNew_root.
  - unfold AddOrUpdate in Hstep. destruct (keysMap c !! pk) as [par|]; [|by injection Hstep as <-].
    destruct (keysMap c !! k) as [n|].
    2:{ destruct (addNew _ _ _ _) as [r0 tr c0| |] eqn:E; [|done..].
        injection Hstep as <-. by eapply addNew_root. }
    case_decide.
    + destruct (finishAdd _ _) as [r0 tr c0| |] eqn:E; [|done..].
      injection Hstep as <-. by rewrite (finishAdd_root _ _ _ _ _ E).
    + destruct (meets _ _ _ _) as [[]|]; [by injection Hstep as <-| |done].
      unfold insertChild in Hstep. destruct (children _); [|done].
      destruct (finishAdd _ _) as [r0 tr c0| |] eqn:E; [|done..].
      injection Hstep as <-. rewrite (finishAdd_root _ _ _ _ _ E). simpl.
      apply removeFromParent_fields.
  - unfold PeekBranch in Hstep. destruct (keysMap c !! k); [|by injection Hstep as <-].
    destruct (chain c _) as [ns|]; [|done]. rewrite fillBranch_spec in Hstep.
    by injection Hstep as <-.
  - unfold GetBranch in Hstep. destruct (keysMap c !! k); [|by injection Hstep as <-].
    destruct (chain c _) as [ns|]; [|done]. rewrite fillBranch_spec in Hstep.
    injection Hstep as <-. apply promote_fields.
  - unfold TraverseToRoot in Hstep. destruct (keysMap c !! k); [|by injection Hstep as <-].
    destruct (chain c _) as [ns|]; [|done]. injection Hstep as <-. apply promote_fields.
  - unfold TraverseSubtree in Hstep. destruct (keysMap c !! k); [|by injection Hstep as <-].
    destruct (traverse _ _ _ _ _ _) as [[tr c1]|] eqn:E; [|done].
    destruct (chain c1 _) as [ns|]; [|done]. injection Hstep as <-.
    apply traverse_root in E. simpl in E. rewrite <- E. apply promote_fields.
  - unfold Remove in Hstep. destruct (keysMap c !! k); [|by injection Hstep as <-].
    destruct (removeRecursively _ _ _ _) as [[cnt c1]|] eqn:E; [|done].
    injection Hstep as <-. apply removeRecursively_root in E. simpl in E.
    rewrite <- E. apply removeFromParent_fields.
Qed.

Lemma AddRoot_with_root k v c :
  is_Some (root c) → AddRoot k v c = Done (Some ErrRootAlreadyExists) [] c.
Proof. intros [r Hr]. unfold AddRoot. by rewrite Hr. Qed.

Lemma Remove_absent ro k c : keysMap c !! k = None → Remove ro k c = Done 0 [] c.
Proof. intros Hk. unfold Remove. by rewrite Hk. Qed.

(** [Add] comes down to [settle] on the cache [AddUpToSettle] gives. *)
Lemma Add_settle k v pk c c1 :
  AddUpToSettle k v pk c = Some c1 → Add k v pk c = settle c1.
Proof.
  unfold AddUpToSettle, Add, addNew, finishAdd.
  destruct (keysMap c !! pk) as [par|]; [|done].
  destruct (keysMap c !! k); [done|].
  destruct (linkNew k v par c) as [[n c4]|]; [|done]. simpl. by intros ->.
Qed.

(** The node at the back of the list of a well-formed cache is the parent
    of no node: what [evict] removes has no child among the nodes of the
    cache, though its map of children may hold nodes that [Remove] took
    out. *)
Lemma back_is_parent_of_no_node c t p :
  wf none c → lru.Back (lruList c) = Some t → parent (heap c p) ≠ Some t.
Proof.
  intros Hwf Ht Hp. apply last_Some in Ht as [l El].
  destruct (decide (p ∈ lruList c)) as [Hin|Hout].
  - assert (before (lruList c) t p) as Hb.
    { eapply ordered_none; [by destruct Hwf|done..|]. rewrite El. set_solver. }
    rewrite El in Hb. apply not_before_last in Hb; [done|].
    rewrite <- El. by destruct Hwf.
  - by rewrite (wf_out _ _ Hwf p Hout) in Hp.
Qed.

(** C4 (as amended).  For a present key, [GetBranch] promotes the nodes
    of the path in the order the loop meets them, the node of the key
    first and the root last: the cache it leaves is the one [Get] leaves,
    with the nodes of the path that are in the list at its front, the root
    first and the node of the key last; and [Add] under the key promotes
    the same nodes in the same order. *)
Theorem C4_GetBranch_promotes_key_first c k n :
  reachable c → keysMap c !! k = Some n →
  ∃ ns r,
    chain c (Some n) = Some ns ∧
    GetBranch k c = Done (rev (map (cacheNodeOf c) ns)) [IncHits] (promote ns c) ∧
    Get k c = Done r [IncHits] (promote ns c) ∧
    lruList (promote ns c) =
      rev (filter (.∈ lruList c) ns) ++ filter (.∉ ns) (lruList c) ∧
    ∀ k' v, keysMap c !! k' = None →
            ∃ c4, linked k' v n c c4 ∧ Add k' v k c = settle (promote ns c4).
Proof.
  intros Hr Hn. pose proof (reachable_Inv c Hr) as Hinv. pose proof Hinv as [Hwf _].
  destruct (chain_total c (Some n) Hwf) as (ns & E & Hnd).
  exists ns. eexists. split; [done|]. unfold GetBranch, Get. rewrite Hn, E.
  rewrite fillBranch_spec. split; [done|]. split; [done|]. split.
  - apply promote_lruList; [done|by destruct Hwf].
  - intros k' v Hk'.
    destruct (addNew_spec k' v n c Hinv) as (ns' & c4 & E' & _ & Hl & Hadd & _).
    { by eapply wf_keys. }
    rewrite E in E'. injection E' as <-. exists c4. split; [done|].
    unfold Add. by rewrite Hn, Hk'.
Qed.

(** C5 (as amended).  When the key is absent, [TraverseSubtree] reports a
    miss, calls [visit] on nothing and leaves the cache as it is.  When it
    is present, [visit] is called on its node first; the promotion of a
    visited node is deferred to the end of the walk below it, and the
    ancestors of the key are promoted last: the list that results begins
    with the ancestors of the key, the root first, followed by the node of
    the key, and every node in it is behind its parent. *)
Theorem C5_TraverseSubtree_promotes_after_walk ro c k d :
  reachable c →
  (keysMap c !! k = None → TraverseSubtree ro k d c = Done () [IncMisses] c) ∧
  (∀ n, keysMap c !! k = Some n →
     ∃ ns vs c',
       chain c (parent (node c n)) = Some ns ∧
       TraverseSubtree ro k d c = Done () (visitOf c n :: vs ++ [IncHits]) c' ∧
       reordered c c' ∧
       (∃ rest, lruList c' = rev (filter (.∈ lruList c) ns) ++ n :: rest) ∧
       ordered none (heap c') (lruList c')).
Proof.
  intros Hr. pose proof (reachable_Inv c Hr) as [Hwf _]. split.
  { intros Hk. unfold TraverseSubtree. by rewrite Hk. }
  intros n Hn. unfold TraverseSubtree. rewrite Hn.
  destruct (wf_keys _ _ Hwf k n Hn) as [HnL _].
  destruct (traverse_spec ro d c Hwf (chainFuel c) n 0 [] c
              (λ q, parent (heap c n) = Some q))
    as (tr & c1 & -> & Hre & Hwf1 & Hhead & vs & ->).
  - by repeat split.
  - eapply wf_weaken; [done|]. by intros x [].
  - done.
  - left. split; [done|]. unfold fromBack, chainFuel.
    pose proof (length_bounded _ _ (wf_nodup _ _ Hwf) (wf_alloc _ _ Hwf)).
    pose proof (pos_le (lruList c) n). lia.
  - destruct (Hhead HnL) as [rest1 Hrest].
    pose proof Hre as (Em & Ee & Ekm & Er & Eh & Enx & Ep).
    destruct (chain_total c (parent (heap c n)) Hwf) as (ns & E & Hnd).
    pose proof (chain_cons c n ns Hwf E) as Econs.
    destruct (chain_total c (Some n) Hwf) as (ns' & E' & Hnd').
    rewrite Econs in E'. injection E' as <-. apply NoDup_cons in Hnd' as [Hnns _].
    exists ns, vs, (promote ns c1). unfold node.
    assert (chain c1 (parent (heap c1 n)) = Some ns) as E1.
    { unfold chain, chainFuel. by rewrite Eh, Enx. }
    rewrite E1. split; [done|]. split; [done|].
    assert (wf none (promote ns c1)) as Hwf'.
    { eapply wf_promote; [exact E1|]. eapply wf_weaken; [done|].
      intros x Hx. by rewrite Eh. }
    split; [apply reordered_promote; [by destruct Hwf1|done]|].
    split; [|by destruct Hwf'].
    rewrite promote_lruList by (done || by destruct Hwf1).
    rewrite (list_filter_iff (.∈ lruList c1) (.∈ lruList c)) by (intros x; by rewrite Ep).
    rewrite Hrest. rewrite (filter_cons_True (.∉ ns)) by done. by eexists.
Qed.

End properties.

(** * Further properties of the methods *)

Section further.
Context {K : Type} `{Countable K} `{Zero K} {V : Type} `{Zero V}.
Implicit Types (c : Cache (K:=K) (V:=V)) (k pk : K) (v : V).
Implicit Types (p q x n par : ptr) (ns : list ptr).

(** X1.  Every call on a cache that calls can lead to returns: no walk along
    parent links runs for ever and no assignment hits a nil map; and the
    cache it leaves is again one that calls lead to. *)
Theorem X1_every_call_returns c (o : call) :
  reachable c → ∃ c', perform o c = Some c' ∧ reachable c'.
Proof.
  intros Hr. destruct (perform_Inv o c (reachable_Inv c Hr)) as (c' & E & _).
  exists c'. split; [done|]. by eapply reachable_call.
Qed.

Lemma keys_in_list c :
  wf none c → (map_to_list (keysMap c)).*2 ⊆+ lruList c.
Proof.
  intros Hwf. apply NoDup_submseteq.
  - apply NoDup_fmap_2_strong; [|apply NoDup_map_to_list].
    intros [k1 q1] [k2 q2] Hk1%elem_of_map_to_list Hk2%elem_of_map_to_list.
    simpl. intros <-.
    destruct (wf_keys _ _ Hwf _ _ Hk1) as [_ <-].
    by destruct (wf_keys _ _ Hwf _ _ Hk2) as [_ <-].
  - intros x ([k' q'] & -> & Hk%elem_of_map_to_list)%list_elem_of_fmap.
    by apply (wf_keys _ _ Hwf k').
Qed.

Lemma Len_le_list c : wf none c → Len c ≤ lru.Len (lruList c).
Proof.
  intros Hwf. pose proof (submseteq_length _ _ (keys_in_list c Hwf)) as Hle.
  rewrite length_fmap, length_map_to_list in Hle. unfold Len, lru.Len. lia.
Qed.

(** X2.  Between calls, the recency list of a cache of positive capacity
    never holds more than [maxEntries] nodes, and [Len] is at most the
    length of that list. *)
Theorem X2_never_over_capacity c :
  reachable c → 0 < maxEntries c →
  Len c ≤ lru.Len (lruList c) ∧ lru.Len (lruList c) ≤ maxEntries c.
Proof.
  intros Hr Hpos. destruct (reachable_Inv c Hr) as [Hwf Hcap].
  split; [by apply Len_le_list|auto].
Qed.


(** ** Add *)

Lemma settle_room c : ¬ overCapacity c → settle c = Done None [SetAmount (Len c)] c.
Proof. intros Hn. unfold settle. by rewrite decide_False by done. Qed.

(** The nodes that were there before a new node was linked are as they
    were. *)
Lemma linked_old k v par c c4 p :
  wf none c → linked k v par c c4 → (p < next c)%nat →
  key (heap c4 p) = key (heap c p) ∧ val (heap c4 p) = val (heap c p) ∧
  parentKey c4 p = parentKey c p.
Proof.
  intros Hwf Hl Hp. unfold parentKey, node.
  rewrite (linked_key _ _ _ _ _ Hl), (linked_val _ _ _ _ _ Hl), (linked_parent _ _ _ _ _ Hl).
  rewrite !decide_False by lia. split; [done|]. split; [done|].
  destruct (parent (heap c p)) as [q|] eqn:Eq; [|done].
  rewrite (linked_key _ _ _ _ _ Hl). rewrite decide_False; [done|].
  pose proof (wf_parent_alloc _ _ Hwf p q Eq). lia.
Qed.

Lemma linked_new k v pk par c c4 :
  wf none c → linked k v par c c4 → keysMap c !! pk = Some par →
  key (heap c4 (next c)) = k ∧ val (heap c4 (next c)) = v ∧ parentKey c4 (next c) = pk.
Proof.
  intros Hwf Hl Hpar. destruct (wf_keys _ _ Hwf pk par Hpar) as [HparL Hpkey].
  unfold parentKey, node.
  rewrite (linked_key _ _ _ _ _ Hl), (linked_val _ _ _ _ _ Hl), (linked_parent _ _ _ _ _ Hl).
  rewrite !decide_True by done. split; [done|]. split; [done|].
  rewrite (linked_key _ _ _ _ _ Hl). rewrite decide_False; [done|].
  pose proof (wf_alloc _ _ Hwf par HparL). lia.
Qed.

(** X3.  [Add] of an absent key under a present parent, in a cache that is
    unbounded or whose list is not full, returns nil and reports the size
    grown by one; afterwards [Peek] finds the key with its value and parent
    key, its branch is the branch of the parent followed by the new entry,
    and every other key is found or missed as before. *)
Theorem X3_Add_with_room c k v pk par :
  reachable c → keysMap c !! pk = Some par → keysMap c !! k = None →
  (maxEntries c ≤ 0 ∨ lru.Len (lruList c) < maxEntries c) →
  ∃ branch c',
    PeekBranch pk c = Done branch [IncHits] c ∧
    Add k v pk c = Done None [SetAmount (Len c + 1)] c' ∧
    Len c' = Len c + 1 ∧
    Peek k c' = Done (mkCacheNode k v pk, true) [IncHits] c' ∧
    PeekBranch k c' = Done (branch ++ [mkCacheNode k v pk]) [IncHits] c' ∧
    ∀ k', k' ≠ k → returned (Peek k' c') = returned (Peek k' c).
Proof.
  intros Hr Hpar Hk Hroom.
  pose proof (reachable_Inv c Hr) as Hinv. pose proof Hinv as [Hwf Hcap].
  destruct (wf_keys _ _ Hwf pk par Hpar) as [HparL Hpkey].
  destruct (addNew_spec k v par c Hinv HparL)
    as (ns & c4 & E & Hnd & Hl & Hadd & Hwf5 & _).
  unfold Add. rewrite Hpar, Hk, Hadd. clear Hadd.
  set (c5 := promote ns c4) in *.
  destruct (promote_fields ns c4) as (Em & Ee & Ekm & _ & Eh & Enx).
  fold c5 in Em, Ee, Ekm, Eh, Enx.
  assert (NoDup (lruList c4)) as Hnd4.
  { rewrite (linked_lruList _ _ _ _ _ Hl). apply NoDup_cons. split; [|by destruct Hwf].
    intros Hin%(wf_alloc _ _ Hwf). lia. }
  assert (Len c5 = Len c + 1) as HLen.
  { unfold Len. rewrite Ekm, (linked_keysMap _ _ _ _ _ Hl), map_size_insert_None by done. lia. }
  rewrite settle_room.
  2:{ unfold overCapacity, lru.Len, c5. rewrite promote_length by done.
      fold c5. rewrite Em, (linked_maxEntries _ _ _ _ _ Hl), (linked_lruList _ _ _ _ _ Hl).
      unfold lru.Len in Hroom. simpl. lia. }
  exists (rev (map (cacheNodeOf c) ns)), c5. rewrite HLen.
  split; [unfold PeekBranch; by rewrite Hpar, E, fillBranch_spec|].
  split; [done|]. split; [done|].
  destruct (linked_new k v pk par c c4 Hwf Hl Hpar) as (Hkey & Hval & Hpk).
  split; [|split].
  - unfold Peek. rewrite Ekm, (linked_keysMap _ _ _ _ _ Hl), lookup_insert_eq.
    unfold parentKey, node in *. rewrite Eh, Hval, Hpk. done.
  - assert (chain c5 (Some par) = Some ns) as E5.
    { unfold chain, chainFuel. rewrite Eh, Enx. change (chain c4 (Some par) = Some ns).
      eapply (linked_chain k v par c c4); [done..| |done].
      intros p [= <-]. by eapply wf_alloc. }
    assert (chain c5 (Some (next c)) = Some (next c :: ns)) as E5'.
    { apply chain_cons; [done|].
      by rewrite Eh, (linked_parent _ _ _ _ _ Hl), decide_True. }
    unfold PeekBranch. rewrite Ekm, (linked_keysMap _ _ _ _ _ Hl), lookup_insert_eq.
    rewrite E5', fillBranch_spec. simpl. do 2 f_equal.
    + f_equal. apply map_ext_in. intros x Hx%list_elem_of_In.
      unfold c5. rewrite cacheNodeOf_promote.
      assert (x < next c)%nat as Hlt.
      { eapply chain_alloc; [exact Hwf|exact E| |done]. intros p [= <-]. by eapply wf_alloc. }
      destruct (linked_old k v par c c4 x Hwf Hl Hlt) as (Hkx & Hvx & Hpx).
      unfold cacheNodeOf, node in *. by rewrite Hkx, Hvx, Hpx.
    + unfold cacheNodeOf, parentKey, node in *. by rewrite Eh, Hkey, Hval, Hpk.
  - intros k' Hne. unfold Peek.
    rewrite Ekm, (linked_keysMap _ _ _ _ _ Hl), lookup_insert_ne by done.
    destruct (keysMap c !! k') as [p|] eqn:Ep; [|done]. simpl.
    destruct (wf_keys _ _ Hwf k' p Ep) as [HpL _].
    destruct (linked_old k v par c c4 p Hwf Hl (wf_alloc _ _ Hwf p HpL)) as (_ & Hv & Hp).
    unfold parentKey, node in *. rewrite Eh, Hv, Hp. done.
Qed.

(** X4.  [Add] on a cache whose recency list is full evicts the least recently used node that is
    not on the chain of the parent of the new entry: the callback, when
    there is one, is told the key, the value and the parent key of that
    node, after the collaborator was told the size; the node leaves the
    list, which stays full. *)
Theorem X4_Add_evicts_least_recent c k v pk par ns t :
  reachable c → 0 < maxEntries c → lru.Len (lruList c) = maxEntries c →
  keysMap c !! pk = Some par → keysMap c !! k = None →
  chain c (Some par) = Some ns →
  last (filter (.∉ ns) (lruList c)) = Some t →
  ∃ c', Add k v pk c =
          Done None
               (SetAmount (Len c') ::
                if onEvict c then [OnEvict (cacheNodeOf c t)] else [])
               c' ∧
        (t ∉ lruList c') ∧ lru.Len (lruList c') = maxEntries c.
Proof.
  intros Hr Hpos Hlen Hpar Hk E Ht.
  pose proof (reachable_Inv c Hr) as Hinv. pose proof Hinv as [Hwf Hcap].
  destruct (wf_keys _ _ Hwf pk par Hpar) as [HparL Hpkey].
  destruct (addNew_spec k v par c Hinv HparL)
    as (ns' & c4 & E' & Hnd & Hl & Hadd & Hwf5 & _).
  rewrite E in E'. injection E' as <-.
  unfold Add. rewrite Hpar, Hk, Hadd. clear Hadd.
  set (n := next c) in *. set (c5 := promote ns c4) in *.
  destruct (promote_fields ns c4) as (Em & Ee & Ekm & _ & Eh & _).
  fold c5 in Em, Ee, Ekm, Eh.
  assert (n ∉ ns) as Hn.
  { intros Hin. apply (chain_alloc _ _ _ _ _ Hwf E) in Hin; [unfold n in Hin; lia|].
    intros p [= <-]. by eapply wf_alloc. }
  assert (NoDup (lruList c4)) as Hnd4.
  { rewrite (linked_lruList _ _ _ _ _ Hl). apply NoDup_cons. split; [|by destruct Hwf].
    intros Hin%(wf_alloc _ _ Hwf). lia. }
  assert (t ∈ lruList c) as HtL.
  { apply last_Some_elem_of in Ht. apply list_elem_of_filter in Ht. tauto. }
  assert (lru.Back (lruList c5) = Some t) as Hback.
  { unfold c5. rewrite promote_lruList by done.
    rewrite (linked_lruList _ _ _ _ _ Hl). fold n.
    rewrite (filter_cons_True (.∉ ns)) by done.
    unfold lru.Back. rewrite last_app, last_cons, Ht. done. }
  assert (length (lruList c5) = S (length (lruList c))) as Hlen5.
  { unfold c5. rewrite promote_length by done.
    by rewrite (linked_lruList _ _ _ _ _ Hl). }
  unfold settle. rewrite decide_True.
  2:{ unfold overCapacity, lru.Len in *. rewrite Em, (linked_maxEntries _ _ _ _ _ Hl). lia. }
  rewrite (evict_tail c5 t Hback).
  destruct (linked_old k v par c c4 t Hwf Hl (wf_alloc _ _ Hwf t HtL)) as (Hkey & Hval & Hpk).
  replace (mkCacheNode (key (heap c5 t)) (val (heap c5 t)) (parentKey c5 t))
    with (cacheNodeOf c t).
  2:{ unfold cacheNodeOf, parentKey, node in *. by rewrite Eh, Hkey, Hval, Hpk. }
  set (c' := removeFromParent t _).
  destruct (removeFromParent_fields t
      (setKeysMap (delete (key (heap c5 t)) (keysMap c5))
         (setLruList (lru.Remove t (lruList c5)) c5)))
      as (_ & Ee' & _ & El' & _). fold c' in Ee', El'. simpl in Ee', El'.
  exists c'. rewrite Ee', Ee, (linked_onEvict _ _ _ _ _ Hl). split; [done|].
  rewrite El'. split.
  - rewrite elem_of_Remove. tauto.
  - assert (t ∈ lruList c5) as Ht5.
    { apply last_Some_elem_of in Hback. done. }
    pose proof (length_Remove (lruList c5) t (wf_nodup _ _ Hwf5) Ht5).
    unfold lru.Len in *. lia.
Qed.


(** ** The root *)

Lemma no_root_empty c : wf none c → root c = None → keysMap c = ∅.
Proof.
  intros Hwf Hr. apply map_empty. intros k.
  destruct (keysMap c !! k) as [p|] eqn:E; [|done].
  destruct (wf_keys _ _ Hwf k p E) as [Hp _].
  rewrite (wf_root _ _ Hwf Hr) in Hp. by apply elem_of_nil in Hp.
Qed.

(** X5.  Before [AddRoot] the cache is empty and stays so: [Add] and
    [AddOrUpdate] return [ErrParentNotExist] and change nothing, and [Peek]
    misses. *)
Theorem X5_nothing_before_the_root c k v pk :
  reachable c → root c = None →
  Len c = 0 ∧
  Add k v pk c = Done (Some ErrParentNotExist) [] c ∧
  AddOrUpdate k v pk c = Done (Some ErrParentNotExist) [] c ∧
  Peek k c = Done (zeroCacheNode, false) [IncMisses] c.
Proof.
  intros Hr Hroot. destruct (reachable_Inv c Hr) as [Hwf _].
  pose proof (no_root_empty c Hwf Hroot) as Hem.
  unfold Len, Add, AddOrUpdate, Peek. rewrite Hem, !lookup_empty, map_size_empty. done.
Qed.

(** X6.  [AddRoot] on a cache without root succeeds and reports the size
    1; afterwards the key is found with its value and the zero parent key,
    alone in its branch. *)
Theorem X6_AddRoot_first c k v :
  reachable c → root c = None →
  ∃ c', AddRoot k v c = Done None [SetAmount 1] c' ∧
        Len c' = 1 ∧ is_Some (root c') ∧
        Peek k c' = Done (mkCacheNode k v zeroKey, true) [IncHits] c' ∧
        PeekBranch k c' = Done [mkCacheNode k v zeroKey] [IncHits] c'.
Proof.
  intros Hr Hroot. destruct (reachable_Inv c Hr) as [Hwf _].
  pose proof (no_root_empty c Hwf Hroot) as Hem.
  unfold AddRoot. rewrite Hroot. simpl. rewrite Hem, insert_empty. eexists. split.
  { unfold Len. simpl. by rewrite map_size_singleton. }
  split.
  { unfold Len. simpl. by rewrite map_size_singleton. }
  split; [by eexists|].
  split.
  - unfold Peek, parentKey, node. simpl. rewrite lookup_singleton_eq. unfold store.
    rewrite !decide_True by done. done.
  - unfold PeekBranch, chain, chainFuel. simpl. rewrite lookup_singleton_eq.
    unfold store at 1. rewrite decide_True by done. simpl.
    unfold cacheNodeOf, parentKey, node. simpl. unfold store.
    rewrite !decide_True by done. done.
Qed.

Lemma runAll_root (os : list call) c :
  is_Some (root c) → root (runAll os c) = root c.
Proof.
  revert c. induction os as [|o os IH]; intros c Hr; [done|]. simpl.
  destruct (perform o c) as [c'|] eqn:E; simpl; [|by apply IH].
  pose proof (perform_root o c c' E Hr) as Hr'.
  rewrite IH; [done|]. by rewrite Hr'.
Qed.

(** X7.  The root is set once: after an [AddRoot] that succeeded, no
    sequence of calls, [Remove] of the root included, changes [c.root], and
    every later [AddRoot] returns [ErrRootAlreadyExists] and changes
    nothing. *)
Theorem X7_root_is_set_once c k0 v0 tr c1 (os : list call) k v :
  AddRoot k0 v0 c = Done None tr c1 →
  root (runAll os c1) = root c1 ∧
  AddRoot k v (runAll os c1) = Done (Some ErrRootAlreadyExists) [] (runAll os c1).
Proof.
  intros Hadd.
  assert (is_Some (root c1)) as Hr.
  { unfold AddRoot in Hadd. destruct (root c); [done|]. simpl in Hadd.
    injection Hadd as _ <-. by eexists. }
  split; [by apply runAll_root|].
  apply AddRoot_with_root. by rewrite runAll_root.
Qed.

(** ** Lookups *)

Lemma reordered_refl c : reordered c c.
Proof. by repeat split. Qed.

Lemma promote_setLruList ns c : promote ns c = setLruList (lruList (promote ns c)) c.
Proof.
  revert c. induction ns as [|n ns IH]; intros c; [by destruct c|].
  rewrite promote_cons, IH. by destruct c.
Qed.

Lemma list_elem_of_rev {A : Type} (l : list A) (x : A) : x ∈ rev l ↔ x ∈ l.
Proof. rewrite !list_elem_of_In. symmetry. apply in_rev. Qed.

Lemma NoDup_rev_2 (l : list ptr) : NoDup l → NoDup (rev l).
Proof. intros Hl. by rewrite <- Permutation_rev. Qed.

Lemma promote_twice ns c :
  NoDup ns → NoDup (lruList c) → promote ns (promote ns c) = promote ns c.
Proof.
  intros Hns Hl.
  assert (NoDup (lruList (promote ns c))) as Hl'.
  { rewrite promote_lruList by done. apply NoDup_app. split_and!.
    - apply NoDup_rev_2. by apply NoDup_filter.
    - intros x Hx%list_elem_of_rev%list_elem_of_filter Hx'%list_elem_of_filter. tauto.
    - by apply NoDup_filter. }
  rewrite (promote_setLruList ns (promote ns c)).
  rewrite (promote_lruList ns (promote ns c)) by done.
  rewrite (list_filter_iff (.∈ lruList (promote ns c)) (.∈ lruList c))
    by (intros x; apply promote_elem_of).
  rewrite (promote_lruList ns c) at 1 by done.
  rewrite filter_app.
  rewrite (filter_none (.∉ ns)).
  2:{ intros x Hx%list_elem_of_rev%list_elem_of_filter. tauto. }
  rewrite (filter_all (.∉ ns)).
  2:{ intros x Hx%list_elem_of_filter. tauto. }
  simpl. rewrite <- (promote_lruList ns c) by done. by destruct (promote ns c).
Qed.

(** X8.  [Get] returns what [Peek] returns and tells the collaborator the
    same; it reorders the recency list and changes nothing else, and a
    second [Get] of the key leaves the cache as the first left it. *)
Theorem X8_Get_returns_what_Peek_returns c k :
  reachable c →
  ∃ r tr c',
    Peek k c = Done r tr c ∧ Get k c = Done r tr c' ∧
    reordered c c' ∧ Get k c' = Done r tr c'.
Proof.
  intros Hr. destruct (reachable_Inv c Hr) as [Hwf _].
  unfold Peek, Get. destruct (keysMap c !! k) as [n|] eqn:En.
  2:{ do 3 eexists. split; [done|]. split; [done|]. split; [apply reordered_refl|].
      by rewrite En. }
  destruct (chain_total c (Some n) Hwf) as (ns & E & Hnd). rewrite E.
  destruct (promote_fields ns c) as (_ & _ & Ekm & _ & Eh & Enx).
  unfold parentKey, node. rewrite Eh.
  do 3 eexists. split; [done|]. split; [done|].
  split; [apply reordered_promote; [by destruct Hwf|apply reordered_refl]|].
  rewrite Ekm, En. unfold chain, chainFuel. rewrite Eh, Enx.
  unfold chain, chainFuel in E. rewrite E.
  rewrite promote_twice by (done || by destruct Hwf). by rewrite Eh.
Qed.


(** ** Branches *)

Lemma ancestors_path fuel c start ns rest :
  ancestors fuel (heap c) start = Some ns →
  pathFrom (match start with Some x => key (heap c x) | None => zeroKey end) rest →
  pathFrom zeroKey (rev (map (cacheNodeOf c) ns) ++ rest).
Proof.
  revert start ns rest. induction fuel as [|fuel IH]; intros start ns rest.
  - destruct start; simpl; [done|]. by intros [= <-].
  - destruct start as [n|]; simpl; [|by intros [= <-]].
    destruct (ancestors fuel (heap c) (parent (heap c n))) as [ns'|] eqn:E; [|done].
    simpl. intros [= <-] Hrest. simpl. rewrite <- app_assoc. simpl.
    apply (IH _ _ _ E). simpl. split; [|done].
    unfold parentKey, node. by destruct (parent (heap c n)).
Qed.

(** X9.  [PeekBranch] and [GetBranch] return the same branch and tell the
    collaborator the same, and [PeekBranch] leaves the cache as it is; the
    branch is a path: the parent key of its first entry is the zero key and
    the parent key of every other entry is the key of the entry before it;
    and its last entry is what [Peek] returns for the key (the branch is
    empty when the key is absent). *)
Theorem X9_branch_is_a_path c k :
  reachable c →
  ∃ branch tr c',
    PeekBranch k c = Done branch tr c ∧
    GetBranch k c = Done branch tr c' ∧
    pathFrom zeroKey branch ∧
    ∀ e, Peek k c = Done (e, true) tr c ↔ last branch = Some e.
Proof.
  intros Hr. destruct (reachable_Inv c Hr) as [Hwf _].
  unfold PeekBranch, GetBranch, Peek. destruct (keysMap c !! k) as [n|] eqn:En.
  2:{ do 3 eexists. split; [done|]. split; [done|]. split; [done|].
      intros e. split; intros [=]. }
  destruct (wf_keys _ _ Hwf k n En) as [_ Hkey].
  destruct (chain_total c (Some n) Hwf) as (ns & E & Hnd). rewrite E.
  rewrite !fillBranch_spec. do 3 eexists. split; [done|]. split; [done|]. split.
  - rewrite <- (app_nil_r (rev _)). by eapply ancestors_path.
  - apply ancestors_head in E as [ns' ->]. simpl. rewrite last_snoc.
    unfold cacheNodeOf, node. rewrite Hkey. intros e. split; by intros [= <-].
Qed.

(** X10.  [TraverseToRoot] calls the callback on the entries of the branch
    [GetBranch] returns, the last entry first and the first last, then
    tells the collaborator what [GetBranch] tells it, and leaves the cache
    [GetBranch] leaves. *)
Theorem X10_TraverseToRoot_walks_the_branch c k :
  reachable c →
  ∃ branch tr c',
    GetBranch k c = Done branch tr c' ∧
    TraverseToRoot k c = Done () (map visitNode (rev branch) ++ tr) c'.
Proof.
  intros Hr. destruct (reachable_Inv c Hr) as [Hwf _].
  unfold GetBranch, TraverseToRoot. destruct (keysMap c !! k) as [n|] eqn:En.
  2:{ by do 3 eexists. }
  destruct (chain_total c (Some n) Hwf) as (ns & E & Hnd). rewrite E.
  rewrite fillBranch_spec. do 3 eexists. split; [done|].
  by rewrite rev_involutive, map_map.
Qed.

(** ** TraverseSubtree and its depth *)

Lemma forEach_ext {A S : Type} (body body' : A → S → option S) (xs : list A) (s : S) :
  (∀ a s0, body a s0 = body' a s0) → forEach body xs s = forEach body' xs s.
Proof.
  intros Hext. revert s. induction xs as [|a xs IH]; intros s; simpl; [done|].
  rewrite Hext. destruct (body' a s); [apply IH|done].
Qed.

Lemma traverse_negative ro d fuel n cd (s : list event * Cache (K:=K) (V:=V)) :
  d < 0 → traverse ro d fuel n cd s = traverse ro (-1) fuel n cd s.
Proof.
  intros Hd. revert n cd s. induction fuel as [|fuel IH]; intros n cd s; [done|].
  simpl. rewrite !decide_False by lia. f_equal. apply forEach_ext.
  intros a s0. apply IH.
Qed.

(** X11.  The depth of [TraverseSubtree]: every negative [maxDepth] is
    unlimited, as -1 is; with [maxDepth] 0 the callback is called on the
    entry of the key and on nothing else, and the cache is left as [Get]
    leaves it. *)
Theorem X11_TraverseSubtree_depth ro c k :
  reachable c →
  (∀ d, d < 0 → TraverseSubtree ro k d c = TraverseSubtree ro k (-1) c) ∧
  ∃ r tr c',
    Get k c = Done r tr c' ∧
    TraverseSubtree ro k 0 c =
      Done () ((if r.2 then [visitNode r.1] else []) ++ tr) c'.
Proof.
  intros Hr. destruct (reachable_Inv c Hr) as [Hwf _]. split.
  { intros d Hd. unfold TraverseSubtree. destruct (keysMap c !! k); [|done].
    by rewrite traverse_negative. }
  unfold Get, TraverseSubtree. destruct (keysMap c !! k) as [n|] eqn:En.
  2:{ by do 3 eexists. }
  destruct (wf_keys _ _ Hwf k n En) as [_ Hkey].
  destruct (chain_total c (parent (heap c n)) Hwf) as (ns & E & Hnd).
  rewrite (chain_cons c n ns Hwf E).
  unfold chainFuel. simpl.
  change (chain (moveToFront n c) (parent (heap c n)))
    with (chain c (parent (heap c n))).
  rewrite E. do 3 eexists. split; [done|]. simpl.
  destruct (promote_fields ns (moveToFront n c)) as (_ & _ & _ & _ & Eh & _).
  unfold visitOf, visitNode, parentKey, node. simpl.
  rewrite Eh. simpl. by rewrite Hkey.
Qed.

(** ** Lookups and walks change the order only *)

Lemma reordered_Peek c c' k :
  reordered c c' → returned (Peek k c') = returned (Peek k c).
Proof.
  intros (_ & _ & Ekm & _ & Eh & _). unfold Peek, parentKey, node.
  rewrite Ekm, Eh. by destruct (keysMap c !! k).
Qed.

Lemma read_reordered c (o : call) c' :
  wf none c → isRead o = true → perform o c = Some c' → reordered c c'.
Proof.
  intros Hwf Ho Hstep. pose proof (wf_nodup _ _ Hwf) as Hnd.
  destruct o as [k|k|k v|k v pk|k v pk|k|k|k|ro k d|ro k]; try done; simpl in Hstep.
  - unfold Peek in Hstep. destruct (keysMap c !! k); injection Hstep as <-;
      apply reordered_refl.
  - unfold Get in Hstep. destruct (keysMap c !! k).
    2:{ injection Hstep as <-. apply reordered_refl. }
    destruct (chain c _) as [ns|]; [|done]. injection Hstep as <-.
    apply reordered_promote; [done|apply reordered_refl].
  - unfold PeekBranch in Hstep. destruct (keysMap c !! k).
    2:{ injection Hstep as <-. apply reordered_refl. }
    destruct (chain c _) as [ns|]; [|done]. rewrite fillBranch_spec in Hstep.
    injection Hstep as <-. apply reordered_refl.
  - unfold GetBranch in Hstep. destruct (keysMap c !! k).
    2:{ injection Hstep as <-. apply reordered_refl. }
    destruct (chain c _) as [ns|]; [|done]. rewrite fillBranch_spec in Hstep.
    injection Hstep as <-. apply reordered_promote; [done|apply reordered_refl].
  - unfold TraverseToRoot in Hstep. destruct (keysMap c !! k).
    2:{ injection Hstep as <-. apply reordered_refl. }
    destruct (chain c _) as [ns|]; [|done]. injection Hstep as <-.
    apply reordered_promote; [done|apply reordered_refl].
  - unfold TraverseSubtree in Hstep. destruct (keysMap c !! k) as [n|] eqn:En.
    2:{ injection Hstep as <-. apply reordered_refl. }
    destruct (wf_keys _ _ Hwf k n En) as [Hn _].
    destruct (traverse_spec ro d c Hwf (chainFuel c) n 0 [] c
                (λ q, parent (heap c n) = Some q))
      as (tr & c1 & E1 & Hre1 & Hwf1 & _ & _).
    + apply reordered_refl.
    + eapply wf_weaken; [done|]. by intros x [].
    + done.
    + left. split; [done|]. unfold fromBack, chainFuel.
      pose proof (length_bounded _ _ (wf_nodup _ _ Hwf) (wf_alloc _ _ Hwf)).
      pose proof (pos_le (lruList c) n). lia.
    + rewrite E1 in Hstep. destruct (chain c1 _) as [ns|]; [|done].
      injection Hstep as <-. apply reordered_promote; [by destruct Hwf1|done].
Qed.

(** X12.  The lookups and the walks ([Peek], [Get], [PeekBranch],
    [GetBranch], [TraverseToRoot], [TraverseSubtree]) only reorder the
    recency list: the key table, the nodes and the root are as before, and
    so are [Len] and what [Peek] returns for every key. *)
Theorem X12_reads_only_reorder c (o : call) c' :
  reachable c → isRead o = true → perform o c = Some c' →
  reordered c c' ∧ Len c' = Len c ∧
  ∀ k, returned (Peek k c') = returned (Peek k c).
Proof.
  intros Hr Ho Hstep. destruct (reachable_Inv c Hr) as [Hwf _].
  pose proof (read_reordered c o c' Hwf Ho Hstep) as Hre.
  split; [done|]. split.
  - unfold Len. by destruct Hre as (_ & _ & -> & _).
  - intros k. by apply reordered_Peek.
Qed.

(** ** Remove *)

Lemma forEach_rel {A S : Type} (body : A → S → option S) (R : S → S → Prop)
    (xs : list A) (s s' : S) :
  (∀ s0, R s0 s0) → (∀ s1 s2 s3, R s1 s2 → R s2 s3 → R s1 s3) →
  (∀ a s0 s1, body a s0 = Some s1 → R s0 s1) →
  forEach body xs s = Some s' → R s s'.
Proof.
  intros Hrefl Htrans Hbody. revert s. induction xs as [|a xs IH]; intros s; simpl.
  - intros [= <-]. apply Hrefl.
  - destruct (body a s) as [s1|] eqn:E; [|done]. intros Hs'.
    eapply Htrans; [by eapply Hbody|by apply IH].
Qed.

Lemma shrunk_refl (s : Z * Cache (K:=K) (V:=V)) : shrunk s s.
Proof. unfold shrunk. split_and!; try done; try lia. intros x. by left. Qed.

Lemma shrunk_trans (s1 s2 s3 : Z * Cache (K:=K) (V:=V)) :
  shrunk s1 s2 → shrunk s2 s3 → shrunk s1 s3.
Proof.
  intros (Hm1 & Hk1 & Hv1 & Hp1 & Hc1 & Hs1) (Hm2 & Hk2 & Hv2 & Hp2 & Hc2 & Hs2).
  unfold shrunk. split_and!.
  - by etrans.
  - intros x. by rewrite Hk2.
  - intros x. by rewrite Hv2.
  - intros x. destruct (Hp2 x) as [->|Hne]; [destruct (Hp1 x) as [->|Hne]|].
    + by left.
    + right. intros Hx. apply Hne. by eapply lookup_weaken.
    + right. by rewrite <- Hk1.
  - lia.
  - lia.
Qed.

Lemma removeRecursively_shrunk ro fuel n (s s' : Z * Cache (K:=K) (V:=V)) :
  removeRecursively ro fuel n s = Some s' →
  shrunk s s' ∧ s.1 + 1 ≤ s'.1 ∧
  keysMap s'.2 ⊆ delete (key (heap s.2 n)) (keysMap s.2).
Proof.
  revert n s s'. induction fuel as [|fuel IH]; intros n s s'; [done|]. simpl.
  unfold node.
  set (c3 := setLruList _ _).
  destruct (forEach _ _ _) as [s2|] eqn:E; [|done]. intros [= <-]. simpl.
  apply (forEach_rel _ shrunk) in E;
    [|apply shrunk_refl|apply shrunk_trans|intros a s0 s1 Hs; apply IH in Hs; apply Hs].
  assert (shrunk s (s.1 + 1, c3)) as Hstep.
  { unfold shrunk. simpl. split_and!.
    - apply delete_subseteq.
    - intros x. unfold store. by case_decide; subst.
    - intros x. unfold store. by case_decide; subst.
    - intros x. unfold store. case_decide; subst; [|by left]. right.
      by rewrite lookup_delete_eq.
    - lia.
    - rewrite map_size_delete. destruct (keysMap s.2 !! key (heap s.2 n)); simpl; lia. }
  pose proof (shrunk_trans _ _ _ Hstep E) as Hs2.
  destruct E as (Hm & _ & _ & _ & Hc & _). simpl in Hm, Hc.
  split; [|split; [lia|done]].
  destruct Hs2 as (Hm2 & Hk2 & Hv2 & Hp2 & Hc2 & Hsz2).
  unfold shrunk. simpl. unfold store. split_and!; try done.
  - intros x. case_decide; subst; simpl; apply Hk2.
  - intros x. case_decide; subst; simpl; apply Hv2.
  - intros x. case_decide; subst; simpl; apply Hp2.
Qed.

Lemma shrunk_Peek c (cnt0 cnt : Z) c1 k' p :
  wf none c → shrunk (cnt0, c) (cnt, c1) → keysMap c1 !! k' = Some p →
  returned (Peek k' c1) = returned (Peek k' c).
Proof.
  intros Hwf (Hm & Hk & Hv & Hp & _) Hk'. simpl in *. unfold Peek. rewrite Hk'.
  pose proof (lookup_weaken _ _ _ _ Hk' Hm) as Hk0. rewrite Hk0. simpl.
  destruct (wf_keys _ _ Hwf k' p Hk0) as [_ Hkp].
  unfold parentKey, node. rewrite Hv.
  destruct (Hp p) as [->|Hne]; [|by rewrite Hkp in Hne].
  destruct (parent (heap c p)); [|done]. by rewrite Hk.
Qed.

(** X13.  [Remove] of a present key returns a count of at least 1 and
    reports the new size; it drops the key and adds none, so the size falls,
    by no more than the count; the keys that remain are found with the value
    and the parent key they had; and a second [Remove] of the key returns 0
    and tells nothing. *)
Theorem X13_Remove_present ro c k n :
  reachable c → keysMap c !! k = Some n →
  ∃ cnt c',
    Remove ro k c = Done cnt [SetAmount (Len c')] c' ∧
    1 ≤ cnt ∧ Len c - Len c' ≤ cnt ∧ Len c' < Len c ∧
    keysMap c' ⊆ keysMap c ∧
    Peek k c' = Done (zeroCacheNode, false) [IncMisses] c' ∧
    (∀ k', is_Some (keysMap c' !! k') → returned (Peek k' c') = returned (Peek k' c)) ∧
    Remove ro k c' = Done 0 [] c'.
Proof.
  intros Hr En. destruct (reachable_Inv c Hr) as [Hwf _]. unfold Remove at 1. rewrite En.
  destruct (wf_keys _ _ Hwf k n En) as [Hn Hkey].
  destruct (removeRecursively_spec ro c Hwf (chainFuel c) n [] 0 c)
    as (cnt & c1 & E & Hwf1 & _ & Hsub & Hnot & _).
  - by apply (proj1 (wf_hide_nil c)).
  - intros x. by right.
  - left. split; [done|]. unfold fromBack, chainFuel.
    pose proof (length_bounded _ _ (wf_nodup _ _ Hwf) (wf_alloc _ _ Hwf)).
    pose proof (pos_le (lruList c) n). lia.
  - rewrite E. apply (proj2 (wf_hide_nil c1)) in Hwf1.
    unfold removeFromParent, node. rewrite (wf_out _ _ Hwf1 n Hnot).
    apply removeRecursively_shrunk in E as (Hsh & Hcnt & Hdel).
    pose proof Hsh as (Hm & Hk & Hv & Hp & _ & Hsz).
    simpl in *. rewrite Hkey in Hdel.
    assert (keysMap c1 !! k = None) as Hgone.
    { eapply lookup_weaken_None; [|exact Hdel]. apply lookup_delete_eq. }
    pose proof (map_subseteq_size _ _ Hdel) as Hle.
    rewrite map_size_delete_Some in Hle by by eexists.
    assert (size (keysMap c) ≠ 0%nat) as Hnz.
    { apply map_size_ne_0_lookup_2 with k. by eexists. }
    exists cnt, c1. unfold Len. split; [done|]. split_and!; try done; try lia.
    + unfold Peek. by rewrite Hgone.
    + intros k' [p Hk']. by eapply (shrunk_Peek c 0 cnt c1).
    + unfold Remove. by rewrite Hgone.
Qed.

(** X14.  [Remove] of a present key whose node has no children returns 1
    and removes that key and that node, and nothing else. *)
Theorem X14_Remove_leaf ro c k n :
  reachable c → keysMap c !! k = Some n → childrenOf (node c n) = ∅ →
  ∃ c', Remove ro k c = Done 1 [SetAmount (Len c - 1)] c' ∧
        keysMap c' = delete k (keysMap c) ∧
        lruList c' = lru.Remove n (lruList c) ∧
        Len c' = Len c - 1.
Proof.
  intros Hr En Hleaf. destruct (reachable_Inv c Hr) as [Hwf _].
  destruct (wf_keys _ _ Hwf k n En) as [Hn Hkey].
  assert (Z.of_nat (size (delete k (keysMap c))) = Len c - 1) as HLen.
  { unfold Len. rewrite map_size_delete_Some by by eexists.
    assert (size (keysMap c) ≠ 0%nat); [|lia].
    apply map_size_ne_0_lookup_2 with k. by eexists. }
  set (c1 := update n (setChildren None)
                (setLruList (lru.Remove n (lruList c))
                   (update n (setParent None)
                      (setKeysMap (delete k (keysMap c)) c)))).
  assert (removeRecursively ro (chainFuel c) n (0, c) = Some (1, c1)) as E.
  { unfold chainFuel. simpl. unfold node in *. rewrite Hkey.
    replace (store n (setParent None (heap c n)) (heap c) n)
      with (setParent None (heap c n)) by (unfold store; by rewrite decide_True).
    change (childrenOf (setParent None (heap c n))) with (childrenOf (heap c n)).
    rewrite Hleaf.
    assert (entries ro (∅ : gmap K ptr) = []) as ->; [|done].
    apply Permutation_nil_r. rewrite (entries_perm ro). by rewrite map_to_list_empty. }
  assert (removeFromParent n c1 = c1) as Hsame.
  { unfold removeFromParent, node.
    replace (parent (heap c1 n)) with (@None ptr); [done|].
    simpl. unfold store. by rewrite !decide_True. }
  unfold Remove. rewrite En, E, Hsame. exists c1.
  assert (Len c1 = Len c - 1) as HLen1 by (unfold Len at 1; simpl; by rewrite HLen).
  rewrite HLen1. done.
Qed.

(** ** AddOrUpdate *)

Lemma chain_tail c n ns :
  chain c (Some n) = Some (n :: ns) → chain c (parent (heap c n)) = Some ns.
Proof.
  unfold chain, chainFuel. intros Hc. simpl in Hc.
  destruct (ancestors (next c) (heap c) (parent (heap c n))) as [ns'|] eqn:E; [|done].
  simpl in Hc. injection Hc as <-. eapply ancestors_mono; [exact E|lia].
Qed.

Lemma reparent_val k n par m c x :
  val (heap (reparent k n par m c) x) = val (heap c x).
Proof.
  unfold reparent. simpl. unfold store.
  repeat (case_decide; simplify_eq; simpl); by rewrite removeFromParent_val.
Qed.

(** X15.  [AddOrUpdate] of a present key under a present parent either
    returns [ErrCycleDetected] and changes nothing, and then the new parent
    is the node itself or one of its strict descendants; or it returns nil
    without evicting, and then the new parent is neither: the size it
    reports is the one before, the key table is unchanged, [Peek] finds the
    key with the new value and parent key, and its branch is the branch of
    the new parent followed by it. *)
Theorem X15_AddOrUpdate_present c k v pk n par :
  reachable c → keysMap c !! k = Some n → keysMap c !! pk = Some par →
  (AddOrUpdate k v pk c = Done (Some ErrCycleDetected) [] c ∧
   (par = n ∨ strictDescendant c par n)) ∨
  (∃ branch c',
     PeekBranch pk c = Done branch [IncHits] c ∧
     AddOrUpdate k v pk c = Done None [SetAmount (Len c)] c' ∧
     keysMap c' = keysMap c ∧
     Peek k c' = Done (mkCacheNode k v pk, true) [IncHits] c' ∧
     PeekBranch k c' = Done (branch ++ [mkCacheNode k v pk]) [IncHits] c' ∧
     ¬ (par = n ∨ strictDescendant c par n)).
Proof.
  intros Hr En Epar. pose proof (reachable_Inv c Hr) as Hinv.
  pose proof Hinv as [Hwf Hcap]. unfold AddOrUpdate. rewrite Epar, En.
  destruct (wf_keys _ _ Hwf pk par Epar) as [Hpar Hpkey].
  destruct (wf_keys _ _ Hwf k n En) as [Hn Hkey].
  destruct (chain_total c (Some par) Hwf) as (ns & E & Hnd).
  assert (PeekBranch pk c = Done (rev (map (cacheNodeOf c) ns)) [IncHits] c) as Hbranch.
  { unfold PeekBranch. by rewrite Epar, E, fillBranch_spec. }
  assert (∀ c3,
    wf (λ x, x = par) c3 → n ∉ ns →
    lruList c3 = lruList c → maxEntries c3 = maxEntries c →
    next c3 = next c → keysMap c3 = keysMap c →
    parent (heap c3 n) = Some par →
    (∀ x, key (heap c3 x) = key (heap c x)) →
    (∀ x, val (heap c3 x) = val (heap c x)) →
    (∀ x, x ∈ ns → parent (heap c3 x) = parent (heap c x)) →
    ∃ c', finishAdd n (moveToFront n (update n (setVal v) c3)) =
            Done None [SetAmount (Len c)] c' ∧
          keysMap c' = keysMap c ∧
          Peek k c' = Done (mkCacheNode k v pk, true) [IncHits] c' ∧
          PeekBranch k c' =
            Done (rev (map (cacheNodeOf c) ns) ++ [mkCacheNode k v pk]) [IncHits] c')
    as Hfinish.
  { intros c3 Hwf3 Hnns El Em Enx Ekm Hp Hk3 Hv3 Hns.
    set (c5 := moveToFront n (update n (setVal v) c3)).
    assert (∀ x, parent (heap c5 x) = parent (heap c3 x)) as Hp5.
    { intros x. simpl. unfold store. by case_decide; subst. }
    assert (ancestors (chainFuel c) (heap c5) (Some par) = Some ns) as E5.
    { eapply ancestors_ext; [exact E|]. intros p Hp'. rewrite Hp5. auto. }
    assert (chainFuel c5 = chainFuel c) as Hfuel.
    { unfold chainFuel. simpl. by rewrite Enx. }
    assert (promoteAncestors n c5 = Some (promote ns c5)) as Hprom.
    { unfold promoteAncestors, node, chain. by rewrite Hp5, Hp, Hfuel, E5. }
    unfold finishAdd. rewrite Hprom.
    destruct (promote_fields ns c5) as (Em5 & _ & Ekm5 & _ & Eh5 & Enx5).
    assert (wf none (promote ns c5)) as Hwf6.
    { eapply wf_promote; [exact E5|].
      eapply wf_moveToFront; [apply wf_setVal; exact Hwf3| |].
      + simpl. unfold store. rewrite decide_True by done. simpl. naive_solver.
      + by intros x ->. }
    assert (Len (promote ns c5) = Len c) as HLen.
    { unfold Len. rewrite Ekm5. simpl. by rewrite Ekm. }
    rewrite settle_room.
    2:{ unfold overCapacity, lru.Len. rewrite Em5. simpl. rewrite Em.
        rewrite promote_length; simpl.
        - rewrite length_MoveToFront; rewrite El; [|by destruct Hwf].
          intros [Hpos Hlt]. specialize (Hcap Hpos). unfold lru.Len in Hcap. lia.
        - apply NoDup_MoveToFront. rewrite El. by destruct Hwf. }
    assert (cacheNodeOf (promote ns c5) n = mkCacheNode k v pk) as Hnode.
    { unfold cacheNodeOf, parentKey, node. rewrite Eh5. simpl. unfold store.
      rewrite !decide_True by done. simpl. rewrite Hp, Hk3, Hkey.
      destruct (decide (par = n)) as [Heq|Hneq]; simpl; rewrite Hk3;
        [by rewrite <- Heq, Hpkey|by rewrite Hpkey]. }
    eexists. rewrite HLen. split; [done|]. rewrite Ekm5. simpl. split; [done|]. split.
    - unfold Peek. rewrite Ekm5. simpl. rewrite Ekm, En.
      unfold cacheNodeOf in Hnode. by injection Hnode as _ -> ->.
    - assert (chain (promote ns c5) (Some n) = Some (n :: ns)) as E6.
      { apply chain_cons; [done|]. unfold chain, chainFuel.
        rewrite Eh5, Enx5. fold (chainFuel c5). by rewrite Hp5, Hp, Hfuel. }
      unfold PeekBranch. rewrite Ekm5. simpl. rewrite Ekm, En, E6, fillBranch_spec.
      simpl. rewrite Hnode. do 3 f_equal. apply map_ext_in. intros x Hx%list_elem_of_In.
      assert (x ≠ n) as Hxn by (intros ->; done).
      unfold cacheNodeOf, parentKey, node. rewrite Eh5. simpl. unfold store.
      rewrite (decide_False (P := x = n)) by done. rewrite Hk3, Hv3, (Hns x Hx).
      destruct (parent (heap c x)) as [q|]; [|done].
      destruct (decide (q = n)) as [Heq|Hneq]; simpl; by rewrite Hk3, ?Heq. }
  case_decide as Hsame.
  - right.
    assert (¬ (par = n ∨ strictDescendant c par n)) as Hnot.
    { pose proof (rank_parent c n par Hwf Hsame) as Hlt.
      intros [->|Hd]; [lia|].
      pose proof (strictDescendant_rank c par n Hwf Hd). lia. }
    destruct (Hfinish c) as (c' & -> & Ekm' & HPeek & HBranch); try done.
    + eapply wf_weaken; [done|]. by intros x [].
    + intros Hin. apply Hnot. pose proof E as Ehead.
      apply ancestors_head in Ehead as [ns' ->].
      apply elem_of_cons in Hin as [->|Hin]; [by left|]. right.
      exists ns'. split; [by apply chain_tail|done].
    + exists (rev (map (cacheNodeOf c) ns)), c'. by split_and!.
  - rewrite (meets_ancestors _ _ _ _ n E).
    pose proof E as Ehead. apply ancestors_head in Ehead as [ns' ->].
    pose proof (chain_tail c par ns' E) as Etail.
    case_bool_decide as Hmeet.
    { left. split; [done|]. apply elem_of_cons in Hmeet as [->|Hin]; [by left|].
      right. exists ns'. split; [done|done]. }
    right.
    assert (par ≠ n) as Hne by (intros ->; set_solver).
    destruct (wf_maps _ _ Hwf par Hpar) as [m Hm].
    unfold insertChild, node. simpl. unfold store at 1.
    rewrite decide_False by done. rewrite removeFromParent_children.
    rewrite decide_False by done. rewrite Hm.
    fold (reparent k n par m c).
    destruct (reparent_fields k n par m c) as (Em & _ & Ekm & El & _ & Enx).
    destruct (Hfinish (reparent k n par m c)) as (c' & -> & Ekm' & HPeek & HBranch);
      try done.
    + by apply wf_reparent.
    + rewrite reparent_parent by done. by rewrite decide_True.
    + intros x. apply reparent_key.
    + intros x. apply reparent_val.
    + intros x Hx. rewrite reparent_parent by done. rewrite decide_False; [done|].
      by intros ->.
    + exists (rev (map (cacheNodeOf c) (par :: ns'))), c'. split_and!; try done.
      intros [->|(ns0 & E0 & Hin)]; [done|].
      unfold node in E0. rewrite Etail in E0. injection E0 as <-. set_solver.
Qed.

(** ** Caches on which [Remove] was never called *)

Lemma tree_ext c c' :
  tree c →
  keysMap c' = keysMap c → (∀ x, x ∈ lruList c' ↔ x ∈ lruList c) → root c' = root c →
  (∀ x, key (heap c' x) = key (heap c x)) →
  (∀ x, parent (heap c' x) = parent (heap c x)) →
  (∀ x, children (heap c' x) = children (heap c x)) →
  tree c'.
Proof.
  intros [] Ekm El Er Hk Hp Hc. constructor.
  - intros p. rewrite El, Ekm, Hk. auto.
  - intros p q. rewrite !El, Hp, Hc, Hk. auto.
  - intros p m k ch. rewrite !El, Hc. eauto.
  - intros p. rewrite El, Er, Hp. auto.
  - intros r. rewrite El, Er. auto.
Qed.

Lemma tree_reordered c c' : tree c → reordered c c' → tree c'.
Proof.
  intros Ht (_ & _ & Ekm & Er & Eh & _ & Ep).
  eapply tree_ext; try done; try (intros x; by rewrite Eh).
  intros x. by rewrite Ep.
Qed.

Lemma tree_NewCache (m : Z) (e : bool) : tree (NewCache (K:=K) (V:=V) m e).
Proof.
  constructor; simpl; try done; intros p; rewrite elem_of_nil; by intros.
Qed.

Lemma tree_AddRoot k v c r tr c' :
  wf none c → tree c → AddRoot k v c = Done r tr c' → tree c'.
Proof.
  intros Hwf Ht. unfold AddRoot. destruct (root c) eqn:Hroot.
  { by intros [= _ _ <-]. }
  simpl. intros [= _ _ <-].
  pose proof (wf_root _ _ Hwf Hroot) as Hl.
  constructor; simpl; rewrite Hl; unfold lru.PushFront, store.
  - intros p ->%list_elem_of_singleton. rewrite decide_True by done. simpl.
    apply lookup_insert_eq.
  - intros p q ->%list_elem_of_singleton. by rewrite decide_True.
  - intros p m k' ch ->%list_elem_of_singleton. rewrite decide_True by done. simpl.
    intros [= <-]. by rewrite lookup_empty.
  - by intros p ->%list_elem_of_singleton.
  - intros r0 [= <-]. set_solver.
Qed.

Lemma linkNew_children k v par c m n c4 x :
  wf none c → par ∈ lruList c → children (heap c par) = Some m →
  linkNew k v par c = Some (n, c4) →
  children (heap c4 x) =
  if decide (x = par) then Some (<[k := next c]> m)
  else if decide (x = next c) then Some ∅ else children (heap c x).
Proof.
  intros Hwf Hpar Hm. pose proof (wf_alloc _ _ Hwf par Hpar) as Hlt.
  unfold linkNew, insertChild, node. simpl. unfold store at 1.
  rewrite decide_False by lia. rewrite Hm. simpl. intros [= _ <-]. simpl.
  unfold store. by repeat (case_decide; simplify_eq; simpl).
Qed.

Lemma tree_linkNew k v par c n c4 :
  wf none c → tree c → par ∈ lruList c → keysMap c !! k = None →
  linkNew k v par c = Some (n, c4) → tree c4.
Proof.
  intros Hwf Ht Hpar Hk Hlink.
  destruct (linkNew_spec k v par c Hwf Hpar) as (c4' & Hlink' & Hl & _).
  rewrite Hlink in Hlink'. injection Hlink' as -> <-.
  destruct (wf_maps _ _ Hwf par Hpar) as [m Hm].
  pose proof (λ x, linkNew_children k v par c m _ c4 x Hwf Hpar Hm Hlink) as Hch.
  pose proof (wf_alloc _ _ Hwf) as Halloc.
  assert (∀ p, p ∈ lruList c → key (heap c p) ≠ k) as Hfresh.
  { intros p Hp Hkp. pose proof (tree_keys _ Ht p Hp) as Hkm. congruence. }
  destruct Ht. constructor;
    rewrite ?(linked_keysMap _ _ _ _ _ Hl), ?(linked_lruList _ _ _ _ _ Hl),
      ?(linked_root _ _ _ _ _ Hl).
  - intros p. rewrite (linked_key _ _ _ _ _ Hl).
    intros [->|Hp]%elem_of_cons.
    + rewrite decide_True by done. apply lookup_insert_eq.
    + specialize (Halloc p Hp). rewrite decide_False by lia.
      rewrite lookup_insert_ne by (apply not_eq_sym; auto). auto.
  - intros p q. rewrite (linked_key _ _ _ _ _ Hl), (linked_parent _ _ _ _ _ Hl), Hch.
    intros [->|Hp]%elem_of_cons.
    + rewrite !decide_True by done. intros [= <-]. split; [set_solver|].
      rewrite decide_True by done. eexists. split; [done|].
      rewrite decide_True by done. apply lookup_insert_eq.
    + specialize (Halloc p Hp) as Hlt.
      rewrite !(decide_False (P := p = next c)) by lia. intros Hq.
      destruct (tree_parent0 p q Hp Hq) as (HqL & m0 & Hm0 & Hlook).
      split; [set_solver|]. specialize (Halloc q HqL).
      case_decide as Hqp.
      * subst q. rewrite Hm in Hm0. injection Hm0 as <-. eexists. split; [done|].
        rewrite lookup_insert_ne by (apply not_eq_sym; auto). done.
      * rewrite decide_False by lia. eauto.
  - intros p m' k' ch. rewrite Hch. intros Hp Hm' Hk'.
    case_decide as Hpp.
    + subst p. injection Hm' as <-.
      apply lookup_insert_Some in Hk' as [[_ <-]|[_ Hk']]; [set_solver|].
      apply elem_of_cons. right. by eapply tree_children0.
    + case_decide as Hpn.
      * injection Hm' as <-. by rewrite lookup_empty in Hk'.
      * apply elem_of_cons in Hp as [->|Hp]; [done|].
        apply elem_of_cons. right. by eapply tree_children0.
  - intros p. rewrite (linked_parent _ _ _ _ _ Hl).
    intros [->|Hp]%elem_of_cons.
    + by rewrite decide_True.
    + specialize (Halloc p Hp). rewrite decide_False by lia. auto.
  - intros r Hr. apply elem_of_cons. right. auto.
Qed.

(** The root is at the front of the list. *)
Lemma root_front c r :
  wf none c → tree c → root c = Some r → head (lruList c) = Some r.
Proof.
  intros Hwf Ht Hr. pose proof (tree_root _ Ht r Hr) as HrL.
  assert (∀ (m : nat) p, (pos (lruList c) p < m)%nat → p ∈ lruList c → p ≠ r →
                         before (lruList c) r p) as Hbefore.
  { induction m as [|m IH]; intros p Hm Hp Hne; [lia|].
    destruct (parent (heap c p)) as [q|] eqn:Eq.
    2:{ pose proof (tree_top _ Ht p Hp Eq). congruence. }
    destruct (tree_parent _ Ht p q Hp Eq) as [Hq _].
    pose proof (ordered_none _ _ _ _ (wf_ordered _ _ Hwf) Hp Eq Hq) as Hb.
    destruct (decide (q = r)) as [->|Hqr]; [done|].
    eapply before_trans; [|exact Hb]. apply IH; [|done..].
    destruct Hb as (_ & _ & Hlt). lia. }
  destruct (lruList c) as [|x l] eqn:El; [by apply elem_of_nil in HrL|]. simpl.
  destruct (decide (x = r)) as [->|Hne]; [done|].
  destruct (Hbefore (S (pos (x :: l) x)) x) as (_ & _ & Hlt); [lia|set_solver|done|].
  simpl in Hlt. rewrite (decide_True (P := x = x)) in Hlt by done. lia.
Qed.

(** What is at the back of the list has no children. *)
Lemma back_is_leaf c t :
  wf none c → tree c → lru.Back (lruList c) = Some t →
  children (heap c t) = Some ∅.
Proof.
  intros Hwf Ht Hback.
  assert (t ∈ lruList c) as HtL by by apply last_Some_elem_of.
  destruct (wf_maps _ _ Hwf t HtL) as [m Hm]. rewrite Hm. f_equal.
  apply map_empty. intros k. destruct (m !! k) as [ch|] eqn:Ek; [|done].
  pose proof (tree_children _ Ht t m k ch HtL Hm Ek) as Hch.
  destruct (wf_children _ _ Hwf t m k ch Hm Ek) as (_ & _ & Hin & _).
  by destruct (back_is_parent_of_no_node c t ch Hwf Hback (Hin Hch)).
Qed.

Lemma tree_evict c :
  wf none c → tree c → (2 ≤ length (lruList c))%nat → tree (evict c).1.
Proof.
  intros Hwf Ht Hlen.
  destruct (lru.Back (lruList c)) as [t|] eqn:Hback.
  2:{ apply last_None in Hback. rewrite Hback in Hlen. simpl in Hlen. lia. }
  rewrite (evict_tail c t Hback). simpl.
  set (c2 := setKeysMap _ _).
  destruct (removeFromParent_fields t c2) as (_ & _ & Ekm & El & Er & _).
  assert (t ∈ lruList c) as HtL by by apply last_Some_elem_of.
  assert (∀ p, p ∈ lruList c → p ≠ t → key (heap c p) ≠ key (heap c t)) as Hkeys.
  { intros p Hp Hne Hk. pose proof (tree_keys _ Ht p Hp) as Hkp.
    pose proof (tree_keys _ Ht t HtL) as Hkt. congruence. }
  constructor; rewrite ?Ekm, ?El, ?Er; subst c2; simpl.
  - intros p [Hp Hne]%elem_of_Remove. rewrite removeFromParent_key. simpl.
    rewrite lookup_delete_ne by (apply not_eq_sym; auto). by apply tree_keys.
  - intros p q [Hp Hne]%elem_of_Remove.
    rewrite removeFromParent_parent, removeFromParent_children, removeFromParent_key.
    simpl. rewrite decide_False by done. intros Hq.
    destruct (tree_parent _ Ht p q Hp Hq) as (HqL & m & Hm & Hlook).
    split.
    + apply elem_of_Remove. split; [done|]. intros ->.
      by destruct (back_is_parent_of_no_node c t p Hwf Hback).
    + rewrite Hm. case_decide; simpl; eexists; (split; [done|]); [|done].
      rewrite lookup_delete_ne by (apply not_eq_sym; auto). done.
  - intros p m k ch [Hp Hne]%elem_of_Remove. rewrite removeFromParent_children. simpl.
    intros Hm Hk.
    assert (∃ m0, children (heap c p) = Some m0 ∧ m0 !! k = Some ch ∧
                  (parent (heap c t) = Some p → k ≠ key (heap c t)))
      as (m0 & Hm0 & Hk0 & Hkt).
    { case_decide as Hpar.
      - destruct (children (heap c p)) as [m0|]; [|done]. simpl in Hm.
        injection Hm as <-. apply lookup_delete_Some in Hk as [? ?]. eauto.
      - exists m. by repeat split. }
    pose proof (tree_children _ Ht p m0 k ch Hp Hm0 Hk0) as Hch.
    apply elem_of_Remove. split; [done|]. intros ->.
    destruct (wf_children _ _ Hwf p m0 k t Hm0 Hk0) as (_ & Hkey & Hin & _).
    specialize (Hin HtL). specialize (Hkt Hin). congruence.
  - intros p [Hp Hne]%elem_of_Remove. rewrite removeFromParent_parent. simpl.
    rewrite decide_False by done. by apply tree_top.
  - intros r Hr. pose proof (root_front c r Hwf Ht Hr) as Hhead.
    apply elem_of_Remove. split; [by apply tree_root|]. intros ->.
    apply last_Some in Hback as [l El']. rewrite El' in Hhead, Hlen.
    destruct l as [|x l]; [simpl in Hlen; lia|]. simpl in Hhead. injection Hhead as ->.
    pose proof (wf_nodup _ _ Hwf) as Hnd. rewrite El' in Hnd.
    apply NoDup_cons in Hnd as [Hnd _]. set_solver.
Qed.

Lemma tree_settle c r tr c' :
  wf none c → tree c → settle c = Done r tr c' → tree c'.
Proof.
  intros Hwf Ht. unfold settle. case_decide as Hover.
  - destruct (evict c) as [c1 [ev b]] eqn:E. intros [= _ _ <-].
    replace c1 with (evict c).1 by by rewrite E. apply tree_evict; [done..|].
    destruct Hover as [Hpos Hlt]. unfold lru.Len in Hlt. lia.
  - by intros [= _ _ <-].
Qed.

Lemma tree_finishAdd n c start r tr c' :
  parent (heap c n) = start → wf (λ x, start = Some x) c → tree c →
  finishAdd n c = Done r tr c' → tree c'.
Proof.
  intros Hp Hwf Ht. unfold finishAdd, promoteAncestors, node. rewrite Hp.
  destruct (chain c start) as [ns|] eqn:E; [|done]. simpl.
  apply tree_settle.
  - by eapply wf_promote.
  - eapply tree_reordered; [done|].
    apply reordered_promote; [by destruct Hwf|apply reordered_refl].
Qed.

Lemma tree_addNew k v par c r tr c' :
  wf none c → tree c → par ∈ lruList c → keysMap c !! k = None →
  addNew k v par c = Done r tr c' → tree c'.
Proof.
  intros Hwf Ht Hpar Hk. unfold addNew.
  destruct (linkNew_spec k v par c Hwf Hpar) as (c4 & Hlink & Hl & Hwf4).
  rewrite Hlink. apply (tree_finishAdd _ _ (Some par)).
  - by rewrite (linked_parent _ _ _ _ _ Hl), decide_True.
  - eapply wf_weaken; [done|]. by intros x ->.
  - by eapply tree_linkNew.
Qed.

Lemma tree_reparent k n par m c :
  wf none c → tree c → keysMap c !! k = Some n → par ∈ lruList c → par ≠ n →
  children (heap c par) = Some m →
  tree (reparent k n par m c).
Proof.
  intros Hwf Ht Hk Hpar Hne Hm.
  destruct (wf_keys _ _ Hwf k n Hk) as [Hn Hkey].
  destruct (reparent_fields k n par m c) as (_ & _ & Ekm & El & Er & _).
  assert (∀ p, p ∈ lruList c → p ≠ n → key (heap c p) ≠ k) as Hkeys.
  { intros p Hp Hpn Hkp. pose proof (tree_keys _ Ht p Hp) as Hkm. congruence. }
  constructor; rewrite ?Ekm, ?El, ?Er.
  - intros p. rewrite reparent_key. by apply tree_keys.
  - intros p q Hp. rewrite reparent_key, reparent_parent, reparent_children by done.
    case_decide as Hpn.
    + subst p. intros [= <-]. split; [done|]. rewrite decide_True by done.
      eexists. split; [done|]. rewrite Hkey. apply lookup_insert_eq.
    + intros Hq. destruct (tree_parent _ Ht p q Hp Hq) as (HqL & m0 & Hm0 & Hlook).
      split; [done|]. rewrite Hm0.
      destruct (decide (q = par)) as [->|Hqp].
      * rewrite Hm in Hm0. injection Hm0 as <-. eexists. split; [done|].
        rewrite lookup_insert_ne by (apply not_eq_sym; auto). done.
      * destruct (decide (parent (heap c n) = Some q)) as [Hnq|Hnq]; simpl.
        -- eexists. split; [done|]. rewrite Hkey.
           rewrite lookup_delete_ne by (apply not_eq_sym; auto). done.
        -- eauto.
  - intros p m' k' ch Hp. rewrite reparent_children by done. intros Hm' Hk'.
    repeat case_decide; simplify_eq.
    + apply lookup_insert_Some in Hk' as [[_ <-]|[_ Hk']]; [done|].
      by eapply (tree_children _ Ht par).
    + destruct (children (heap c p)) as [m0|] eqn:Hm0; [|done]. simpl in Hm'.
      injection Hm' as <-. apply lookup_delete_Some in Hk' as [_ Hk'].
      by eapply (tree_children _ Ht p).
    + by eapply (tree_children _ Ht p).
  - intros p Hp. rewrite reparent_parent by done. case_decide; [done|].
    by apply tree_top.
  - by apply tree_root.
Qed.

Lemma tree_AddOrUpdate k v pk c r tr c' :
  wf none c → tree c → AddOrUpdate k v pk c = Done r tr c' → tree c'.
Proof.
  intros Hwf Ht. unfold AddOrUpdate.
  destruct (keysMap c !! pk) as [par|] eqn:Epar; [|by intros [= _ _ <-]].
  destruct (wf_keys _ _ Hwf pk par Epar) as [Hpar _].
  destruct (keysMap c !! k) as [n|] eqn:En; [|by apply tree_addNew].
  destruct (wf_keys _ _ Hwf k n En) as [Hn Hkey].
  assert (∀ c3,
    wf (λ x, x = par) c3 → tree c3 → parent (heap c3 n) = Some par →
    finishAdd n (moveToFront n (update n (setVal v) c3)) = Done r tr c' →
    tree c') as Hfinish.
  { intros c3 Hwf3 Ht3 Hp. apply (tree_finishAdd _ _ (Some par)).
    - simpl. unfold store. by rewrite decide_True.
    - eapply wf_moveToFront; [apply wf_setVal; exact Hwf3| |].
      + simpl. unfold store. rewrite decide_True by done. simpl. naive_solver.
      + by intros x ->.
    - eapply tree_ext; [exact Ht3|done| |done|..]; simpl.
      + intros x. apply elem_of_MoveToFront.
      + intros x. unfold store. by case_decide; subst.
      + intros x. unfold store. by case_decide; subst.
      + intros x. unfold store. by case_decide; subst. }
  case_decide as Hsame.
  - apply Hfinish; [|done..]. eapply wf_weaken; [done|]. by intros x [].
  - destruct (chain_total c (Some par) Hwf) as (ns & E & Hnd).
    rewrite (meets_ancestors _ _ _ _ n E).
    case_bool_decide as Hmeet; [by intros [= _ _ <-]|].
    assert (par ≠ n) as Hne.
    { intros ->. apply Hmeet. apply ancestors_head in E as [ns' ->]. set_solver. }
    destruct (wf_maps _ _ Hwf par Hpar) as [m Hm].
    unfold insertChild, node. simpl. unfold store at 1.
    rewrite decide_False by done. rewrite removeFromParent_children.
    rewrite decide_False by done. rewrite Hm.
    fold (reparent k n par m c). apply Hfinish.
    + by apply wf_reparent.
    + by apply tree_reparent.
    + rewrite reparent_parent by done. by rewrite decide_True.
Qed.


Lemma perform_tree (o : call) c c' :
  wf none c → tree c → isRemove o = false → perform o c = Some c' → tree c'.
Proof.
  intros Hwf Ht Ho Hstep. destruct (isRead o) eqn:Hread.
  { eapply tree_reordered; [done|]. by eapply read_reordered. }
  destruct o as [k|k|k v|k v pk|k v pk|k|k|k|ro k d|ro k]; try done; simpl in Hstep.
  - destruct (AddRoot k v c) as [r tr c0| |] eqn:E; [|done..].
    injection Hstep as <-. by eapply tree_AddRoot.
  - destruct (Add k v pk c) as [r tr c0| |] eqn:E; [|done..].
    injection Hstep as <-. unfold Add in E.
    destruct (keysMap c !! pk) as [par|] eqn:Epar; [|by injection E as _ _ <-].
    destruct (keysMap c !! k) eqn:Ek; [by injection E as _ _ <-|].
    eapply tree_addNew; [done..| |done|exact E]. by eapply wf_keys.
  - destruct (AddOrUpdate k v pk c) as [r tr c0| |] eqn:E; [|done..].
    injection Hstep as <-. by eapply tree_AddOrUpdate.
Qed.

Lemma intact_reachable c : intact c → reachable c.
Proof.
  induction 1 as [m e|c o c' _ IH _ Hstep]; [apply reachable_new|].
  by eapply reachable_call.
Qed.

Lemma runAll_intact (os : list call) c :
  intact c → forallb (λ o, negb (isRemove o)) os = true → intact (runAll os c).
Proof.
  revert c. induction os as [|o os IH]; intros c Hi Hos; [done|]. simpl in *.
  apply andb_prop in Hos as [Ho Hos]. apply IH; [|done].
  destruct (perform_Inv o c (reachable_Inv c (intact_reachable c Hi))) as (c' & E & _).
  rewrite E. simpl. eapply intact_call; [done| |done]. by destruct (isRemove o).
Qed.

Lemma intact_tree c : intact c → tree c.
Proof.
  induction 1 as [m e|c o c' Hi IH Ho Hstep]; [apply tree_NewCache|].
  eapply perform_tree; [|done..].
  apply reachable_Inv. by apply intact_reachable.
Qed.

(** The chain of a node of the list stays in the list and ends with the
    root. *)
Lemma tree_chain c :
  tree c →
  ∀ fuel p ns, p ∈ lruList c → ancestors fuel (heap c) (Some p) = Some ns →
               (∀ x, x ∈ ns → x ∈ lruList c) ∧ last ns = root c.
Proof.
  intros Ht. induction fuel as [|fuel IH]; intros p ns Hp; [done|]. simpl.
  destruct (ancestors fuel (heap c) (parent (heap c p))) as [ns'|] eqn:E; [|done].
  simpl. intros [= <-].
  destruct (parent (heap c p)) as [q|] eqn:Eq.
  - destruct (tree_parent _ Ht p q Hp Eq) as [Hq _].
    destruct (IH q ns' Hq E) as [Hin Hlast].
    split; [intros x [->|Hx]%elem_of_cons; auto|].
    rewrite last_cons, Hlast. destruct (root c) eqn:Hr; [done|].
    apply last_None in Hlast. subst ns'.
    apply ancestors_head in E as [? [=]].
  - assert (ns' = []) as -> by (destruct fuel; simpl in E; by injection E as <-).
    split; [intros x ->%list_elem_of_singleton; done|].
    simpl. symmetry. by apply tree_top.
Qed.

Lemma head_rev_map {A B : Type} (f : A → B) (l : list A) :
  head (rev (map f l)) = f <$> last l.
Proof.
  destruct l as [|x l _] using rev_ind; [done|].
  by rewrite map_app, rev_app_distr, last_snoc.
Qed.

Lemma list_elem_of_map {A B : Type} (f : A → B) (l : list A) (y : B) :
  y ∈ map f l ↔ ∃ a, y = f a ∧ a ∈ l.
Proof.
  rewrite list_elem_of_In, in_map_iff. split; intros (a & Ha & Hin); exists a;
    by rewrite ?list_elem_of_In in *.
Qed.

(** X16.  In a cache on which [Remove] was never called, the branch of a
    present key begins with the root, and every entry of it is present:
    [Peek] of its key returns that very entry. *)
Theorem X16_ancestors_are_present c k n :
  intact c → keysMap c !! k = Some n →
  ∃ branch r,
    PeekBranch k c = Done branch [IncHits] c ∧
    root c = Some r ∧ head branch = Some (cacheNodeOf c r) ∧
    ∀ e, e ∈ branch → Peek (Key e) c = Done (e, true) [IncHits] c.
Proof.
  intros Hi En. pose proof (intact_tree c Hi) as Ht.
  destruct (reachable_Inv c (intact_reachable c Hi)) as [Hwf _].
  destruct (wf_keys _ _ Hwf k n En) as [Hn _].
  destruct (chain_total c (Some n) Hwf) as (ns & E & _).
  destruct (tree_chain c Ht _ n ns Hn E) as [Hin Hlast].
  unfold PeekBranch. rewrite En, E, fillBranch_spec.
  destruct (root c) as [r|] eqn:Hr.
  2:{ apply last_None in Hlast. subst ns. apply ancestors_head in E as [? [=]]. }
  exists (rev (map (cacheNodeOf c) ns)), r. split; [done|]. split; [done|].
  split; [by rewrite head_rev_map, Hlast|].
  intros e (x & -> & Hx)%list_elem_of_rev%list_elem_of_map.
  unfold Peek, cacheNodeOf, node. simpl.
  by rewrite (tree_keys _ Ht x (Hin x Hx)).
Qed.

(** X17.  In a cache on which [Remove] was never called, the root is at the
    front of the recency list and is present: it is never evicted. *)
Theorem X17_root_is_most_recent c :
  intact c →
  head (lruList c) = root c ∧
  ∀ r, root c = Some r → Peek (key (node c r)) c = Done (cacheNodeOf c r, true) [IncHits] c.
Proof.
  intros Hi. pose proof (intact_tree c Hi) as Ht.
  destruct (reachable_Inv c (intact_reachable c Hi)) as [Hwf _]. split.
  - destruct (root c) as [r|] eqn:Hr; [by apply root_front|].
    by rewrite (wf_root _ _ Hwf Hr).
  - intros r Hr. unfold Peek, node.
    by rewrite (tree_keys _ Ht r (tree_root _ Ht r Hr)).
Qed.

(** X18.  In a cache on which [Remove] was never called, the recency list
    and the key table hold the same entries: [Len] is the length of the
    list, and [getLRUOrder] lists the keys of the key table, each once. *)
Theorem X18_keys_and_list_agree c :
  intact c →
  Len c = lru.Len (lruList c) ∧ NoDup (getLRUOrder c) ∧
  ∀ k, k ∈ getLRUOrder c ↔ is_Some (keysMap c !! k).
Proof.
  intros Hi. pose proof (intact_tree c Hi) as Ht.
  destruct (reachable_Inv c (intact_reachable c Hi)) as [Hwf _].
  assert (NoDup (getLRUOrder c)) as Hnd.
  { unfold getLRUOrder, node.
    apply (NoDup_fmap_2_strong (λ p, key (heap c p))); [|by destruct Hwf].
    intros p q Hp Hq Hk. pose proof (tree_keys _ Ht p Hp) as Hkp.
    pose proof (tree_keys _ Ht q Hq) as Hkq. rewrite Hk in Hkp. congruence. }
  assert (∀ k, k ∈ getLRUOrder c ↔ is_Some (keysMap c !! k)) as Hel.
  { intros k. unfold getLRUOrder, node. rewrite list_elem_of_map. split.
    - intros (p & -> & Hp). rewrite (tree_keys _ Ht p Hp). by eexists.
    - intros [p Hp]. destruct (wf_keys _ _ Hwf k p Hp) as [HpL Hk]. by exists p. }
  split; [|done].
  assert (getLRUOrder c ≡ₚ (map_to_list (keysMap c)).*1) as Hperm.
  { apply NoDup_Permutation; [done|apply NoDup_fst_map_to_list|].
    intros k. rewrite Hel, list_elem_of_fmap. split.
    - intros [p Hp]. exists (k, p). split; [done|]. by apply elem_of_map_to_list.
    - intros ([k' p] & -> & Hp%elem_of_map_to_list). by eexists. }
  apply Permutation_length in Hperm.
  unfold getLRUOrder in Hperm. rewrite length_map, length_fmap, length_map_to_list in Hperm.
  unfold Len, lru.Len. lia.
Qed.


(** The cache on which [Add] reaches its capacity check is well-formed and
    a tree. *)
Lemma AddUpToSettle_tree c k v pk c1 :
  wf none c → tree c → AddUpToSettle k v pk c = Some c1 → wf none c1 ∧ tree c1.
Proof.
  intros Hwf Ht. unfold AddUpToSettle.
  destruct (keysMap c !! pk) as [par|] eqn:Epar; [|done].
  destruct (keysMap c !! k) eqn:Ek; [done|].
  destruct (wf_keys _ _ Hwf pk par Epar) as [Hpar _].
  destruct (linkNew_spec k v par c Hwf Hpar) as (c4 & Hlink & Hl & Hwf4).
  rewrite Hlink. simpl. unfold promoteAncestors, node.
  rewrite (linked_parent _ _ _ _ _ Hl), decide_True by done.
  destruct (chain c4 (Some par)) as [ns|] eqn:E4; [|done]. simpl. intros [= <-].
  split.
  - eapply wf_promote; [exact E4|]. eapply wf_weaken; [done|]. by intros x ->.
  - eapply tree_reordered; [by eapply tree_linkNew|].
    apply reordered_promote; [by destruct Hwf4|apply reordered_refl].
Qed.

(** X19.  In a cache on which [Remove] was never called, what [Add] evicts
    is a leaf: when [Add] reaches its capacity check, the node at the back
    of the list has an empty map of children and is the parent of no
    node. *)
Theorem X19_Add_evicts_a_leaf c k v pk c1 t :
  intact c → AddUpToSettle k v pk c = Some c1 →
  lru.Back (lruList c1) = Some t →
  children (node c1 t) = Some ∅ ∧ ∀ p, parent (node c1 p) ≠ Some t.
Proof.
  intros Hi Hc1 Hback. pose proof (intact_tree c Hi) as Ht.
  destruct (reachable_Inv c (intact_reachable c Hi)) as [Hwf _].
  destruct (AddUpToSettle_tree c k v pk c1 Hwf Ht Hc1) as [Hwf1 Ht1].
  split; [by apply back_is_leaf|].
  intros p. by apply back_is_parent_of_no_node.
Qed.

(** What [evict] leaves of a chain that does not hold the node at the back
    of the list. *)
Lemma evict_keeps_chain c t start ns :
  wf none c → tree c → lru.Back (lruList c) = Some t →
  chain c start = Some ns → (∀ x, x ∈ ns → x ∈ lruList c) → t ∉ ns →
  chain (evict c).1 start = Some ns ∧
  (∀ x, x ∈ ns → cacheNodeOf (evict c).1 x = cacheNodeOf c x) ∧
  (∀ x, x ∈ ns → keysMap (evict c).1 !! key (heap c x) = Some x).
Proof.
  intros Hwf Ht Hback E Hin Hnot. rewrite (evict_tail c t Hback). simpl.
  set (c2 := setKeysMap _ _).
  destruct (removeFromParent_fields t c2) as (_ & _ & Ekm & _ & _ & Enx).
  assert (t ∈ lruList c) as HtL by by apply last_Some_elem_of.
  assert (∀ x, x ∈ ns → x ≠ t) as Hne by (intros x Hx ->; done).
  split_and!.
  - unfold chain, chainFuel. rewrite Enx. eapply ancestors_ext; [exact E|].
    intros p Hp. rewrite removeFromParent_parent. by rewrite decide_False by auto.
  - intros x Hx. unfold cacheNodeOf, parentKey, node.
    rewrite removeFromParent_key, removeFromParent_val, removeFromParent_parent.
    rewrite decide_False by auto. subst c2. simpl.
    destruct (parent (heap c x)); [|done]. by rewrite removeFromParent_key.
  - intros x Hx. rewrite Ekm. subst c2. simpl.
    pose proof (tree_keys _ Ht x (Hin x Hx)) as Hkx.
    pose proof (tree_keys _ Ht t HtL) as Hkt.
    rewrite lookup_delete_ne; [done|]. intros Hk. rewrite Hk in Hkt.
    specialize (Hne x Hx). congruence.
Qed.

(** X20.  In a cache on which [Remove] was never called, [Add] evicts
    neither the parent of the new entry nor any of its ancestors: the
    branch of the parent is the same after the call. *)
Theorem X20_Add_keeps_the_branch c k v pk par :
  intact c → keysMap c !! pk = Some par → keysMap c !! k = None →
  ∃ branch tr c',
    PeekBranch pk c = Done branch [IncHits] c ∧
    Add k v pk c = Done None tr c' ∧
    PeekBranch pk c' = Done branch [IncHits] c'.
Proof.
  intros Hi Epar Ek. pose proof (intact_tree c Hi) as Ht.
  destruct (reachable_Inv c (intact_reachable c Hi)) as [Hwf _].
  destruct (wf_keys _ _ Hwf pk par Epar) as [Hpar Hpkey].
  destruct (chain_total c (Some par) Hwf) as (ns & E & _).
  destruct (linkNew_spec k v par c Hwf Hpar) as (c4 & Hlink & Hl & Hwf4).
  assert (chain c4 (Some par) = Some ns) as E4.
  { eapply linked_chain; [done..| |done]. intros p [= <-]. by eapply wf_alloc. }
  assert (AddUpToSettle k v pk c = Some (promote ns c4)) as Hup.
  { unfold AddUpToSettle. rewrite Epar, Ek, Hlink. simpl. unfold promoteAncestors, node.
    by rewrite (linked_parent _ _ _ _ _ Hl), decide_True, E4. }
  destruct (AddUpToSettle_tree c k v pk _ Hwf Ht Hup) as [Hwf5 Ht5].
  rewrite (Add_settle k v pk c _ Hup).
  set (c5 := promote ns c4) in *.
  destruct (promote_fields ns c4) as (_ & _ & Ekm & _ & Eh & Enx).
  fold c5 in Ekm, Eh, Enx.
  assert (pk ≠ k) as Hpk by (intros ->; congruence).
  assert (keysMap c5 !! pk = Some par) as Epar5.
  { by rewrite Ekm, (linked_keysMap _ _ _ _ _ Hl), lookup_insert_ne. }
  assert (chain c5 (Some par) = Some ns) as E5.
  { unfold chain, chainFuel. by rewrite Eh, Enx. }
  assert (∀ x, x ∈ ns → (x < next c)%nat) as Hold.
  { intros x Hx. eapply chain_alloc; [exact Hwf|exact E| |done].
    intros p [= <-]. by eapply wf_alloc. }
  assert (∀ x, x ∈ ns → cacheNodeOf c5 x = cacheNodeOf c x) as Hsame.
  { intros x Hx. unfold c5. rewrite cacheNodeOf_promote.
    destruct (linked_old k v par c c4 x Hwf Hl (Hold x Hx)) as (Hkx & Hvx & Hpx).
    unfold cacheNodeOf, node in *. by rewrite Hkx, Hvx, Hpx. }
  unfold PeekBranch at 1. rewrite Epar, E, fillBranch_spec.
  exists (rev (map (cacheNodeOf c) ns)). unfold settle. case_decide as Hover.
  - destruct (evict c5) as [c' [ev b]] eqn:Ev.
    destruct (lru.Back (lruList c5)) as [t|] eqn:Hback.
    2:{ apply last_None in Hback. destruct Hover as [Hpos Hlt].
        rewrite Hback in Hlt. unfold lru.Len in Hlt. simpl in Hlt. lia. }
    destruct (tree_chain c5 Ht5 (chainFuel c5) par ns) as [Hin _];
      [by eapply wf_keys|exact E5|].
    assert (t ∉ ns) as Hnot.
    { intros Hx.
      destruct (ancestors_elem _ _ _ _ _ E5 Hx) as [[= ->]|(y & _ & Hy)].
      - apply (back_is_parent_of_no_node c5 t (next c) Hwf5 Hback).
        by rewrite Eh, (linked_parent _ _ _ _ _ Hl), decide_True.
      - by apply (back_is_parent_of_no_node c5 t y Hwf5 Hback). }
    destruct (evict_keeps_chain c5 t (Some par) ns Hwf5 Ht5 Hback E5 Hin Hnot)
      as (E' & Hsame' & Hkeep).
    rewrite Ev in E', Hsame', Hkeep. simpl in E', Hsame', Hkeep.
    do 2 eexists. split; [done|]. split; [done|].
    unfold PeekBranch.
    assert (keysMap c' !! pk = Some par) as ->.
    { assert (par ∈ ns) as Hp.
      { apply ancestors_head in E as [ns' ->]. set_solver. }
      specialize (Hkeep par Hp).
      replace (key (heap c5 par)) with pk in Hkeep; [done|].
      rewrite Eh. destruct (linked_old k v par c c4 par Hwf Hl (Hold par Hp)) as (-> & _).
      done. }
    rewrite E', fillBranch_spec. do 2 f_equal. apply map_ext_in.
    intros x Hx%list_elem_of_In. rewrite Hsame' by done. auto.
  - do 2 eexists. split; [done|]. split; [done|].
    unfold PeekBranch. rewrite Epar5, E5, fillBranch_spec. do 2 f_equal.
    apply map_ext_in. intros x Hx%list_elem_of_In. auto.
Qed.


(** ** [Remove] on a cache on which it was never called *)

Lemma removeRecursively_tree ro c0 n0 :
  wf none c0 → tree c0 →
  ∀ fuel n (s s' : Z * Cache (K:=K) (V:=V)),
    removing c0 n0 s.2 → n ∈ lruList s.2 →
    (rank c0 n0 ≤ rank c0 n)%nat →
    (n = n0 ∨ ∃ q, parent (heap c0 n) = Some q ∧ q ∉ lruList s.2) →
    removeRecursively ro fuel n s = Some s' →
    removing c0 n0 s'.2 ∧ removedBy c0 [n] s s'.
Proof.
  intros Hwf0 Ht0. induction fuel as [|fuel IH]; intros n s s' Hrm Hn Hrank Hup; [done|].
  destruct s as [cnt c]. simpl in Hrm, Hn, Hup. simpl. unfold node.
  set (c3 := setLruList (lru.Remove n (lruList c)) _).
  replace (store n (setParent None (heap c n)) (heap c) n)
    with (setParent None (heap c n)) by (unfold store; by rewrite decide_True).
  change (childrenOf (setParent None (heap c n))) with (childrenOf (heap c n)).
  pose proof (rm_sub _ _ _ Hrm n Hn) as Hn0.
  (* the cache after the four statements on [n] *)
  assert (removing c0 n0 c3) as Hrm3.
  { destruct Hrm. constructor; simpl.
    - intros x. unfold store. case_decide; subst; simpl; apply rm_key0.
    - intros x [Hx _]%elem_of_Remove. auto.
    - by apply NoDup_Remove.
    - intros x [Hx Hne]%elem_of_Remove. unfold store. rewrite decide_False by done. auto.
    - intros x [Hx Hne]%elem_of_Remove. rewrite rm_key0.
      rewrite lookup_delete_ne; [auto|]. intros Hk.
      pose proof (rm_keys0 x Hx) as Hkx. pose proof (rm_keys0 n Hn) as Hkn.
      rewrite <- Hk in Hkx. congruence.
    - intros x Hx0 Hx. rewrite elem_of_Remove in Hx.
      destruct (decide (x ∈ lruList c)) as [Hin|Hout].
      + assert (x = n) as -> by (destruct (decide (x = n)); [done|tauto]).
        destruct Hup as [->|(q & Hq & Hqn)]; [by left|]. right. exists q.
        split; [done|]. rewrite elem_of_Remove. tauto.
      + destruct (rm_gone0 x Hx0 Hout) as [->|(q & Hq & Hqn)]; [by left|]. right.
        exists q. split; [done|]. rewrite elem_of_Remove. tauto. }
  (* the loop over the children of [n] *)
  assert (∀ (xs : list (K * ptr)) (s1 s2 : Z * Cache (K:=K) (V:=V)),
     NoDup (xs.*2) →
     (∀ e, e ∈ xs → parent (heap c0 e.2) = Some n ∧ (rank c0 n0 ≤ rank c0 e.2)%nat) →
     removing c0 n0 s1.2 → n ∉ lruList s1.2 →
     (∀ e, e ∈ xs → e.2 ∈ lruList s1.2) →
     forEach (λ child : K * ptr, removeRecursively ro fuel child.2) xs s1 = Some s2 →
     removing c0 n0 s2.2 ∧ removedBy c0 (xs.*2) s1 s2) as Hloop.
  { induction xs as [|e xs IHxs]; intros s1 s2 Hnd Hpar Hrm1 Hn1 Hin; simpl.
    - intros [= <-]. split; [done|]. unfold removedBy. split_and!; try done; try lia.
      intros x Hx. by apply elem_of_nil in Hx.
    - destruct (removeRecursively ro fuel e.2 s1) as [s1'|] eqn:E1; [|done]. intros E2.
      simpl in Hnd. apply NoDup_cons in Hnd as [Hne Hnd].
      destruct (IH e.2 s1 s1' Hrm1) as [Hrm1' Hby1]; [..|exact E1|].
      { apply Hin, elem_of_cons. by left. }
      { apply Hpar, elem_of_cons. by left. }
      { right. exists n. split; [apply Hpar, elem_of_cons; by left|done]. }
      destruct Hby1 as (Hsub1 & Htop1 & Hgone1 & Hall1 & Hc1 & Hk1).
      destruct (IHxs s1' s2 Hnd) as [Hrm2 Hby2]; [..|exact E2|].
      { intros e' He'. apply Hpar, elem_of_cons. by right. }
      { done. }
      { intros Hn'. apply Hn1. auto. }
      { intros e' He'.
        destruct (decide (e'.2 ∈ lruList s1'.2)) as [|Hout]; [done|]. exfalso.
        destruct (Hgone1 e'.2) as [Hx|(q & Hq & HqL & _)];
          [apply Hin, elem_of_cons; by right|done| |].
        - apply list_elem_of_singleton in Hx. apply Hne. rewrite <- Hx.
          apply list_elem_of_fmap. by exists e'.
        - destruct (Hpar e') as [Hp _]; [apply elem_of_cons; by right|]. rewrite Hp in Hq.
          injection Hq as <-. done. }
      destruct Hby2 as (Hsub2 & Htop2 & Hgone2 & Hall2 & Hc2 & Hk2).
      split; [done|]. unfold removedBy. split_and!.
      + auto.
      + intros x [->|Hx]%elem_of_cons; [|auto]. intros Hx'.
        apply (Htop1 e.2); [by apply list_elem_of_singleton|auto].
      + intros x Hx Hx'. destruct (decide (x ∈ lruList s1'.2)) as [Hmid|Hmid].
        * destruct (Hgone2 x Hmid Hx') as [Htop|(q & Hq & HqL & Hq')];
            [left; apply elem_of_cons; by right|].
          right. exists q. auto.
        * destruct (Hgone1 x Hx Hmid) as [Htop|(q & Hq & HqL & Hq')].
          { left. apply list_elem_of_singleton in Htop as ->. apply elem_of_cons. by left. }
          right. exists q. split_and!; auto.
      + intros x q Hx Hq HqL Hq'. destruct (decide (q ∈ lruList s1'.2)) as [Hmid|Hmid].
        * destruct (decide (x ∈ lruList s1'.2)) as [Hxm|Hxm]; [by eapply Hall2|auto].
        * intros Hx'. by apply (Hall1 x q Hx Hq HqL Hmid), Hsub2.
      + lia.
      + lia. }
  destruct (forEach _ _ _) as [s2|] eqn:E; [|done]. intros [= <-]. simpl.
  (* the children of [n] *)
  assert (∀ e, e ∈ entries ro (childrenOf (heap c n)) →
               ∃ m, children (heap c0 n) = Some m ∧ m !! e.1 = Some e.2) as Hkids.
  { intros [k ch] (m & Hm & Hk)%entries_elem. rewrite (rm_children _ _ _ Hrm n Hn) in Hm.
    eauto. }
  assert (∀ e, e ∈ entries ro (childrenOf (heap c n)) →
               key (heap c0 e.2) = e.1 ∧ e.2 ∈ lruList c0 ∧
               parent (heap c0 e.2) = Some n) as Hkid.
  { intros e (m & Hm & Hk)%Hkids.
    destruct (wf_children _ _ Hwf0 n m _ _ Hm Hk) as (_ & Hkey & Hinl & _).
    pose proof (tree_children _ Ht0 n m _ _ Hn0 Hm Hk) as HchL. auto. }
  destruct (Hloop (entries ro (childrenOf (heap c n))) (cnt + 1, c3) s2)
    as [Hrm2 Hby2]; [| | | | |exact E|].
  { apply NoDup_fmap_2_strong.
    - intros e e' He He' Heq. destruct (Hkid e He) as (Hk & _).
      destruct (Hkid e' He') as (Hk' & _). rewrite Heq, Hk' in Hk.
      destruct e, e'. simpl in *. by subst.
    - rewrite (entries_perm ro). apply NoDup_map_to_list. }
  { intros e He. destruct (Hkid e He) as (_ & _ & Hp). split; [done|].
    pose proof (rank_parent c0 e.2 n Hwf0 Hp). lia. }
  { done. }
  { simpl. rewrite elem_of_Remove. tauto. }
  { intros e He. destruct (Hkid e He) as (_ & HeL & Hp). simpl.
    pose proof (rank_parent c0 e.2 n Hwf0 Hp) as Hlt.
    apply elem_of_Remove. split; [|intros Heq; rewrite Heq in Hlt; lia].
    destruct (decide (e.2 ∈ lruList c)) as [|Hout]; [done|]. exfalso.
    destruct (rm_gone _ _ _ Hrm e.2 HeL Hout) as [Heq|(q & Hq & Hqn)].
    - rewrite Heq in Hlt. lia.
    - rewrite Hp in Hq. by injection Hq as <-. }
  destruct Hby2 as (Hsub2 & Htop2 & Hgone2 & Hall2 & Hc2 & Hk2). simpl in *.
  assert (n ∉ lruList s2.2) as Hn2.
  { intros Hx%Hsub2. apply elem_of_Remove in Hx. tauto. }
  split.
  - destruct Hrm2. constructor; simpl; try done.
    + intros x. unfold store. case_decide; subst; simpl; apply rm_key0.
    + intros x Hx. unfold store. rewrite decide_False by (intros ->; done). auto.
  - pose proof (length_Remove (lruList c) n (rm_nodup _ _ _ Hrm) Hn) as Hlen.
    assert (size (delete (key (heap c n)) (keysMap c)) = pred (size (keysMap c)) ∧
            size (keysMap c) ≠ 0%nat) as [Hsz Hnz].
    { pose proof (rm_keys _ _ _ Hrm n Hn) as Hkn.
      rewrite <- (rm_key _ _ _ Hrm) in Hkn. split.
      - apply map_size_delete_Some. by eexists.
      - eapply map_size_ne_0_lookup_2. by eexists. }
    unfold removedBy. simpl. split_and!.
    + intros x Hx%Hsub2. apply elem_of_Remove in Hx. tauto.
    + by intros x ->%list_elem_of_singleton.
    + intros x Hx Hx'. destruct (decide (x = n)) as [->|Hne];
        [left; by apply list_elem_of_singleton|].
      right. destruct (Hgone2 x) as [Htop|(q & Hq & HqL & Hq')]; [|done| |].
      * apply elem_of_Remove. tauto.
      * apply list_elem_of_fmap in Htop as (e & -> & He).
        destruct (Hkid e He) as (_ & _ & Hp). exists n. auto.
      * exists q. apply elem_of_Remove in HqL. tauto.
    + intros x q Hx Hq HqL Hq'. destruct (decide (x = n)) as [->|Hne]; [done|].
      destruct (decide (q = n)) as [->|Hqn].
      * destruct (tree_parent _ Ht0 x n (rm_sub _ _ _ Hrm x Hx) Hq) as (_ & m & Hm & Hlook).
        apply Htop2. apply list_elem_of_fmap. exists (key (heap c0 x), x). split; [done|].
        apply entries_elem. exists m. split; [|done].
        by rewrite (rm_children _ _ _ Hrm n Hn).
      * apply (Hall2 x q); [|done| |done]; apply elem_of_Remove; tauto.
    + lia.
    + rewrite Hsz in Hk2. lia.
Qed.


(** A set of nodes of the list that holds [n], whose other nodes have
    their parent in it, and that holds the nodes whose parent is in it, is
    the set of the nodes whose chain passes through [n]. *)
Lemma below_iff c n (R : ptr → Prop) :
  tree c → R n →
  (∀ x, x ∈ lruList c → R x →
        x = n ∨ ∃ q, parent (heap c x) = Some q ∧ q ∈ lruList c ∧ R q) →
  (∀ x q, x ∈ lruList c → parent (heap c x) = Some q → q ∈ lruList c → R q → R x) →
  ∀ fuel p ns, p ∈ lruList c → ancestors fuel (heap c) (Some p) = Some ns →
               R p ↔ n ∈ ns.
Proof.
  intros Ht Htop Hgone Hall.
  induction fuel as [|fuel IH]; intros p ns Hp; [done|]. simpl.
  destruct (ancestors fuel (heap c) (parent (heap c p))) as [ns'|] eqn:E; [|done].
  simpl. intros [= <-]. split.
  - intros Hout. destruct (Hgone p Hp Hout) as [->|(q & Hq & HqL & Hq')].
    + apply elem_of_cons. by left.
    + rewrite Hq in E. apply elem_of_cons. right. by apply (IH q ns' HqL E).
  - intros [->|Hin]%elem_of_cons; [done|].
    destruct (parent (heap c p)) as [q|] eqn:Eq.
    + destruct (tree_parent _ Ht p q Hp Eq) as [HqL _].
      apply (Hall p q Hp Eq HqL). by apply (IH q ns' HqL E).
    + assert (ns' = []) as -> by (destruct fuel; simpl in E; by injection E as <-).
      by apply elem_of_nil in Hin.
Qed.

(** The key of [n] is on the branch of the chain [ns] exactly when [n] is
    in the chain. *)
Lemma key_on_branch c k n ns :
  wf none c → tree c → keysMap c !! k = Some n → (∀ x, x ∈ ns → x ∈ lruList c) →
  k ∈ map Key (rev (map (cacheNodeOf c) ns)) ↔ n ∈ ns.
Proof.
  intros Hwf Ht En Hin. destruct (wf_keys _ _ Hwf k n En) as [_ Hkey]. split.
  - intros (e & -> & (x & -> & Hx)%list_elem_of_rev%list_elem_of_map)%list_elem_of_map.
    pose proof (tree_keys _ Ht x (Hin x Hx)) as Hkx.
    unfold cacheNodeOf, node in Hkx. simpl in Hkx. unfold cacheNodeOf, node in En.
    simpl in En. rewrite En in Hkx. by injection Hkx as <-.
  - intros Hx. apply list_elem_of_map. exists (cacheNodeOf c n). split.
    + unfold cacheNodeOf, node. simpl. by rewrite Hkey.
    + apply list_elem_of_rev, list_elem_of_map. by exists n.
Qed.

(** X21.  [Remove] on a cache on which it was never called before removes
    the entry of the key with its subtree and nothing else, and returns the
    number of entries removed: afterwards a key is missed when the key that
    was removed is on its branch, and found as before otherwise. *)
Theorem X21_Remove_removes_the_subtree ro c k n :
  intact c → keysMap c !! k = Some n →
  ∃ cnt c',
    Remove ro k c = Done cnt [SetAmount (Len c')] c' ∧
    cnt = Len c - Len c' ∧
    ∀ k' branch,
      returned (PeekBranch k' c) = Some branch →
      returned (Peek k' c') =
      if decide (k ∈ map Key branch) then Some (zeroCacheNode, false)
      else returned (Peek k' c).
Proof.
  intros Hi En. pose proof (intact_tree c Hi) as Ht.
  destruct (reachable_Inv c (intact_reachable c Hi)) as [Hwf _].
  destruct (wf_keys _ _ Hwf k n En) as [Hn Hkey].
  destruct (removeRecursively_spec ro c Hwf (chainFuel c) n [] 0 c)
    as (cnt & c1 & E & Hwf1 & _ & _ & Hnot & _).
  { by apply (proj1 (wf_hide_nil c)). }
  { intros x. by right. }
  { left. split; [done|]. unfold fromBack, chainFuel.
    pose proof (length_bounded _ _ (wf_nodup _ _ Hwf) (wf_alloc _ _ Hwf)).
    pose proof (pos_le (lruList c) n). lia. }
  apply (proj2 (wf_hide_nil c1)) in Hwf1.
  unfold Remove. rewrite En, E.
  unfold removeFromParent, node. rewrite (wf_out _ _ Hwf1 n Hnot).
  destruct (removeRecursively_tree ro c n Hwf Ht (chainFuel c) n (0, c) (cnt, c1))
    as [Hrm Hby]; [|done|done|by left|exact E|].
  { constructor; try done; [by destruct Hwf|apply (tree_keys _ Ht)]. }
  apply removeRecursively_shrunk in E as (Hsh & _ & _).
  exists cnt, c1. split; [done|]. split.
  { destruct Hby as (_ & _ & _ & _ & _ & Hsz). simpl in Hsz. unfold Len. lia. }
  intros k' branch Hb. unfold PeekBranch in Hb.
  destruct (keysMap c !! k') as [p|] eqn:Ep.
  - destruct (wf_keys _ _ Hwf k' p Ep) as [Hp Hkp].
    destruct (chain_total c (Some p) Hwf) as (ns & Ech & _). rewrite Ech in Hb.
    rewrite fillBranch_spec in Hb. simpl in Hb. injection Hb as <-.
    destruct (tree_chain c Ht _ p ns Hp Ech) as [Hin _].
    assert (p ∉ lruList c1 ↔ n ∈ ns) as Hiff.
    { destruct Hby as (_ & _ & Hgone & Hall & _). simpl in *.
      apply (below_iff c n (λ x, x ∉ lruList c1) Ht Hnot) with (chainFuel c);
        [|exact Hall|exact Hp|exact Ech].
      intros x Hx Hx'. destruct (Hgone x Hx Hx') as [Hx0|?]; [|by right].
      left. by apply list_elem_of_singleton. }
    pose proof (key_on_branch c k n ns Hwf Ht En Hin) as Hk.
    case_decide as Hd.
    + apply Hk, Hiff in Hd. unfold Peek.
      destruct (keysMap c1 !! k') as [p'|] eqn:Ep'; [|done]. exfalso.
      destruct (wf_keys _ _ Hwf1 k' p' Ep') as [Hp' _].
      destruct Hsh as (Hm & _). simpl in Hm.
      pose proof (lookup_weaken _ _ _ _ Ep' Hm) as Ep0. congruence.
    + assert (p ∈ lruList c1) as Hp1.
      { destruct (decide (p ∈ lruList c1)) as [|Hout]; [done|]. exfalso.
        by apply Hd, Hk, Hiff. }
      pose proof (rm_keys _ _ _ Hrm p Hp1) as Hk1. rewrite Hkp in Hk1.
      by eapply (shrunk_Peek c 0 cnt c1).
  - injection Hb as <-. destruct (decide _) as [Hd|_]; [by apply elem_of_nil in Hd|].
    unfold Peek. rewrite Ep. destruct Hsh as (Hm & _). simpl in Hm.
    by rewrite (lookup_weaken_None _ _ _ Ep Hm).
Qed.


(** ** [TraverseSubtree] on a cache on which [Remove] was never called *)

Lemma visitOf_heap c c0 n : heap c = heap c0 → visitOf c n = visitOf c0 n.
Proof. intros Hh. unfold visitOf, parentKey, node. by rewrite Hh. Qed.

Lemma traverse_tree ro md c0 :
  wf none c0 → tree c0 → md < 0 →
  ∀ fuel n d (s s' : list event * Cache (K:=K) (V:=V)),
    heap s.2 = heap c0 → n ∈ lruList c0 →
    traverse ro md fuel n d s = Some s' →
    heap s'.2 = heap c0 ∧
    ∃ ws, s'.1 = s.1 ++ map (visitOf c0) ws ∧ walked c0 [n] ws.
Proof.
  intros Hwf0 Ht0 Hmd. induction fuel as [|fuel IH]; intros n d s s' Hh Hn; [done|].
  simpl. rewrite decide_False by lia. unfold node. rewrite Hh.
  rewrite (visitOf_heap _ c0 n Hh).
  (* the loop over the children of [n] *)
  assert (∀ (xs : list (K * ptr)) (s1 s2 : list event * Cache (K:=K) (V:=V)),
     NoDup (xs.*2) →
     (∀ e, e ∈ xs → e.2 ∈ lruList c0 ∧ parent (heap c0 e.2) = Some n) →
     heap s1.2 = heap c0 →
     forEach (λ child : K * ptr, traverse ro md fuel child.2 (d + 1)) xs s1 = Some s2 →
     heap s2.2 = heap c0 ∧
     ∃ ws, s2.1 = s1.1 ++ map (visitOf c0) ws ∧ walked c0 (xs.*2) ws) as Hloop.
  { induction xs as [|e xs IHxs]; intros s1 s2 Hnd Hkid Hh1; simpl.
    - intros [= <-]. split; [done|]. exists []. split; [by rewrite app_nil_r|].
      unfold walked. split_and!; try done.
      + intros x Hx. by apply elem_of_nil in Hx.
      + intros x Hx. by apply elem_of_nil in Hx.
      + intros x q _ _ Hq. by apply elem_of_nil in Hq.
    - destruct (traverse ro md fuel e.2 (d + 1) s1) as [s1'|] eqn:E1; [|done]. intros E2.
      simpl in Hnd. apply NoDup_cons in Hnd as [Hne Hnd].
      destruct (Hkid e) as [HeL Hep]; [apply elem_of_cons; by left|].
      destruct (IH e.2 (d + 1) s1 s1' Hh1 HeL E1) as (Hh1' & ws1 & Htr1 & Hw1).
      destruct (IHxs s1' s2 Hnd) as (Hh2 & ws2 & Htr2 & Hw2); [|done|exact E2|].
      { intros e' He'. apply Hkid, elem_of_cons. by right. }
      destruct Hw1 as (Htop1 & Hnd1 & Hin1 & Hup1 & Hall1).
      destruct Hw2 as (Htop2 & Hnd2 & Hin2 & Hup2 & Hall2).
      assert (∀ t, t ∈ xs.*2 → parent (heap c0 t) = Some n) as Hpar2.
      { intros t (e' & -> & He')%list_elem_of_fmap.
        apply (Hkid e'). apply elem_of_cons. by right. }
      pose proof (rank_parent c0 e.2 n Hwf0 Hep) as Hrk1.
      assert (∀ x, x ∈ ws1 → (rank c0 n < rank c0 x)%nat) as Hlow1.
      { intros x (_ & t & ->%list_elem_of_singleton & Hle)%Hin1. lia. }
      assert (∀ x, x ∈ ws2 → (rank c0 n < rank c0 x)%nat) as Hlow2.
      { intros x (_ & t & Ht & Hle)%Hin2.
        pose proof (rank_parent c0 t n Hwf0 (Hpar2 t Ht)). lia. }
      assert (∀ (m : nat) x, (rank c0 x < m)%nat → x ∈ ws1 → x ∈ ws2 → False) as Hdisj.
      { induction m as [|m IHm]; intros x Hm Hx1 Hx2; [lia|].
        destruct (Hup1 x Hx1) as [->%list_elem_of_singleton|(q & Hq & Hq1)].
        - destruct (Hup2 e.2 Hx2) as [Htop|(q & Hq & Hq2)]; [done|].
          rewrite Hep in Hq. injection Hq as <-. specialize (Hlow2 n Hq2). lia.
        - destruct (Hup2 x Hx2) as [Htop|(q' & Hq' & Hq2)].
          + rewrite (Hpar2 x Htop) in Hq. injection Hq as <-.
            specialize (Hlow1 n Hq1). lia.
          + rewrite Hq in Hq'. injection Hq' as <-.
            pose proof (rank_parent c0 x q Hwf0 Hq).
            apply (IHm q); [lia|done..]. }
      split; [done|]. exists (ws1 ++ ws2). split.
      { rewrite Htr2, Htr1, map_app. by rewrite app_assoc. }
      unfold walked. split_and!.
      + intros x [->|Hx]%elem_of_cons; apply elem_of_app.
        * left. by apply Htop1, list_elem_of_singleton.
        * right. by apply Htop2.
      + apply NoDup_app. split_and!; [done| |done].
        intros x Hx1 Hx2. apply (Hdisj (S (rank c0 x)) x); [lia|done..].
      + intros x [Hx|Hx]%elem_of_app.
        * destruct (Hin1 x Hx) as (HxL & t & ->%list_elem_of_singleton & Hle).
          split; [done|]. exists e.2. split; [apply elem_of_cons; by left|done].
        * destruct (Hin2 x Hx) as (HxL & t & Ht & Hle).
          split; [done|]. exists t. split; [apply elem_of_cons; by right|done].
      + intros x [Hx|Hx]%elem_of_app.
        * destruct (Hup1 x Hx) as [->%list_elem_of_singleton|(q & Hq & Hq1)].
          -- left. apply elem_of_cons. by left.
          -- right. exists q. split; [done|]. apply elem_of_app. by left.
        * destruct (Hup2 x Hx) as [Htop|(q & Hq & Hq2)].
          -- left. apply elem_of_cons. by right.
          -- right. exists q. split; [done|]. apply elem_of_app. by right.
      + intros x q Hx Hq [Hq1|Hq2]%elem_of_app; apply elem_of_app.
        * left. by eapply Hall1.
        * right. by eapply Hall2. }
  destruct (forEach _ _ _) as [s2|] eqn:E; [|done]. intros [= <-]. simpl.
  assert (∀ e, e ∈ entries ro (childrenOf (heap c0 n)) →
               key (heap c0 e.2) = e.1 ∧ e.2 ∈ lruList c0 ∧
               parent (heap c0 e.2) = Some n) as Hkid.
  { intros [k ch] (m & Hm & Hk)%entries_elem.
    destruct (wf_children _ _ Hwf0 n m _ _ Hm Hk) as (_ & Hkey & Hinl & _).
    pose proof (tree_children _ Ht0 n m _ _ Hn Hm Hk) as HchL. auto. }
  destruct (Hloop (entries ro (childrenOf (heap c0 n))) (s.1 ++ [visitOf c0 n], s.2) s2)
    as (Hh2 & ws & Htr & Hw); [| |done|exact E|].
  { apply NoDup_fmap_2_strong.
    - intros e e' He He' Heq. destruct (Hkid e He) as (Hk & _).
      destruct (Hkid e' He') as (Hk' & _). rewrite Heq, Hk' in Hk.
      destruct e, e'. simpl in *. by subst.
    - rewrite (entries_perm ro). apply NoDup_map_to_list. }
  { intros e He. destruct (Hkid e He) as (_ & HeL & Hp). done. }
  simpl in Htr. split; [done|]. exists (n :: ws). split.
  { rewrite Htr. simpl. by rewrite <- app_assoc. }
  destruct Hw as (Htop & Hnd & Hin & Hup & Hall).
  assert (∀ x, x ∈ ws → (rank c0 n < rank c0 x)%nat) as Hlow.
  { intros x (_ & t & (e & -> & He)%list_elem_of_fmap & Hle)%Hin.
    destruct (Hkid e He) as (_ & _ & Hp).
    pose proof (rank_parent c0 e.2 n Hwf0 Hp). lia. }
  unfold walked. split_and!.
  - intros x ->%list_elem_of_singleton. apply elem_of_cons. by left.
  - apply NoDup_cons. split; [|done]. intros Hx. specialize (Hlow n Hx). lia.
  - intros x [->|Hx]%elem_of_cons.
    + split; [done|]. exists n. split; [by apply list_elem_of_singleton|lia].
    + split; [by apply Hin|]. exists n. split; [by apply list_elem_of_singleton|].
      specialize (Hlow x Hx). lia.
  - intros x [->|Hx]%elem_of_cons; [left; by apply list_elem_of_singleton|].
    right. destruct (Hup x Hx) as [(e & -> & He)%list_elem_of_fmap|(q & Hq & Hqw)].
    + destruct (Hkid e He) as (_ & _ & Hp). exists n. split; [done|].
      apply elem_of_cons. by left.
    + exists q. split; [done|]. apply elem_of_cons. by right.
  - intros x q Hx Hq [->|Hqw]%elem_of_cons; apply elem_of_cons; right.
    + apply Htop.
      destruct (tree_parent _ Ht0 x n Hx Hq) as (_ & m & Hm & Hlook).
      apply list_elem_of_fmap. exists (key (heap c0 x), x). split; [done|].
      apply entries_elem. by exists m.
    + by eapply Hall.
Qed.

(** X22.  [TraverseSubtree] without depth limit, on a cache on which
    [Remove] was never called, calls the callback on the entries of the
    subtree of the key, each once, and on nothing else: an entry is visited
    exactly when the key is on its branch. *)
Theorem X22_TraverseSubtree_visits_the_subtree ro c k n d :
  intact c → d < 0 → keysMap c !! k = Some n →
  ∃ es c',
    TraverseSubtree ro k d c = Done () (map visitNode es ++ [IncHits]) c' ∧
    NoDup (map Key es) ∧
    ∀ e, e ∈ es ↔
         ∃ branch, returned (PeekBranch (Key e) c) = Some branch ∧
                   last branch = Some e ∧ k ∈ map Key branch.
Proof.
  intros Hi Hd En. pose proof (intact_tree c Hi) as Ht.
  destruct (reachable_Inv c (intact_reachable c Hi)) as [Hwf _].
  destruct (wf_keys _ _ Hwf k n En) as [Hn Hkey].
  destruct (traverse_spec ro d c Hwf (chainFuel c) n 0 [] c
              (λ q, parent (heap c n) = Some q))
    as (tr & c1 & E1 & Hre1 & Hwf1 & _ & _).
  { apply reordered_refl. }
  { eapply wf_weaken; [done|]. by intros x []. }
  { done. }
  { left. split; [done|]. unfold fromBack, chainFuel.
    pose proof (length_bounded _ _ (wf_nodup _ _ Hwf) (wf_alloc _ _ Hwf)).
    pose proof (pos_le (lruList c) n). lia. }
  destruct (traverse_tree ro d c Hwf Ht Hd _ n 0 ([], c) (tr, c1) eq_refl Hn E1)
    as (Hh1 & ws & Htr & Hw).
  simpl in Htr, Hh1. subst tr.
  destruct Hw as (Htop & Hnd & Hin & Hup & Hall).
  unfold TraverseSubtree. rewrite En, E1.
  destruct Hre1 as (_ & _ & _ & _ & _ & Enx & _).
  destruct (chain_total c (parent (heap c n)) Hwf) as (ns0 & E0 & _).
  unfold node, chain, chainFuel. rewrite Hh1, Enx. unfold chain, chainFuel in E0.
  rewrite E0.
  exists (map (cacheNodeOf c) ws). eexists. split.
  { by rewrite map_map. }
  assert (∀ x, x ∈ ws → keysMap c !! key (heap c x) = Some x) as Hkeys.
  { intros x Hx. apply (tree_keys _ Ht). by apply Hin. }
  split.
  { rewrite map_map. apply NoDup_fmap_2_strong; [|done].
    intros x y Hx Hy Hk. simpl in Hk. unfold node in Hk.
    pose proof (Hkeys x Hx) as Hkx. pose proof (Hkeys y Hy) as Hky.
    rewrite Hk in Hkx. congruence. }
  assert (∀ p ns, p ∈ lruList c → chain c (Some p) = Some ns → p ∈ ws ↔ n ∈ ns) as Hiff.
  { intros p ns Hp Ech.
    apply (below_iff c n (λ x, x ∈ ws) Ht) with (chainFuel c);
      [apply Htop; by apply list_elem_of_singleton|
       |intros x q Hx Hq _ Hqw; by apply (Hall x q)|exact Hp|exact Ech].
    intros x Hx Hxw. destruct (Hup x Hxw) as [->%list_elem_of_singleton|(q & Hq & Hqw)];
      [by left|]. right. exists q. split; [done|]. split; [|done]. by apply Hin. }
  intros e. split.
  - intros (x & -> & Hx)%list_elem_of_map.
    destruct (Hin x Hx) as [HxL _].
    destruct (chain_total c (Some x) Hwf) as (ns & Ech & _).
    destruct (tree_chain c Ht _ x ns HxL Ech) as [HinL _].
    exists (rev (map (cacheNodeOf c) ns)). unfold PeekBranch. simpl.
    unfold node. rewrite (Hkeys x Hx), Ech, fillBranch_spec. simpl.
    split; [done|]. split.
    + apply ancestors_head in Ech as [ns' ->]. simpl. by rewrite last_snoc.
    + apply (key_on_branch c k n ns Hwf Ht En HinL). by apply (Hiff x ns HxL Ech).
  - intros (branch & Hb & Hlast & Hk). unfold PeekBranch in Hb.
    destruct (keysMap c !! Key e) as [p|] eqn:Ep.
    2:{ injection Hb as <-. done. }
    destruct (wf_keys _ _ Hwf _ p Ep) as [Hp Hkp].
    destruct (chain_total c (Some p) Hwf) as (ns & Ech & _). rewrite Ech in Hb.
    rewrite fillBranch_spec in Hb. simpl in Hb. injection Hb as <-.
    destruct (tree_chain c Ht _ p ns Hp Ech) as [HinL _].
    apply (key_on_branch c k n ns Hwf Ht En HinL) in Hk.
    apply (Hiff p ns Hp Ech) in Hk.
    pose proof Ech as Ehead. apply ancestors_head in Ehead as [ns' ->].
    simpl in Hlast. rewrite last_snoc in Hlast. injection Hlast as <-.
    apply list_elem_of_map. by exists p.
Qed.

End further.

(** * The examples *)

Section examples.

Local Open Scope string_scope.

Local Ltac reach :=
  cbv beta delta [example.two example.three example.full
                  example.afterRemoveChild example.staleChild example.orphan
                  example.detached example.rootRemoved];
  repeat lazymatch goal with
    | |- reachable (runAll _ _) => apply runAll_reachable
    | |- reachable (NewCache _ _) => apply reachable_new
    end.

Lemma C6_error_atomicity_witness :
  AddOrUpdate "A" 9 "C" example.three = Done (Some ErrCycleDetected) [] example.three ∧
  ([] = @nil (event (K:=string) (V:=Z)) ∧ example.three = example.three).
Proof.
  assert (AddOrUpdate "A" 9 "C" example.three =
          Done (Some ErrCycleDetected) [] example.three) as E.
  { apply (proj2 (C6_error_atomicity example.three "A" 9 "C") 0%nat 2%nat).
    - reach.
    - vm_compute. reflexivity.
    - vm_compute. reflexivity.
    - exists [1; 0]%nat. split; [vm_compute; reflexivity|]. set_solver. }
  split; [exact E|].
  apply (proj1 (C6_error_atomicity example.three "A" 9 "C") ErrCycleDetected).
  right. right. exact E.
Defined.

Lemma C10_add_evicts_new_entry_witness :
  ∃ c',
    Add "C" 3 "B" (example.two 2) =
      Done None [SetAmount (Len c'); OnEvict (mkCacheNode "C" 3 "B")] c' ∧
    Peek "C" c' = Done (zeroCacheNode, false) [IncMisses] c'.
Proof.
  apply (C10_add_evicts_new_entry (example.two 2) "C" 3 "B" 1%nat).
  - reach.
  - vm_compute. reflexivity.
  - vm_compute. reflexivity.
  - vm_compute. reflexivity.
  - vm_compute. reflexivity.
  - intros k' q Hk%elem_of_map_to_list.
    set (l := map_to_list _) in Hk.
    assert (l = [("A", 0%nat); ("B", 1%nat)]) as E by (vm_compute; reflexivity).
    clearbody l. subst l. apply elem_of_cons in Hk as [[= -> ->]|Hk].
    + right. exists [0%nat]. split; [vm_compute; reflexivity|]. set_solver.
    + apply list_elem_of_singleton in Hk as [= -> ->]. by left.
Defined.

Lemma C4_GetBranch_promotes_key_first_witness :
  ∃ ns r,
    chain (example.two 10) (Some 1%nat) = Some ns ∧
    GetBranch "B" (example.two 10) =
      Done (rev (map (cacheNodeOf (example.two 10)) ns)) [IncHits]
           (promote ns (example.two 10)) ∧
    Get "B" (example.two 10) = Done r [IncHits] (promote ns (example.two 10)) ∧
    lruList (promote ns (example.two 10)) =
      (rev (filter (.∈ lruList (example.two 10)) ns) ++
       filter (.∉ ns) (lruList (example.two 10)))%list ∧
    ∀ k' v, keysMap (example.two 10) !! k' = None →
            ∃ c4, linked k' v 1%nat (example.two 10) c4 ∧
                  Add k' v "B" (example.two 10) = settle (promote ns c4).
Proof.
  apply (C4_GetBranch_promotes_key_first (example.two 10) "B" 1%nat).
  - reach.
  - vm_compute. reflexivity.
Defined.

(** C4, as the specification states it, fails: after [GetBranch] of "B"
    under the root "A", the node at the front of the list is the root, not
    the node of "B". *)
Lemma C4_counterexample :
  ¬ ∃ b c',
      keysMap (example.two 10) !! "B" = Some b ∧
      after (GetBranch "B" (example.two 10)) = Some c' ∧
      head (lruList c') = Some b.
Proof.
  intros (b & c' & Hb & Hafter & Hhead).
  assert (lruList <$> after (GetBranch "B" (example.two 10)) = Some [0; 1]%nat) as E
    by (vm_compute; reflexivity).
  rewrite Hafter in E. simpl in E. injection E as E. rewrite E in Hhead.
  simpl in Hhead. vm_compute in Hb. congruence.
Qed.

Lemma C5_TraverseSubtree_promotes_after_walk_witness :
  TraverseSubtree anyOrder "Z" (-1) (example.two 10) =
    Done () [IncMisses] (example.two 10) ∧
  ∃ ns vs c',
    chain (example.two 10) (parent (node (example.two 10) 0%nat)) = Some ns ∧
    TraverseSubtree anyOrder "A" (-1) (example.two 10) =
      Done () (visitOf (example.two 10) 0%nat :: vs ++ [IncHits])%list c' ∧
    reordered (example.two 10) c' ∧
    (∃ rest, lruList c' =
             (rev (filter (.∈ lruList (example.two 10)) ns) ++ 0%nat :: rest)%list) ∧
    ordered none (heap c') (lruList c').
Proof.
  assert (reachable (example.two 10)) as Hr by reach.
  split.
  - apply (proj1 (C5_TraverseSubtree_promotes_after_walk anyOrder
                    (example.two 10) "Z" (-1) Hr)).
    vm_compute. reflexivity.
  - apply (proj2 (C5_TraverseSubtree_promotes_after_walk anyOrder
                    (example.two 10) "A" (-1) Hr)).
    vm_compute. reflexivity.
Defined.

(** C5, as the specification states it, fails: after [TraverseSubtree] of
    the root "A", whose child "B" is visited after it, the node of "B" is
    not in front of the node of "A". *)
Lemma C5_counterexample :
  told (TraverseSubtree anyOrder "A" (-1) (example.two 10)) =
    Some [Visit "A" 1 ""; Visit "B" 2 "A"; IncHits] ∧
  ¬ ∃ a b c',
      keysMap (example.two 10) !! "A" = Some a ∧
      keysMap (example.two 10) !! "B" = Some b ∧
      after (TraverseSubtree anyOrder "A" (-1) (example.two 10)) = Some c' ∧
      before (lruList c') b a.
Proof.
  split; [vm_compute; reflexivity|].
  intros (a & b & c' & Ha & Hb & Hafter & Hbefore).
  assert (lruList <$> after (TraverseSubtree anyOrder "A" (-1) (example.two 10))
          = Some [0; 1]%nat) as E by (vm_compute; reflexivity).
  rewrite Hafter in E. simpl in E. injection E as E. rewrite E in Hbefore.
  vm_compute in Ha, Hb. injection Ha as <-. injection Hb as <-.
  destruct Hbefore as (_ & _ & Hlt). vm_compute in Hlt. lia.
Qed.

(** C3.  [Add] and [AddOrUpdate] evict "C" from the full cache of the
    scenario of the specification: the callback is told, the collaborator
    is told the size, and nobody is told [AddEvictions]. *)
Theorem C3_eviction_not_reported :
  reachable example.full ∧
  told (Add "E" 5 "B" example.full) =
    Some [SetAmount 4; OnEvict (mkCacheNode "C" 3 "B")] ∧
  told (AddOrUpdate "E" 5 "B" example.full) =
    Some [SetAmount 4; OnEvict (mkCacheNode "C" 3 "B")].
Proof.
  split; [reach|].
  split; vm_compute; reflexivity.
Qed.

(** C7.  "C" was added under "B" and removed: the key table holds "A" and
    "B" only, and "B" has no descendant; yet [Remove] of "B" returns 2,
    because "C" is still among the children of "B". *)
Theorem C7_Remove_counts_removed_child :
  reachable (example.afterRemoveChild 10) ∧
  map_to_list (keysMap (example.afterRemoveChild 10)) = [("A", 0%nat); ("B", 1%nat)] ∧
  map_to_list (childrenOf (node (example.afterRemoveChild 10) 1%nat)) = [("C", 2%nat)] ∧
  returned (Remove anyOrder "B" (example.afterRemoveChild 10)) = Some 2.
Proof.
  split; [reach|].
  split_and!; vm_compute; reflexivity.
Qed.

(** C1.  Capacity 3, after the removal of "C" from under "B": [Add] of "E"
    reaches its capacity check with "B" at the back of the list, and evicts
    it while the children of "B" still hold the removed "C". *)
Theorem C1_evicted_entry_has_a_child :
  reachable example.staleChild ∧
  (λ c, (bool_decide (overCapacity c), lru.Back (lruList c),
         key (node c 1%nat), map_to_list (childrenOf (node c 1%nat)))) <$>
    AddUpToSettle "E" 5 "A" example.staleChild =
    Some (true, Some 1%nat, "B", [("C", 2%nat)]) ∧
  told (Add "E" 5 "A" example.staleChild) =
    Some [SetAmount 3; OnEvict (mkCacheNode "B" 2 "A")].
Proof.
  split; [reach|].
  split; vm_compute; reflexivity.
Qed.

(** C2.  After the removal of "B", whose children still held the "C" that
    was removed before, the key "D" is present and its parent "C" is
    not. *)
Theorem C2_present_key_absent_parent :
  reachable example.orphan ∧
  returned (Peek "D" example.orphan) = Some (mkCacheNode "D" 5 "C", true) ∧
  returned (Peek "C" example.orphan) = Some (zeroCacheNode, false).
Proof.
  split; [reach|].
  split; vm_compute; reflexivity.
Qed.

(** C8.  The key "E" is present and the root is "R", but the branch of "E"
    begins with "P", which was removed, and does not hold the root. *)
Theorem C8_branch_does_not_begin_with_root :
  reachable example.detached ∧
  (λ r, key (node example.detached r)) <$> root example.detached = Some "R" ∧
  returned (Peek "R" example.detached) = Some (mkCacheNode "R" 1 "", true) ∧
  returned (Peek "P" example.detached) = Some (zeroCacheNode, false) ∧
  returned (GetBranch "E" example.detached) =
    Some [mkCacheNode "P" 8 ""; mkCacheNode "C" 5 "P"; mkCacheNode "E" 6 "C"] ∧
  returned (PeekBranch "E" example.detached) =
    Some [mkCacheNode "P" 8 ""; mkCacheNode "C" 5 "P"; mkCacheNode "E" 6 "C"].
Proof.
  split; [reach|].
  split_and!; vm_compute; reflexivity.
Qed.

(** C9.  The last call that led to this cache is the removal of the root
    "R"; the cache still holds two entries, and [Add] under one of them
    succeeds, while [AddRoot] fails. *)
Theorem C9_entries_survive_root_removal :
  reachable example.rootRemoved ∧
  Len example.rootRemoved = 2 ∧
  returned (Peek "R" example.rootRemoved) = Some (zeroCacheNode, false) ∧
  returned (Peek "E" example.rootRemoved) = Some (mkCacheNode "E" 6 "C", true) ∧
  returned (AddRoot "X" 9 example.rootRemoved) = Some (Some ErrRootAlreadyExists) ∧
  returned (Add "X" 9 "E" example.rootRemoved) = Some None.
Proof.
  split; [reach|].
  split_and!; vm_compute; reflexivity.
Qed.

(** ** Instances of the further properties *)

Local Ltac whole :=
  cbv beta delta [example.two example.three example.full];
  apply runAll_intact; [apply intact_new|reflexivity].

Lemma X1_every_call_returns_witness :
  ∃ c', perform (CallAdd "E" 5 "B") example.full = Some c' ∧ reachable c'.
Proof. apply (X1_every_call_returns example.full). reach. Defined.

Lemma X2_never_over_capacity_witness :
  (Len example.full ≤ lru.Len (lruList example.full))%Z ∧
  (lru.Len (lruList example.full) ≤ maxEntries example.full)%Z.
Proof.
  apply (X2_never_over_capacity example.full); [reach|vm_compute; reflexivity].
Defined.

Lemma X5_nothing_before_the_root_witness :
  Len (NewCache (K:=string) (V:=Z) 10 true) = 0 ∧
  Add "B" 2 "A" (NewCache 10 true) = Done (Some ErrParentNotExist) [] (NewCache 10 true) ∧
  AddOrUpdate "B" 2 "A" (NewCache 10 true) =
    Done (Some ErrParentNotExist) [] (NewCache 10 true) ∧
  Peek "B" (NewCache (V:=Z) 10 true) = Done (zeroCacheNode, false) [IncMisses] (NewCache 10 true).
Proof.
  apply (X5_nothing_before_the_root (NewCache 10 true) "B" 2 "A");
    [apply reachable_new|reflexivity].
Defined.

Lemma X6_AddRoot_first_witness :
  ∃ c', AddRoot "A" 1 (NewCache 10 true) = Done None [SetAmount 1] c' ∧
        Len c' = 1 ∧ is_Some (root c') ∧
        Peek "A" c' = Done (mkCacheNode "A" 1 zeroKey, true) [IncHits] c' ∧
        PeekBranch "A" c' = Done [mkCacheNode "A" 1 zeroKey] [IncHits] c'.
Proof.
  apply (X6_AddRoot_first (NewCache 10 true) "A" 1); [apply reachable_new|reflexivity].
Defined.

Lemma X7_root_is_set_once_witness :
  root (runAll [CallRemove anyOrder "A"] example.rootOnly) = root example.rootOnly ∧
  AddRoot "B" 2 (runAll [CallRemove anyOrder "A"] example.rootOnly) =
    Done (Some ErrRootAlreadyExists) [] (runAll [CallRemove anyOrder "A"] example.rootOnly).
Proof.
  apply (X7_root_is_set_once (NewCache 10 true) "A" 1 [SetAmount 1] example.rootOnly).
  reflexivity.
Defined.

Lemma X3_Add_with_room_witness :
  ∃ branch c',
    PeekBranch "B" (example.two 10) = Done branch [IncHits] (example.two 10) ∧
    Add "C" 3 "B" (example.two 10) =
      Done None [SetAmount (Len (example.two 10) + 1)] c' ∧
    Len c' = Len (example.two 10) + 1 ∧
    Peek "C" c' = Done (mkCacheNode "C" 3 "B", true) [IncHits] c' ∧
    PeekBranch "C" c' = Done (branch ++ [mkCacheNode "C" 3 "B"])%list [IncHits] c' ∧
    ∀ k', k' ≠ "C" → returned (Peek k' c') = returned (Peek k' (example.two 10)).
Proof.
  apply (X3_Add_with_room (example.two 10) "C" 3 "B" 1%nat).
  - reach.
  - vm_compute. reflexivity.
  - vm_compute. reflexivity.
  - right. vm_compute. reflexivity.
Defined.

Lemma X4_Add_evicts_least_recent_witness :
  ∃ c', Add "E" 5 "B" example.full =
          Done None
               (SetAmount (Len c') ::
                if onEvict example.full
                then [OnEvict (cacheNodeOf example.full 2%nat)] else [])
               c' ∧
        (2%nat ∉ lruList c') ∧ lru.Len (lruList c') = maxEntries example.full.
Proof.
  apply (X4_Add_evicts_least_recent example.full "E" 5 "B" 1%nat [1; 0]%nat 2%nat).
  - reach.
  - vm_compute. reflexivity.
  - vm_compute. reflexivity.
  - vm_compute. reflexivity.
  - vm_compute. reflexivity.
  - vm_compute. reflexivity.
  - vm_compute. reflexivity.
Defined.

Lemma X15_AddOrUpdate_present_witness :
  (AddOrUpdate "C" 9 "A" example.three = Done (Some ErrCycleDetected) [] example.three ∧
   (0%nat = 2%nat ∨ strictDescendant example.three 0%nat 2%nat)) ∨
  (∃ branch c',
     PeekBranch "A" example.three = Done branch [IncHits] example.three ∧
     AddOrUpdate "C" 9 "A" example.three = Done None [SetAmount (Len example.three)] c' ∧
     keysMap c' = keysMap example.three ∧
     Peek "C" c' = Done (mkCacheNode "C" 9 "A", true) [IncHits] c' ∧
     PeekBranch "C" c' = Done (branch ++ [mkCacheNode "C" 9 "A"])%list [IncHits] c' ∧
     ¬ (0%nat = 2%nat ∨ strictDescendant example.three 0%nat 2%nat)).
Proof.
  apply (X15_AddOrUpdate_present example.three "C" 9 "A" 2%nat 0%nat).
  - reach.
  - vm_compute. reflexivity.
  - vm_compute. reflexivity.
Defined.

Lemma X8_Get_returns_what_Peek_returns_witness :
  ∃ r tr c',
    Peek "C" example.three = Done r tr example.three ∧
    Get "C" example.three = Done r tr c' ∧
    reordered example.three c' ∧ Get "C" c' = Done r tr c'.
Proof. apply (X8_Get_returns_what_Peek_returns example.three "C"). reach. Defined.

Lemma X9_branch_is_a_path_witness :
  ∃ branch tr c',
    PeekBranch "C" example.three = Done branch tr example.three ∧
    GetBranch "C" example.three = Done branch tr c' ∧
    pathFrom zeroKey branch ∧
    ∀ e, Peek "C" example.three = Done (e, true) tr example.three ↔ last branch = Some e.
Proof. apply (X9_branch_is_a_path example.three "C"). reach. Defined.

Lemma X10_TraverseToRoot_walks_the_branch_witness :
  ∃ branch tr c',
    GetBranch "C" example.three = Done branch tr c' ∧
    TraverseToRoot "C" example.three =
      Done () (map visitNode (rev branch) ++ tr)%list c'.
Proof. apply (X10_TraverseToRoot_walks_the_branch example.three "C"). reach. Defined.

Lemma X11_TraverseSubtree_depth_witness :
  (∀ d, (d < 0)%Z → TraverseSubtree anyOrder "B" d example.three =
                 TraverseSubtree anyOrder "B" (-1) example.three) ∧
  ∃ r tr c',
    Get "B" example.three = Done r tr c' ∧
    TraverseSubtree anyOrder "B" 0 example.three =
      Done () ((if r.2 then [visitNode r.1] else []) ++ tr)%list c'.
Proof. apply (X11_TraverseSubtree_depth anyOrder example.three "B"). reach. Defined.

Lemma X12_reads_only_reorder_witness :
  reordered example.three (runAll [CallGet "C"] example.three) ∧
  Len (runAll [CallGet "C"] example.three) = Len example.three ∧
  ∀ k, returned (Peek k (runAll [CallGet "C"] example.three)) =
       returned (Peek k example.three).
Proof.
  apply (X12_reads_only_reorder example.three (CallGet "C")).
  - reach.
  - reflexivity.
  - reflexivity.
Defined.

Lemma X13_Remove_present_witness :
  ∃ cnt c',
    Remove anyOrder "B" example.three = Done cnt [SetAmount (Len c')] c' ∧
    (1 ≤ cnt)%Z ∧ (Len example.three - Len c' ≤ cnt)%Z ∧
    (Len c' < Len example.three)%Z ∧
    keysMap c' ⊆ keysMap example.three ∧
    Peek "B" c' = Done (zeroCacheNode, false) [IncMisses] c' ∧
    (∀ k', is_Some (keysMap c' !! k') →
           returned (Peek k' c') = returned (Peek k' example.three)) ∧
    Remove anyOrder "B" c' = Done 0 [] c'.
Proof.
  apply (X13_Remove_present anyOrder example.three "B" 1%nat); [reach|].
  vm_compute. reflexivity.
Defined.

Lemma X14_Remove_leaf_witness :
  ∃ c', Remove anyOrder "C" example.three =
          Done 1 [SetAmount (Len example.three - 1)] c' ∧
        keysMap c' = delete "C" (keysMap example.three) ∧
        lruList c' = lru.Remove 2%nat (lruList example.three) ∧
        Len c' = Len example.three - 1.
Proof.
  apply (X14_Remove_leaf anyOrder example.three "C" 2%nat); [reach| |].
  - vm_compute. reflexivity.
  - vm_compute. reflexivity.
Defined.

Lemma X16_ancestors_are_present_witness :
  ∃ branch r,
    PeekBranch "C" example.three = Done branch [IncHits] example.three ∧
    root example.three = Some r ∧ head branch = Some (cacheNodeOf example.three r) ∧
    ∀ e, e ∈ branch → Peek (Key e) example.three = Done (e, true) [IncHits] example.three.
Proof.
  apply (X16_ancestors_are_present example.three "C" 2%nat); [whole|].
  vm_compute. reflexivity.
Defined.

Lemma X17_root_is_most_recent_witness :
  head (lruList example.full) = root example.full ∧
  ∀ r, root example.full = Some r →
       Peek (key (node example.full r)) example.full =
       Done (cacheNodeOf example.full r, true) [IncHits] example.full.
Proof. apply (X17_root_is_most_recent example.full). whole. Defined.

Lemma X18_keys_and_list_agree_witness :
  Len example.full = lru.Len (lruList example.full) ∧
  NoDup (getLRUOrder example.full) ∧
  ∀ k, k ∈ getLRUOrder example.full ↔ is_Some (keysMap example.full !! k).
Proof. apply (X18_keys_and_list_agree example.full). whole. Defined.

Lemma X19_Add_evicts_a_leaf_witness :
  children (node example.atCheck 2%nat) = Some ∅ ∧
  ∀ p, parent (node example.atCheck p) ≠ Some 2%nat.
Proof.
  apply (X19_Add_evicts_a_leaf example.full "E" 5 "B" example.atCheck 2%nat); [whole| |].
  - vm_compute. reflexivity.
  - vm_compute. reflexivity.
Defined.

Lemma X20_Add_keeps_the_branch_witness :
  ∃ branch tr c',
    PeekBranch "B" example.full = Done branch [IncHits] example.full ∧
    Add "E" 5 "B" example.full = Done None tr c' ∧
    PeekBranch "B" c' = Done branch [IncHits] c'.
Proof.
  apply (X20_Add_keeps_the_branch example.full "E" 5 "B" 1%nat); [whole| |].
  - vm_compute. reflexivity.
  - vm_compute. reflexivity.
Defined.

Lemma X21_Remove_removes_the_subtree_witness :
  ∃ cnt c',
    Remove anyOrder "B" example.full = Done cnt [SetAmount (Len c')] c' ∧
    cnt = Len example.full - Len c' ∧
    ∀ k' branch,
      returned (PeekBranch k' example.full) = Some branch →
      returned (Peek k' c') =
      if decide ("B" ∈ map Key branch) then Some (zeroCacheNode, false)
      else returned (Peek k' example.full).
Proof.
  apply (X21_Remove_removes_the_subtree anyOrder example.full "B" 1%nat); [whole|].
  vm_compute. reflexivity.
Defined.

Lemma X22_TraverseSubtree_visits_the_subtree_witness :
  ∃ es c',
    TraverseSubtree anyOrder "B" (-1) example.full =
      Done () (map visitNode es ++ [IncHits])%list c' ∧
    NoDup (map Key es) ∧
    ∀ e, e ∈ es ↔
         ∃ branch, returned (PeekBranch (Key e) example.full) = Some branch ∧
                   last branch = Some e ∧ "B" ∈ map Key branch.
Proof.
  apply (X22_TraverseSubtree_visits_the_subtree anyOrder example.full "B" 1%nat (-1));
    [whole|reflexivity|].
  vm_compute. reflexivity.
Defined.

End examples.
